(** * The magnetic-contract matching engine of vapor, in Rocq

    A shallow embedding of [application/mov/match]: the matching engine
    ([match.go]: [Engine.HasMatchedTx], [Engine.NextMatchedTx] and the helpers
    that assemble the settlement transaction) and the maker/taker fee policy
    ([fee_strategy.go]: [DefaultFeeStrategy]).

    Conventions of the embedding.
    - [uint64] and [int64] values are integers of [Z]; every Go operation that
      can wrap is written with [wrap_u64] / [wrap_s64].
    - [float64] is IEEE 754 binary64 with round-to-nearest-even, taken from the
      Standard Library's [SpecFloat] at precision 53 and [emax] 1024.
    - A Go function returning [(T, error)] returns an [outcome T]: [Ok], [Err]
      for a returned error, [Fault] for a run-time panic or for a conversion
      whose result the Go specification leaves to the implementation.
    - Go maps are [gmap]s.  Go iterates a map in an unspecified order; the
      model iterates in the order of [map_to_list].
    - Pointers are followed silently: a [*bc.AssetID] is the identifier it
      points to, and no pointer handled by these functions is nil. *)

From Stdlib Require Import ZArith List Bool Lia String.
From Stdlib Require Import Floats.SpecFloat.
From stdpp Require Import base option list gmap strings.

Local Open Scope Z_scope.

(** ** Outcomes of Go calls *)

Inductive error : Type :=
  | ErrTradePairsSize      (* "size of trade pairs at least 2" *)
  | ErrTradePairsInvalid   (* "specified trade pairs is invalid" *)
  | ErrNoOrder             (* "no order for the specified trade pair in the order table" *)
  | ErrNoReceiveOutput     (* "the input of matched tx has no receive output" *)
  | ErrInvalidAmountOfFee  (* "amount of fee is invalid" *)
  | ErrExternal (msg : string). (* an error returned by a collaborator *)

Inductive fault : Type :=
  | DivideByZero           (* integer division by zero *)
  | NilMapEntry            (* field access through the nil pointer read from a map *)
  | IndexOutOfRange        (* slice index out of range *)
  | ConversionOutOfRange.  (* float64 to integer conversion of an unrepresentable value *)

Inductive outcome (A : Type) : Type :=
  | Ok (a : A)
  | Err (e : error)
  | Fault (f : fault).
Arguments Ok {A} a.
Arguments Err {A} e.
Arguments Fault {A} f.

Global Instance outcome_ret : MRet outcome := fun A a => Ok a.
Global Instance outcome_bind : MBind outcome := fun A B k x =>
  match x with
  | Ok a => k a
  | Err e => Err e
  | Fault f => Fault f
  end.

Definition is_Ok {A : Type} (x : outcome A) : bool :=
  match x with Ok _ => true | _ => false end.

Definition is_Err {A : Type} (x : outcome A) : bool :=
  match x with Err _ => true | _ => false end.

(** [xs[i]] on a slice. *)
Definition index {A : Type} (xs : list A) (i : nat) : outcome A :=
  match xs !! i with
  | Some x => Ok x
  | None => Fault IndexOutOfRange
  end.

(** ** Machine integers *)

Definition wrap_u64 (z : Z) : Z := z mod 2 ^ 64.
Definition wrap_s64 (z : Z) : Z := (z + 2 ^ 63) mod 2 ^ 64 - 2 ^ 63.

Definition is_u64 (z : Z) : Prop := 0 <= z < 2 ^ 64.
Definition is_s64 (z : Z) : Prop := - 2 ^ 63 <= z < 2 ^ 63.

(** [x / y] on [int64]: truncated division, panics on a zero divisor. *)
Definition div_s64 (x y : Z) : outcome Z :=
  if y =? 0 then Fault DivideByZero else Ok (wrap_s64 (Z.quot x y)).

(** [vprMath.MinUint64]. *)
Definition MinUint64 (x y : Z) : Z := if x <? y then x else y.

(** ** float64 *)

Module F64.

Definition prec : Z := 53.
Definition emax : Z := 1024.

Definition float64 : Type := spec_float.

(** [float64(n)] for an integer [n]. *)
Definition of_Z (n : Z) : float64 := binary_normalize prec emax n 0 false.

Definition mul : float64 -> float64 -> float64 := SFmul prec emax.
Definition div : float64 -> float64 -> float64 := SFdiv prec emax.
Definition ltb : float64 -> float64 -> bool := SFltb.

(** The constants the sources write: [1], [1E4] and [0.05] (the float64
    nearest to 5/100, which a correctly rounded division yields). *)
Definition one : float64 := of_Z 1.
Definition c1E4 : float64 := of_Z 10000.
Definition c0_05 : float64 := div (of_Z 5) (of_Z 100).

(** The integer [math.Ceil(x)], when [x] is finite.  [math.Ceil] returns it
    as a float64, which is exact: a float64 of magnitude 2^52 or more is an
    integer already. *)
Definition ceil (x : float64) : option Z :=
  match x with
  | S754_zero _ => Some 0
  | S754_finite s m e =>
      let v := if s then Z.neg m else Z.pos m in
      Some (if 0 <=? e then v * 2 ^ e else - ((- v) / 2 ^ (- e)))
  | _ => None
  end.

(** [uint64(math.Ceil(x))]: defined by the language only when the value is
    representable. *)
Definition ceil_uint64 (x : float64) : outcome Z :=
  match ceil x with
  | Some z => if (0 <=? z) && (z <? 2 ^ 64) then Ok z else Fault ConversionOutOfRange
  | None => Fault ConversionOutOfRange
  end.

(** [int64(math.Ceil(x))]. *)
Definition ceil_int64 (x : float64) : outcome Z :=
  match ceil x with
  | Some z => if (- 2 ^ 63 <=? z) && (z <? 2 ^ 63) then Ok z else Fault ConversionOutOfRange
  | None => Fault ConversionOutOfRange
  end.

End F64.

(** ** Data model *)

Abbreviation AssetID := N (only parsing).
Abbreviation Hash := N (only parsing).
(** A program is a byte string. *)
Abbreviation Program := string (only parsing).

(** [bc.AssetAmount]. *)
Record AssetAmount : Type := mkAssetAmount {
  AssetId : AssetID;
  Amount : Z
}.

(** [common.TradePair]. *)
Record TradePair : Type := mkTradePair {
  tpFromAssetID : AssetID;
  tpToAssetID : AssetID
}.

(** [common.MovUtxo]. *)
Record MovUtxo : Type := mkMovUtxo {
  SourceID : Hash;
  SourcePos : Z;
  utxoAmount : Z;
  utxoControlProgram : Program
}.

(** [common.Order]. *)
Record Order : Type := mkOrder {
  FromAssetID : AssetID;
  ToAssetID : AssetID;
  Utxo : MovUtxo;
  Rate : F64.float64
}.

(** [vmutil.MagneticContractArgs]. *)
Record MagneticContractArgs : Type := mkMagneticContractArgs {
  RequestedAsset : AssetID;
  RatioNumerator : Z;
  RatioDenominator : Z;
  SellerProgram : Program;
  SellerKey : string
}.

(** A witness argument: the bytes [vm.Int64Bytes(n)]. *)
Inductive argument : Type :=
  | Int64Bytes (n : Z).

(** [types.TxInput], spend inputs only (the engine builds no other kind). *)
Record TxInput : Type := mkTxInput {
  inArguments : list argument;
  inSourceID : Hash;
  inAssetID : AssetID;
  inAmount : Z;
  inSourcePos : Z;
  inControlProgram : Program
}.

Definition NewSpendInput (arguments : list argument) (sourceID : Hash)
    (assetID : AssetID) (amount sourcePos : Z) (controlProgram : Program) : TxInput :=
  mkTxInput arguments sourceID assetID amount sourcePos controlProgram.

Definition SetArguments (txInput : TxInput) (arguments : list argument) : TxInput :=
  mkTxInput arguments (inSourceID txInput) (inAssetID txInput) (inAmount txInput)
    (inSourcePos txInput) (inControlProgram txInput).

(** [types.TxOutput], intra-chain outputs only. *)
Record TxOutput : Type := mkTxOutput {
  outAssetID : AssetID;
  outAmount : Z;
  outControlProgram : Program
}.

Definition NewIntraChainOutput (assetID : AssetID) (amount : Z) (controlProgram : Program)
    : TxOutput :=
  mkTxOutput assetID amount controlProgram.

(** [types.TxData]; a [types.Tx] is the [TxData] it embeds. *)
Record TxData : Type := mkTxData {
  Version : Z;
  SerializedSize : Z;
  Inputs : list TxInput;
  Outputs : list TxOutput
}.

Abbreviation Tx := TxData (only parsing).

(** [AllocatedAssets] of [fee_strategy.go]. *)
Record AllocatedAssets : Type := mkAllocatedAssets {
  Receives : list AssetAmount;
  Fees : list AssetAmount
}.

(** [feeAmount] of [match.go]. *)
Record feeAmount : Type := mkFeeAmount {
  maxFeeAmount : Z;
  payableFeeAmount : Z
}.

(** [contract.PartialTradeClauseSelector] and [contract.FullTradeClauseSelector]
    (the values the witnesses of [tx_magnetic_test.go] carry). *)
Definition PartialTradeClauseSelector : Z := 0.
Definition FullTradeClauseSelector : Z := 1.

(** ** The collaborators of the engine

    The order table ([OrderTable], over the [database.MovStore]), the script
    codec of [consensus/segwit] and the transaction serializer are not part of
    these sources.  The engine is modelled over any implementation of them.
    [AddOrder] returns the table it leaves behind together with its error. *)

Class Collaborators : Type := {
  OrderTable : Type;
  PeekOrder : OrderTable -> TradePair -> option Order;
  PopOrder : OrderTable -> TradePair -> OrderTable;
  AddOrder : OrderTable -> Order -> OrderTable * option error;
  IsP2WMCScript : Program -> bool;
  DecodeP2WMCProgram : Program -> outcome MagneticContractArgs;
  MarshalText : TxData -> outcome string;
  TxID : TxData -> Hash
}.

(** ** fee_strategy.go *)

Definition makerFeeRate : Z := 0.
Definition takerFeeRate : Z := 3.

(** [DefaultFeeStrategy.calcFeeAmount]:
    [uint64(math.Ceil(float64(amount) * float64(feeRate) / 1E4))]. *)
Definition calcFeeAmount (amount : Z) (isMaker : bool) : outcome Z :=
  let feeRate := if isMaker then makerFeeRate else takerFeeRate in
  F64.ceil_uint64 (F64.div (F64.mul (F64.of_Z amount) (F64.of_Z feeRate)) F64.c1E4).

(** The inner loop of [Allocate] over [priceDiffs], for a taker leg receiving
    [asset]: every price differential of that asset is charged, in place, and
    the charge is added to [fees[i].Amount], here [feeAcc]. *)
Fixpoint chargePriceDiffs (asset : AssetID) (priceDiffs : list AssetAmount) (feeAcc : Z)
    : outcome (list AssetAmount * Z) :=
  match priceDiffs with
  | [] => Ok ([], feeAcc)
  | priceDiff :: rest =>
      if decide (AssetId priceDiff = asset) then
        fee ← calcFeeAmount (Amount priceDiff) false;
        let priceDiff' := mkAssetAmount (AssetId priceDiff) (wrap_u64 (Amount priceDiff - fee)) in
        '(rest', feeAcc') ← chargePriceDiffs asset rest (wrap_u64 (feeAcc + fee));
        Ok (priceDiff' :: rest', feeAcc')
      else
        '(rest', feeAcc') ← chargePriceDiffs asset rest feeAcc;
        Ok (priceDiff :: rest', feeAcc')
  end.

(** The loop of [Allocate] from index [i] on; it returns the entries of
    [receives] and [fees] from [i] on and the [priceDiffs] it leaves. *)
Fixpoint allocateFrom (i : nat) (receiveAmounts : list AssetAmount)
    (priceDiffs : list AssetAmount) (isMakers : list bool)
    : outcome (list AssetAmount * list AssetAmount * list AssetAmount) :=
  match receiveAmounts with
  | [] => Ok ([], [], priceDiffs)
  | receiveAmount :: rest =>
      isMaker ← index isMakers i;
      fee ← calcFeeAmount (Amount receiveAmount) isMaker;
      let receive := mkAssetAmount (AssetId receiveAmount) (wrap_u64 (Amount receiveAmount - fee)) in
      '(priceDiffs', feeAcc) ←
        (if negb isMaker then chargePriceDiffs (AssetId receiveAmount) priceDiffs fee
         else Ok (priceDiffs, fee));
      '(receives, fees, priceDiffs'') ← allocateFrom (S i) rest priceDiffs' isMakers;
      Ok (receive :: receives, mkAssetAmount (AssetId receiveAmount) feeAcc :: fees, priceDiffs'')
  end.

(** [DefaultFeeStrategy.Allocate].  [priceDiffs] holds pointers and is
    updated in place: the second component is [priceDiffs] after the call. *)
Definition Allocate (receiveAmounts priceDiffs : list AssetAmount) (isMakers : list bool)
    : outcome (AllocatedAssets * list AssetAmount) :=
  '(receives, fees, priceDiffs') ← allocateFrom 0 receiveAmounts priceDiffs isMakers;
  Ok (mkAllocatedAssets receives fees, priceDiffs').

(** [DefaultFeeStrategy.Validate]; an absent key of a Go map reads as the
    zero value. *)
Fixpoint Validate (receiveAmounts : list AssetAmount) (feeAmounts : gmap AssetID Z)
    : outcome unit :=
  match receiveAmounts with
  | [] => Ok tt
  | receiveAmount :: rest =>
      let realFeeAmount := default 0 (feeAmounts !! AssetId receiveAmount) in
      feeAmount ← calcFeeAmount (Amount receiveAmount) false;
      if realFeeAmount >? feeAmount then Err ErrInvalidAmountOfFee
      else Validate rest feeAmounts
  end.

(** ** match.go *)

Definition TxData_setInputs (txData : TxData) (inputs : list TxInput) : TxData :=
  mkTxData (Version txData) (SerializedSize txData) inputs (Outputs txData).

Definition TxData_setOutputs (txData : TxData) (outputs : list TxOutput) : TxData :=
  mkTxData (Version txData) (SerializedSize txData) (Inputs txData) outputs.

Definition TxData_setSerializedSize (txData : TxData) (size : Z) : TxData :=
  mkTxData (Version txData) size (Inputs txData) (Outputs txData).

(** [getOppositeIndex]; [size - 1] is the truncated subtraction of [nat],
    which changes nothing: for [size = 0] both tests succeed. *)
Definition getOppositeIndex (size selfIdx : nat) : nat :=
  if (size - 1 <=? selfIdx)%nat then 0%nat else (selfIdx + 1)%nat.

(** The loop of [validateTradePairs], from index [i] on. *)
Fixpoint validateTradePairsFrom (tradePairs : list TradePair) (i : nat)
    (rest : list TradePair) : outcome unit :=
  match rest with
  | [] => Ok tt
  | tradePair :: rest' =>
      oppositeTradePair ← index tradePairs (getOppositeIndex (length tradePairs) i);
      if decide (tpToAssetID tradePair ≠ tpFromAssetID oppositeTradePair)
      then Err ErrTradePairsInvalid
      else validateTradePairsFrom tradePairs (S i) rest'
  end.

Definition validateTradePairs (tradePairs : list TradePair) : outcome unit :=
  if (length tradePairs <? 2)%nat then Err ErrTradePairsSize
  else validateTradePairsFrom tradePairs 0 tradePairs.

Definition canNotBeMatched (order oppositeOrder : Order) : bool :=
  let rate := F64.div F64.one (Rate order) in
  F64.ltb rate (Rate oppositeOrder).

(** The loop of [HasMatchedTx] over [orders], from index [i] on. *)
Fixpoint allCanBeMatchedFrom (orders : list Order) (i : nat) (rest : list Order)
    : outcome bool :=
  match rest with
  | [] => Ok true
  | order :: rest' =>
      oppositeOrder ← index orders (getOppositeIndex (length orders) i);
      if canNotBeMatched order oppositeOrder then Ok false
      else allCanBeMatchedFrom orders (S i) rest'
  end.

(** [calcRequestAmount]:
    [uint64(int64(fromAmount) * contractArg.RatioNumerator / contractArg.RatioDenominator)]. *)
Definition calcRequestAmount (fromAmount : Z) (contractArg : MagneticContractArgs)
    : outcome Z :=
  q ← div_s64 (wrap_s64 (wrap_s64 fromAmount * RatioNumerator contractArg))
        (RatioDenominator contractArg);
  Ok (wrap_u64 q).

(** [CalcShouldPayAmount]: [uint64(math.Ceil(float64(receiveAmount) *
    float64(contractArg.RatioDenominator) / float64(contractArg.RatioNumerator)))]. *)
Definition CalcShouldPayAmount (receiveAmount : Z) (contractArg : MagneticContractArgs)
    : outcome Z :=
  F64.ceil_uint64
    (F64.div (F64.mul (F64.of_Z receiveAmount) (F64.of_Z (RatioDenominator contractArg)))
       (F64.of_Z (RatioNumerator contractArg))).

(** [CalcMaxFeeAmount]: [int64(math.Ceil(float64(shouldPayAmount) * maxFeeRate))]. *)
Definition CalcMaxFeeAmount (shouldPayAmount : Z) : outcome Z :=
  F64.ceil_int64 (F64.mul (F64.of_Z shouldPayAmount) F64.c0_05).

Definition setMatchTxArguments (txInput : TxInput) (isPartialTrade : bool)
    (position : nat) (receiveAmounts : Z) : TxInput :=
  let arguments :=
    if isPartialTrade
    then [Int64Bytes (wrap_s64 receiveAmounts); Int64Bytes (Z.of_nat position);
          Int64Bytes PartialTradeClauseSelector]
    else [Int64Bytes (Z.of_nat position); Int64Bytes FullTradeClauseSelector] in
  SetArguments txInput arguments.

(** [e.orderTable] and [e.nodeProgram]. *)
Record Engine `{Collaborators} : Type := mkEngine {
  orderTable : OrderTable;
  nodeProgram : Program
}.

Section Match.
Context `{Collaborators}.

(** [Engine.peekOrders]: [nil] as soon as a trade pair has no order. *)
Fixpoint peekOrdersFrom (table : OrderTable) (tradePairs : list TradePair)
    (orders : list Order) : list Order :=
  match tradePairs with
  | [] => orders
  | tradePair :: rest =>
      match PeekOrder table tradePair with
      | None => []
      | Some order => peekOrdersFrom table rest (orders ++ [order])
      end
  end.

Definition peekOrders (e : Engine) (tradePairs : list TradePair) : list Order :=
  peekOrdersFrom (orderTable e) tradePairs [].

(** [Engine.HasMatchedTx]. *)
Definition HasMatchedTx (e : Engine) (tradePairs : list TradePair) : outcome bool :=
  match validateTradePairs tradePairs with
  | Err _ => Ok false
  | Fault f => Fault f
  | Ok _ =>
      let orders := peekOrders e tradePairs in
      if (length orders =? 0)%nat then Ok false
      else allCanBeMatchedFrom orders 0 orders
  end.

(** [addMatchTxOutput].  [txInput] points to an element of
    [txData.Inputs]; the model passes its index, [inputIdx]. *)
Definition addMatchTxOutput (txData : TxData) (inputIdx : nat) (order : Order)
    (oppositeAmount : Z) : outcome TxData :=
  contractArgs ← DecodeP2WMCProgram (utxoControlProgram (Utxo order));
  requestAmount ← calcRequestAmount (utxoAmount (Utxo order)) contractArgs;
  let receiveAmount := MinUint64 requestAmount oppositeAmount in
  shouldPayAmount ← CalcShouldPayAmount receiveAmount contractArgs;
  let isPartialTrade := utxoAmount (Utxo order) >? shouldPayAmount in
  let inputs :=
    alter (fun txInput =>
             setMatchTxArguments txInput isPartialTrade (length (Outputs txData)) receiveAmount)
      inputIdx (Inputs txData) in
  let outputs :=
    Outputs txData
      ++ [NewIntraChainOutput (ToAssetID order) receiveAmount (SellerProgram contractArgs)] in
  let outputs :=
    if isPartialTrade
    then outputs
           ++ [NewIntraChainOutput (FromAssetID order)
                 (wrap_u64 (utxoAmount (Utxo order) - shouldPayAmount))
                 (utxoControlProgram (Utxo order))]
    else outputs in
  Ok (TxData_setOutputs (TxData_setInputs txData inputs) outputs).

(** The first loop of [buildMatchTx], from index [i] on. *)
Fixpoint buildMatchTxFrom (orders : list Order) (i : nat) (rest : list Order)
    (txData : TxData) : outcome TxData :=
  match rest with
  | [] => Ok txData
  | order :: rest' =>
      let input :=
        NewSpendInput [] (SourceID (Utxo order)) (FromAssetID order)
          (utxoAmount (Utxo order)) (SourcePos (Utxo order))
          (utxoControlProgram (Utxo order)) in
      let txData := TxData_setInputs txData (Inputs txData ++ [input]) in
      oppositeOrder ← index orders (getOppositeIndex (length orders) i);
      txData ← addMatchTxOutput txData (length (Inputs txData) - 1) order
                 (utxoAmount (Utxo oppositeOrder));
      buildMatchTxFrom orders (S i) rest' txData
  end.

(** [m[assetID].payableFeeAmount += delta] on a map of pointers. *)
Definition addPayable (m : gmap AssetID feeAmount) (assetID : AssetID) (delta : Z)
    : outcome (gmap AssetID feeAmount) :=
  match m !! assetID with
  | Some amount =>
      Ok (<[assetID :=
              mkFeeAmount (maxFeeAmount amount) (wrap_s64 (payableFeeAmount amount + delta))]> m)
  | None => Fault NilMapEntry
  end.

(** [m[assetID].maxFeeAmount = v]. *)
Definition setMaxFee (m : gmap AssetID feeAmount) (assetID : AssetID) (v : Z)
    : outcome (gmap AssetID feeAmount) :=
  match m !! assetID with
  | Some amount => Ok (<[assetID := mkFeeAmount v (payableFeeAmount amount)]> m)
  | None => Fault NilMapEntry
  end.

(** First loop of [CalcFeeFromMatchedTx]: an entry per input asset. *)
Definition initAssetAmountMap (inputs : list TxInput) : gmap AssetID feeAmount :=
  foldl (fun m input => <[inAssetID input := mkFeeAmount 0 0]> m) ∅ inputs.

(** Second loop: the outputs.  [receiveOutputMap] is keyed by
    [hex.EncodeToString] of the program, which is injective: the model keys
    it by the program. *)
Fixpoint scanOutputs (outputs : list TxOutput) (assetAmountMap : gmap AssetID feeAmount)
    (receiveOutputMap : gmap string TxOutput)
    : outcome (gmap AssetID feeAmount * gmap string TxOutput) :=
  match outputs with
  | [] => Ok (assetAmountMap, receiveOutputMap)
  | output :: rest =>
      if IsP2WMCScript (outControlProgram output) then
        assetAmountMap ←
          addPayable assetAmountMap (outAssetID output) (- wrap_s64 (outAmount output));
        scanOutputs rest assetAmountMap receiveOutputMap
      else
        scanOutputs rest assetAmountMap (<[outControlProgram output := output]> receiveOutputMap)
  end.

(** Third loop: the inputs. *)
Fixpoint scanInputs (inputs : list TxInput) (assetAmountMap : gmap AssetID feeAmount)
    (receiveOutputMap : gmap string TxOutput) : outcome (gmap AssetID feeAmount) :=
  match inputs with
  | [] => Ok assetAmountMap
  | input :: rest =>
      contractArgs ← DecodeP2WMCProgram (inControlProgram input);
      assetAmountMap ← addPayable assetAmountMap (inAssetID input) (wrap_s64 (inAmount input));
      match receiveOutputMap !! SellerProgram contractArgs with
      | None => Err ErrNoReceiveOutput
      | Some receiveOutput =>
          assetAmountMap ←
            addPayable assetAmountMap (outAssetID receiveOutput)
              (- wrap_s64 (outAmount receiveOutput));
          shouldPayAmount ← CalcShouldPayAmount (outAmount receiveOutput) contractArgs;
          maxFee ← CalcMaxFeeAmount shouldPayAmount;
          assetAmountMap ← setMaxFee assetAmountMap (inAssetID input) maxFee;
          scanInputs rest assetAmountMap receiveOutputMap
      end
  end.

(** [CalcFeeFromMatchedTx]; the last loop deletes the entries whose payable
    fee is zero. *)
Definition CalcFeeFromMatchedTx (txData : TxData) : outcome (gmap AssetID feeAmount) :=
  let assetAmountMap := initAssetAmountMap (Inputs txData) in
  '(assetAmountMap, receiveOutputMap) ← scanOutputs (Outputs txData) assetAmountMap ∅;
  assetAmountMap ← scanInputs (Inputs txData) assetAmountMap receiveOutputMap;
  Ok (filter (fun kv => payableFeeAmount kv.2 ≠ 0) assetAmountMap).

(** The inner loop of [addMatchTxFeeOutput]:
    [for i := 0; i < len(txData.Inputs) && reminder > 0; i++]. *)
Fixpoint refundFrom (inputsLen : nat) (feeAssetID : AssetID) (averageAmount : Z)
    (i : nat) (rest : list TxInput) (reminder : Z) (outputs : list TxOutput)
    : outcome (list TxOutput) :=
  match rest with
  | [] => Ok outputs
  | input :: rest' =>
      if reminder >? 0 then
        contractArgs ← DecodeP2WMCProgram (inControlProgram input);
        let amount := if (i =? inputsLen - 1)%nat then reminder else averageAmount in
        refundFrom inputsLen feeAssetID averageAmount (S i) rest'
          (wrap_s64 (reminder - averageAmount))
          (outputs ++ [NewIntraChainOutput feeAssetID (wrap_u64 amount)
                         (SellerProgram contractArgs)])
      else Ok outputs
  end.

(** The body of the loop of [addMatchTxFeeOutput] for one entry of the fee
    map. *)
Definition addFeeOutputsOf (e : Engine) (txData : TxData) (feeAssetID : AssetID)
    (amount : feeAmount) : outcome TxData :=
  let exceeds := payableFeeAmount amount >? maxFeeAmount amount in
  let feeAmount := if exceeds then maxFeeAmount amount else payableFeeAmount amount in
  let reminder :=
    if exceeds then wrap_s64 (payableFeeAmount amount - maxFeeAmount amount) else 0 in
  let outputs :=
    Outputs txData ++ [NewIntraChainOutput feeAssetID (wrap_u64 feeAmount) (nodeProgram e)] in
  averageAmount ← div_s64 reminder (Z.of_nat (length (Inputs txData)));
  let averageAmount := if averageAmount =? 0 then 1 else averageAmount in
  outputs ← refundFrom (length (Inputs txData)) feeAssetID averageAmount 0 (Inputs txData)
              reminder outputs;
  Ok (TxData_setOutputs txData outputs).

Fixpoint addFeeOutputsFrom (e : Engine) (entries : list (AssetID * feeAmount))
    (txData : TxData) : outcome TxData :=
  match entries with
  | [] => Ok txData
  | (feeAssetID, amount) :: rest =>
      txData ← addFeeOutputsOf e txData feeAssetID amount;
      addFeeOutputsFrom e rest txData
  end.

(** [Engine.addMatchTxFeeOutput]. *)
Definition addMatchTxFeeOutput (e : Engine) (txData : TxData) : outcome TxData :=
  feeAssetAmountMap ← CalcFeeFromMatchedTx txData;
  addFeeOutputsFrom e (map_to_list feeAssetAmountMap) txData.

(** [Engine.buildMatchTx]. *)
Definition buildMatchTx (e : Engine) (orders : list Order) : outcome Tx :=
  let txData := mkTxData 1 0 [] [] in
  txData ← buildMatchTxFrom orders 0 orders txData;
  txData ← addMatchTxFeeOutput e txData;
  byteData ← MarshalText txData;
  Ok (TxData_setSerializedSize txData (Z.of_nat (String.length byteData))).

(** Modelled from the spec: [common.NewOrderFromOutput] is not among the
    sources.  The order of an output offers the output's asset and amount
    under the output's locking script, requests the asset the script names,
    is located by the transaction and the output index, and has the rate
    [ratioDenominator / ratioNumerator]; a script that does not decode is an
    error. *)
Definition NewOrderFromOutput (tx : Tx) (outputIndex : nat) : outcome Order :=
  output ← index (Outputs tx) outputIndex;
  contractArgs ← DecodeP2WMCProgram (outControlProgram output);
  Ok (mkOrder (outAssetID output) (RequestedAsset contractArgs)
        (mkMovUtxo (TxID tx) (Z.of_nat outputIndex) (outAmount output)
           (outControlProgram output))
        (F64.div (F64.of_Z (RatioDenominator contractArgs))
           (F64.of_Z (RatioNumerator contractArgs)))).

(** The loop of [addPartialTradeOrder], from index [i] on; the table it
    leaves and its result. *)
Fixpoint addPartialTradeOrderFrom (tx : Tx) (i : nat) (rest : list TxOutput)
    (table : OrderTable) : OrderTable * outcome unit :=
  match rest with
  | [] => (table, Ok tt)
  | output :: rest' =>
      if negb (IsP2WMCScript (outControlProgram output)) then
        addPartialTradeOrderFrom tx (S i) rest' table
      else
        match NewOrderFromOutput tx i with
        | Ok order =>
            match AddOrder table order with
            | (table', None) => addPartialTradeOrderFrom tx (S i) rest' table'
            | (table', Some err) => (table', Err err)
            end
        | Err err => (table, Err err)
        | Fault f => (table, Fault f)
        end
  end.

Definition addPartialTradeOrder (tx : Tx) (table : OrderTable)
    : OrderTable * outcome unit :=
  addPartialTradeOrderFrom tx 0 (Outputs tx) table.

(** [Engine.NextMatchedTx]: the engine it leaves and its result. *)
Definition NextMatchedTx (e : Engine) (tradePairs : list TradePair)
    : Engine * outcome Tx :=
  match validateTradePairs tradePairs with
  | Err err => (e, Err err)
  | Fault f => (e, Fault f)
  | Ok _ =>
      let orders := peekOrders e tradePairs in
      if (length orders =? 0)%nat then (e, Err ErrNoOrder)
      else
        match buildMatchTx e orders with
        | Err err => (e, Err err)
        | Fault f => (e, Fault f)
        | Ok tx =>
            let table := foldl PopOrder (orderTable e) tradePairs in
            match addPartialTradeOrder tx table with
            | (table', Ok _) => (mkEngine _ table' (nodeProgram e), Ok tx)
            | (table', Err err) => (mkEngine _ table' (nodeProgram e), Err err)
            | (table', Fault f) => (mkEngine _ table' (nodeProgram e), Fault f)
            end
        end
  end.

End Match.

(** ** A small order book, for concrete runs *)

(** Modelled from the spec: the order table and the script codec are not among
    the sources.  The book keeps the resting orders of every trade pair with
    the lowest rate first: [PeekOrder] reads the first order of the pair,
    [PopOrder] removes it, and the default [AddOrder] inserts an order behind
    the orders of its pair that are at least as good.  The codec recognises a
    given finite table of scripts. *)
Module Book.

Definition table : Type := list Order.

Definition inTradePair (tradePair : TradePair) (order : Order) : bool :=
  (FromAssetID order =? tpFromAssetID tradePair)%N
  && (ToAssetID order =? tpToAssetID tradePair)%N.

Definition peek (t : table) (tradePair : TradePair) : option Order :=
  List.find (inTradePair tradePair) t.

Fixpoint pop (t : table) (tradePair : TradePair) : table :=
  match t with
  | [] => []
  | order :: rest =>
      if inTradePair tradePair order then rest else order :: pop rest tradePair
  end.

Fixpoint insert (t : table) (order : Order) : table :=
  match t with
  | [] => [order]
  | o :: rest =>
      if inTradePair (mkTradePair (FromAssetID order) (ToAssetID order)) o
         && F64.ltb (Rate order) (Rate o)
      then order :: o :: rest
      else o :: insert rest order
  end.

Definition add (t : table) (order : Order) : table * option error :=
  (insert t order, None).

(** An order table whose backing store has become unavailable. *)
Definition addUnavailable (t : table) (order : Order) : table * option error :=
  (t, Some (ErrExternal "store unavailable")).

Fixpoint lookupScript (scripts : list (string * MagneticContractArgs)) (program : string)
    : option MagneticContractArgs :=
  match scripts with
  | [] => None
  | (p, args) :: rest => if String.eqb p program then Some args else lookupScript rest program
  end.

Definition isScript (scripts : list (string * MagneticContractArgs)) (program : string)
    : bool :=
  match lookupScript scripts program with Some _ => true | None => false end.

Definition decode (scripts : list (string * MagneticContractArgs)) (program : string)
    : outcome MagneticContractArgs :=
  match lookupScript scripts program with
  | Some args => Ok args
  | None => Err (ErrExternal "invalid P2MC program")
  end.

Definition collaborators (scripts : list (string * MagneticContractArgs))
    (addOrder : table -> Order -> table * option error) : Collaborators :=
  {| OrderTable := table;
     PeekOrder := peek;
     PopOrder := pop;
     AddOrder := addOrder;
     IsP2WMCScript := isScript scripts;
     DecodeP2WMCProgram := decode scripts;
     MarshalText := fun _ => Ok EmptyString;
     TxID := fun _ => 0%N |}.

(** Two assets and the two directions of their market. *)
Definition assetX : N := 1%N.
Definition assetY : N := 2%N.
Definition pairXY : TradePair := mkTradePair assetX assetY.
Definition pairYX : TradePair := mkTradePair assetY assetX.
Definition ring : list TradePair := [pairXY; pairYX].

(** The script of an order requesting [asset] at [numerator / denominator]
    for the seller [seller], and the order locking [amount] under the
    script named [program]. *)
Definition script (asset : N) (numerator denominator : Z) (seller : string)
    : MagneticContractArgs :=
  mkMagneticContractArgs asset numerator denominator seller "key".

Definition order (from to : N) (amount : Z) (program : string) (args : MagneticContractArgs)
    : Order :=
  mkOrder from to (mkMovUtxo 7%N 0 amount program)
    (F64.div (F64.of_Z (RatioDenominator args)) (F64.of_Z (RatioNumerator args))).

(** Both orders ask for half a unit per unit offered. *)
Definition generousA : MagneticContractArgs := script assetY 1 2 "sellerA".
Definition generousB : MagneticContractArgs := script assetX 1 2 "sellerB".
Definition generousScripts : list (string * MagneticContractArgs) :=
  [("scriptA", generousA); ("scriptB", generousB)].
Definition generousBook : table :=
  [order assetX assetY 100 "scriptA" generousA; order assetY assetX 100 "scriptB" generousB].

(** Both orders ask for two units per unit offered. *)
Definition greedyA : MagneticContractArgs := script assetY 2 1 "sellerA".
Definition greedyB : MagneticContractArgs := script assetX 2 1 "sellerB".
Definition greedyScripts : list (string * MagneticContractArgs) :=
  [("scriptA", greedyA); ("scriptB", greedyB)].
Definition greedyBook : table :=
  [order assetX assetY 100 "scriptA" greedyA; order assetY assetX 100 "scriptB" greedyB].

(** One unit offered at one half on both sides: nothing can be requested
    for either. *)
Definition dustA : MagneticContractArgs := script assetY 1 2 "sellerA".
Definition dustB : MagneticContractArgs := script assetX 1 2 "sellerB".
Definition dustScripts : list (string * MagneticContractArgs) :=
  [("scriptA", dustA); ("scriptB", dustB)].
Definition dustBook : table :=
  [order assetX assetY 1 "scriptA" dustA; order assetY assetX 1 "scriptB" dustB].

(** A partial fill: 100 X at 2 Y per X against 50 Y at one X per 2 Y
    (the second scenario of the specification, scaled down). *)
Definition partialA : MagneticContractArgs := script assetY 2 1 "sellerA".
Definition partialB : MagneticContractArgs := script assetX 1 2 "sellerB".
Definition partialScripts : list (string * MagneticContractArgs) :=
  [("scriptA", partialA); ("scriptB", partialB)].
Definition partialBook : table :=
  [order assetX assetY 100 "scriptA" partialA; order assetY assetX 50 "scriptB" partialB].

(** Both orders ask for half a unit per unit offered and name the same
    seller program: one trader on both sides of the market. *)
Definition twoSidedA : MagneticContractArgs := script assetY 1 2 "seller".
Definition twoSidedB : MagneticContractArgs := script assetX 1 2 "seller".
Definition twoSidedScripts : list (string * MagneticContractArgs) :=
  [("scriptA", twoSidedA); ("scriptB", twoSidedB)].
Definition twoSidedBook : table :=
  [order assetX assetY 100 "scriptA" twoSidedA; order assetY assetX 100 "scriptB" twoSidedB].

(** The scripts of the partial fill, the first with a zero denominator. *)
Definition zeroDenominatorScripts : list (string * MagneticContractArgs) :=
  [("scriptA", script assetY 2 0 "sellerA"); ("scriptB", partialB)].

(** The scripts of the partial fill, the first paying the script of the
    second order instead of an ordinary program. *)
Definition lockedSellerScripts : list (string * MagneticContractArgs) :=
  [("scriptA", script assetY 2 1 "scriptB"); ("scriptB", partialB)].

Definition engine (scripts : list (string * MagneticContractArgs))
    (addOrder : table -> Order -> table * option error) (book : table)
    : @Engine (collaborators scripts addOrder) :=
  @mkEngine (collaborators scripts addOrder) book "node".

End Book.

(** ** Vocabulary of the properties *)

(** The two errors of [validateTradePairs]. *)
Definition invalidRing (err : error) : Prop :=
  err = ErrTradePairsSize \/ err = ErrTradePairsInvalid.

(** The total of the amounts that [entries] hold of [asset]. *)
Fixpoint totalOf (asset : AssetID) (entries : list (AssetID * Z)) : Z :=
  match entries with
  | [] => 0
  | (a, amount) :: rest =>
      (if decide (a = asset) then amount else 0) + totalOf asset rest
  end.

Definition inputEntries (inputs : list TxInput) : list (AssetID * Z) :=
  (fun input => (inAssetID input, inAmount input)) <$> inputs.

Definition outputEntries (outputs : list TxOutput) : list (AssetID * Z) :=
  (fun output => (outAssetID output, outAmount output)) <$> outputs.

(** Sum of the input amounts, and of the output amounts, of [asset]. *)
Definition inputTotal (asset : AssetID) (txData : TxData) : Z :=
  totalOf asset (inputEntries (Inputs txData)).

Definition outputTotal (asset : AssetID) (txData : TxData) : Z :=
  totalOf asset (outputEntries (Outputs txData)).

Definition sumZ (amounts : list Z) : Z := foldr Z.add 0 amounts.

Definition amountEntries (amounts : list AssetAmount) : list (AssetID * Z) :=
  (fun a => (AssetId a, Amount a)) <$> amounts.

Arguments amountEntries : simpl never.
Arguments inputEntries : simpl never.
Arguments outputEntries : simpl never.

(** An amount that fits [uint64]. *)
Definition uint64Amount (a : AssetAmount) : Prop := 0 <= Amount a < 2 ^ 64.

(** The fee charged for [asset] according to a map of charged fees. *)
Definition chargedFee (feeAmounts : gmap AssetID Z) (asset : AssetID) : Z :=
  default 0 (feeAmounts !! asset).

(** The output that the receive-output map of [CalcFeeFromMatchedTx] holds
    for [program] after the outputs have been scanned: the last output
    locked by [program] that is not a P2WMC script, [found] when there is
    none. *)
Fixpoint lastReceiveOutput `{Collaborators} (outputs : list TxOutput) (program : Program)
    (found : option TxOutput) : option TxOutput :=
  match outputs with
  | [] => found
  | output :: rest =>
      lastReceiveOutput rest program
        (if negb (IsP2WMCScript (outControlProgram output))
            && bool_decide (outControlProgram output = program)
         then Some output else found)
  end.

(** Equality of machine integers of 64 bits. *)
Definition eqm64 (a b : Z) : Prop := a mod 2 ^ 64 = b mod 2 ^ 64.

(** The outputs locked by a P2WMC script (the continuation orders), and the
    others (the payments). *)
Definition scriptOutputs `{Collaborators} (outputs : list TxOutput) : list TxOutput :=
  filter (fun output => IsP2WMCScript (outControlProgram output) = true) outputs.

Definition payOutputs `{Collaborators} (outputs : list TxOutput) : list TxOutput :=
  filter (fun output => IsP2WMCScript (outControlProgram output) = false) outputs.

(** [output] is locked by the seller program that the script of [input]
    names. *)
Definition paysSellerOf `{Collaborators} (input : TxInput) (output : TxOutput) : Prop :=
  exists contractArgs,
    DecodeP2WMCProgram (inControlProgram input) = Ok contractArgs
    /\ outControlProgram output = SellerProgram contractArgs.

(** What the map of [CalcFeeFromMatchedTx] holds while the transaction is
    scanned: every payable fee is an [int64] equal, as a machine integer, to
    the total [g] of its asset, and no cap is negative. *)
Definition feeMapTracks (m : gmap AssetID feeAmount) (g : AssetID -> Z) : Prop :=
  forall asset amount,
    m !! asset = Some amount ->
    eqm64 (payableFeeAmount amount) (g asset)
    /\ is_s64 (payableFeeAmount amount)
    /\ 0 <= maxFeeAmount amount.

(** The outputs that [addMatchTxOutput] appends for [order] matched against
    [oppositeAmount]: the payment to the seller and, on a partial fill, the
    continuation under the script of the order.  [contractArgs] are the
    arguments of the script and [shouldPayAmount] what the order pays. *)
Definition legOutputsOf `{Collaborators} (order : Order) (oppositeAmount : Z)
    (contractArgs : MagneticContractArgs) (shouldPayAmount : Z)
    (outputs : list TxOutput) : Prop :=
  exists requestAmount,
    DecodeP2WMCProgram (utxoControlProgram (Utxo order)) = Ok contractArgs
    /\ calcRequestAmount (utxoAmount (Utxo order)) contractArgs = Ok requestAmount
    /\ CalcShouldPayAmount (MinUint64 requestAmount oppositeAmount) contractArgs
       = Ok shouldPayAmount
    /\ outputs
       = NewIntraChainOutput (ToAssetID order) (MinUint64 requestAmount oppositeAmount)
           (SellerProgram contractArgs)
         :: (if utxoAmount (Utxo order) >? shouldPayAmount
             then [NewIntraChainOutput (FromAssetID order)
                     (wrap_u64 (utxoAmount (Utxo order) - shouldPayAmount))
                     (utxoControlProgram (Utxo order))]
             else []).

(** [input] spends the output that [order] locks. *)
Definition spends (order : Order) (input : TxInput) : Prop :=
  inAssetID input = FromAssetID order
  /\ inAmount input = utxoAmount (Utxo order)
  /\ inControlProgram input = utxoControlProgram (Utxo order).

(** The script of [order] is a P2WMC script and its seller program is not. *)
Definition scriptedOrder `{Collaborators} (order : Order) : Prop :=
  IsP2WMCScript (utxoControlProgram (Utxo order)) = true
  /\ forall contractArgs,
      DecodeP2WMCProgram (utxoControlProgram (Utxo order)) = Ok contractArgs ->
      IsP2WMCScript (SellerProgram contractArgs) = false.

(** [sellers] are the seller programs of [orders], in order. *)
Definition sellersOf `{Collaborators} (orders : list Order) (sellers : list Program) : Prop :=
  Forall2 (fun order seller =>
             exists contractArgs,
               DecodeP2WMCProgram (utxoControlProgram (Utxo order)) = Ok contractArgs
               /\ SellerProgram contractArgs = seller)
    orders sellers.

(** The orders that [addPartialTradeOrder] makes of the outputs [rest] of
    [tx], which start at index [i]: one of every output locked by a P2WMC
    script. *)
Fixpoint continuationOrdersFrom `{Collaborators} (tx : Tx) (i : nat) (rest : list TxOutput)
    : list Order :=
  match rest with
  | [] => []
  | output :: rest' =>
      if IsP2WMCScript (outControlProgram output) then
        match NewOrderFromOutput tx i with
        | Ok order => order :: continuationOrdersFrom tx (S i) rest'
        | _ => continuationOrdersFrom tx (S i) rest'
        end
      else continuationOrdersFrom tx (S i) rest'
  end.

Definition continuationOrders `{Collaborators} (tx : Tx) : list Order :=
  continuationOrdersFrom tx 0 (Outputs tx).

(** The table after [AddOrder] of [orders], one after the other. *)
Definition addOrders `{Collaborators} (table : OrderTable) (orders : list Order)
    : OrderTable :=
  foldl (fun table order => (AddOrder table order).1) table orders.

(** [cap] is the cap that [CalcFeeFromMatchedTx] computes for [asset] from
    an input of [txData]: [CalcMaxFeeAmount] of what the input pays for the
    receive output of its seller. *)
Definition capOf `{Collaborators} (txData : TxData) (asset : AssetID) (cap : Z) : Prop :=
  exists input contractArgs receiveOutput shouldPayAmount,
    input ∈ Inputs txData
    /\ inAssetID input = asset
    /\ DecodeP2WMCProgram (inControlProgram input) = Ok contractArgs
    /\ lastReceiveOutput (Outputs txData) (SellerProgram contractArgs) None
       = Some receiveOutput
    /\ CalcShouldPayAmount (outAmount receiveOutput) contractArgs = Ok shouldPayAmount
    /\ CalcMaxFeeAmount shouldPayAmount = Ok cap.

(** The payable fees of a list of entries of the fee map. *)
Definition payableEntries (entries : list (AssetID * feeAmount)) : list (AssetID * Z) :=
  (fun entry => (entry.1, payableFeeAmount entry.2)) <$> entries.

(** [output] pays [asset] to the seller program that the script of [input]
    names. *)
Definition refundsTo `{Collaborators} (asset : AssetID) (input : TxInput)
    (output : TxOutput) : Prop :=
  outAssetID output = asset
  /\ exists contractArgs,
      DecodeP2WMCProgram (inControlProgram input) = Ok contractArgs
      /\ outControlProgram output = SellerProgram contractArgs.

(** The shares in which a remainder is handed back to [participants]
    recipients: below one unit each, one unit to the first recipients;
    otherwise the integer average to all but the last, who takes the rest. *)
Definition refundShares (reminder : Z) (participants : nat) : list Z :=
  if reminder <? Z.of_nat participants then replicate (Z.to_nat reminder) 1
  else
    let averageAmount := reminder / Z.of_nat participants in
    replicate (participants - 1) averageAmount
      ++ [reminder - Z.of_nat (participants - 1) * averageAmount].

(** The integer ceiling of [a / b], for a positive [b]. *)
Definition ceilDiv (a b : Z) : Z := - ((- a) / b).

(** The outputs that [addMatchTxFeeOutput] appends for an entry of the fee
    map: the fee, capped, to the node, then the refunds to the sellers of
    the first [inputs] in shares. *)
Definition feeOutputsOf `{Collaborators} (e : Engine) (inputs : list TxInput)
    (entry : AssetID * feeAmount) (block : list TxOutput) : Prop :=
  let fee := Z.min (payableFeeAmount entry.2) (maxFeeAmount entry.2) in
  exists refunds,
    block = NewIntraChainOutput entry.1 fee (nodeProgram e) :: refunds
    /\ outAmount <$> refunds
       = refundShares (payableFeeAmount entry.2 - fee) (length inputs)
    /\ Forall2 (refundsTo entry.1) (take (length refunds) inputs) refunds.

(** What the rounding and sticky bits of a shifted mantissa record: the
    number [N / b] is [m * 2^k] plus a remainder [rho / b], and the bits
    compare the remainder with half a unit of [m]. *)
Definition shr_inv (N b k : Z) (mrs : shr_record) : Prop :=
  0 <= shr_m mrs
  /\ exists rho,
      N = shr_m mrs * (2 ^ k * b) + rho
      /\ 0 <= rho < 2 ^ k * b
      /\ (shr_r mrs = true <-> 2 ^ k * b <= 2 * rho)
      /\ (shr_s mrs = true <-> rho <> 0 /\ 2 * rho <> 2 ^ k * b).

(** A location describes the fraction [a / b] that follows a mantissa. *)
Definition loc_ok (l : location) (a b : Z) : Prop :=
  match l with
  | loc_Exact => a = 0
  | loc_Inexact Lt => 0 < 2 * a < b
  | loc_Inexact Eq => 2 * a = b
  | loc_Inexact Gt => b < 2 * a
  end.

(** A taker leg, at or after index [i] of the makers flags, receives
    [asset]. *)
Definition takerReceivesFrom (i : nat) (receiveAmounts : list AssetAmount)
    (isMakers : list bool) (asset : AssetID) : Prop :=
  exists (j : nat) (receiveAmount : AssetAmount),
    receiveAmounts !! j = Some receiveAmount
    /\ isMakers !! (i + j)%nat = Some false
    /\ AssetId receiveAmount = asset.

Definition takerReceives (receiveAmounts : list AssetAmount) (isMakers : list bool)
    (asset : AssetID) : Prop :=
  takerReceivesFrom 0 receiveAmounts isMakers asset.

(** What [Allocate] may do to a price differential: keep its asset, lower
    its amount, and leave it alone when [touched] does not hold of its
    asset. *)
Definition chargedTo (touched : AssetID -> Prop) (priceDiff priceDiff' : AssetAmount)
    : Prop :=
  AssetId priceDiff' = AssetId priceDiff
  /\ 0 <= Amount priceDiff' <= Amount priceDiff
  /\ (~ touched (AssetId priceDiff) -> priceDiff' = priceDiff).

(** The map of charged fees that a list of fees stands for. *)
Definition feeMapOf (fees : list AssetAmount) : gmap AssetID Z :=
  list_to_map ((fun fee => (AssetId fee, Amount fee)) <$> fees).

(** The input that [buildMatchTx] makes of [order]: it spends the output of
    the order, with the witness arguments of a leg that pays
    [shouldPayAmount] and whose receive output, of [receiveAmount], is at
    index [position]. *)
Definition legInput (order : Order) (shouldPayAmount : Z) (position : nat)
    (receiveAmount : Z) : TxInput :=
  setMatchTxArguments
    (NewSpendInput [] (SourceID (Utxo order)) (FromAssetID order) (utxoAmount (Utxo order))
       (SourcePos (Utxo order)) (utxoControlProgram (Utxo order)))
    (utxoAmount (Utxo order) >? shouldPayAmount) position receiveAmount.

(** Two orders that differ at most in their rate. *)
Definition sameButRate (order order' : Order) : Prop :=
  FromAssetID order = FromAssetID order'
  /\ ToAssetID order = ToAssetID order'
  /\ Utxo order = Utxo order'.

(** The fee outputs of [asset] in a transaction of [orders], whose seller
    programs are [sellers], when the legs leave [payableFee] of the asset:
    the fee to the node, which is the payable fee capped at
    [CalcMaxFeeAmount] of what the last leg that offers the asset pays, then
    the rest handed back to the first sellers in shares. *)
Definition feeBlockOf `{Collaborators} (e : Engine) (orders : list Order)
    (sellers : list Program) (asset : AssetID) (payableFee : Z) (block : list TxOutput)
    : Prop :=
  exists (i : nat) (order oppositeOrder : Order) (contractArgs : MagneticContractArgs)
         (shouldPayAmount : Z) (legOutputs : list TxOutput) (cap fee : Z)
         (refunds : list TxOutput),
    orders !! i = Some order
    /\ FromAssetID order = asset
    /\ (forall (j : nat) (order' : Order),
          orders !! j = Some order' -> FromAssetID order' = asset -> (j <= i)%nat)
    /\ orders !! getOppositeIndex (length orders) i = Some oppositeOrder
    /\ legOutputsOf order (utxoAmount (Utxo oppositeOrder)) contractArgs shouldPayAmount
         legOutputs
    /\ CalcMaxFeeAmount shouldPayAmount = Ok cap
    /\ fee = Z.min payableFee cap
    /\ fee <= cap
    /\ block = NewIntraChainOutput asset fee (nodeProgram e) :: refunds
    /\ Forall (fun refund => outAssetID refund = asset) refunds
    /\ outControlProgram <$> refunds = take (length refunds) sellers
    /\ outAmount <$> refunds = refundShares (payableFee - fee) (length orders)
    /\ sumZ (outAmount <$> refunds) = payableFee - fee.

(** What [NextMatchedTx] needs of the collaborators of the engine [e]: the
    order table answers a trade pair with an order of that pair and accepts
    an order whose script decodes, the serializer succeeds, and the program
    of the node is not a P2WMC script. *)
Definition cooperative `{Collaborators} (e : Engine) : Prop :=
  (forall tradePair order,
      PeekOrder (orderTable e) tradePair = Some order ->
      FromAssetID order = tpFromAssetID tradePair
      /\ ToAssetID order = tpToAssetID tradePair)
  /\ (forall table order contractArgs,
        DecodeP2WMCProgram (utxoControlProgram (Utxo order)) = Ok contractArgs ->
        (AddOrder table order).2 = None)
  /\ (forall txData, is_Ok (MarshalText txData) = true)
  /\ IsP2WMCScript (nodeProgram e) = false.

(** [order] can be settled against offers of at most [bound] units: it
    offers no more than [bound], its script decodes, its seller program is
    not a P2WMC script, and its ratio is in the range in which float64
    computes what an order pays exactly. *)
Definition settleable `{Collaborators} (bound : Z) (order : Order) : Prop :=
  0 <= utxoAmount (Utxo order) <= bound
  /\ exists contractArgs,
      DecodeP2WMCProgram (utxoControlProgram (Utxo order)) = Ok contractArgs
      /\ IsP2WMCScript (SellerProgram contractArgs) = false
      /\ 0 < RatioNumerator contractArgs < 2 ^ 53
      /\ 0 < RatioDenominator contractArgs < 2 ^ 63
      /\ bound * RatioDenominator contractArgs < 2 ^ 53.

(** Every order asks for the asset that the next order offers, the first
    order coming after the last. *)
Definition chained (orders : list Order) : Prop :=
  forall (i : nat) (order : Order),
    orders !! i = Some order ->
    exists order',
      orders !! getOppositeIndex (length orders) i = Some order'
      /\ ToAssetID order = FromAssetID order'.

(** * Properties *)

(** ** Rounding of float64 operations

    What [SpecFloat] computes on normal numbers, in integer terms. *)

Section Rounding.

Lemma digits2_pos_bounds (p : positive) :
  2 ^ (Z.pos (digits2_pos p) - 1) <= Z.pos p < 2 ^ Z.pos (digits2_pos p).
Proof.
  induction p as [p IH | p IH |]; cbn [digits2_pos].
  - rewrite Pos2Z.inj_succ, (Pos2Z.inj_xI p).
    replace (Z.succ (Z.pos (digits2_pos p)) - 1) with (Z.succ (Z.pos (digits2_pos p) - 1)) by lia.
    rewrite !Z.pow_succ_r by lia. lia.
  - rewrite Pos2Z.inj_succ, (Pos2Z.inj_xO p).
    replace (Z.succ (Z.pos (digits2_pos p)) - 1) with (Z.succ (Z.pos (digits2_pos p) - 1)) by lia.
    rewrite !Z.pow_succ_r by lia. lia.
  - cbn. lia.
Qed.

(** The number of binary digits is determined by the bounds. *)
Lemma digits2_pos_unique (p : positive) (d : Z) :
  2 ^ (d - 1) <= Z.pos p < 2 ^ d -> Z.pos (digits2_pos p) = d.
Proof.
  intros [Hlo Hhi]. pose proof (digits2_pos_bounds p) as [Hlo' Hhi'].
  assert (0 < d) as Hd.
  { destruct (Z.le_gt_cases d 0) as [Hle | Hgt]; [| done].
    assert (2 ^ d <= 2 ^ 0) by (apply Z.pow_le_mono_r; lia).
    change (2 ^ 0) with 1 in *. lia. }
  destruct (Z.lt_trichotomy (Z.pos (digits2_pos p)) d) as [Hlt | [Heq | Hgt]]; [| done |].
  - assert (2 ^ Z.pos (digits2_pos p) <= 2 ^ (d - 1)) by (apply Z.pow_le_mono_r; lia). lia.
  - assert (2 ^ d <= 2 ^ (Z.pos (digits2_pos p) - 1)) by (apply Z.pow_le_mono_r; lia). lia.
Qed.

Lemma shr_1_inv (N b k : Z) (mrs : shr_record) :
  0 <= k -> 0 < b -> shr_inv N b k mrs -> shr_inv N b (k + 1) (shr_1 mrs).
Proof.
  intros Hk Hb (Hm & rho & HN & Hrho & Hr & Hs).
  assert (0 < 2 ^ k) as Hpow by (apply Z.pow_pos_nonneg; lia).
  unfold shr_inv.
  assert (2 ^ (k + 1) * b = 2 * (2 ^ k * b)) as ->
    by (rewrite Z.pow_add_r, Z.pow_1_r by lia; ring).
  set (H := 2 ^ k * b) in *.
  assert (0 < H) as HH by (unfold H; nia).
  destruct mrs as [m r s]. cbn [shr_m shr_r shr_s] in *.
  assert (orb r s = true <-> rho <> 0) as Hors.
  { rewrite orb_true_iff. split.
    - intros [Hr' | Hs']; [apply Hr in Hr'; lia | apply Hs in Hs'; lia].
    - intros Hne. destruct (Z.le_gt_cases H (2 * rho)) as [Hle | Hgt].
      + left. by apply Hr.
      + right. apply Hs. lia. }
  destruct m as [| p | p]; [| | lia].
  - cbn [shr_1 shr_m shr_r shr_s]. split; [lia |]. exists rho.
    rewrite Hors. split_and!; try lia; try done.
  - destruct p as [p | p |]; cbn [shr_1 shr_m shr_r shr_s]; (split; [lia |]).
    + exists (H + rho). rewrite (Pos2Z.inj_xI p) in HN.
      rewrite Hors. split_and!; try lia; try done.
    + exists rho. rewrite (Pos2Z.inj_xO p) in HN.
      rewrite Hors. split_and!; try lia; try done.
    + exists (H + rho).
      rewrite Hors. split_and!; try lia; try done.
Qed.

Lemma iter_shr_1_inv (N b : Z) (p : positive) :
  0 < b ->
  forall (k : Z) (mrs : shr_record),
    0 <= k -> shr_inv N b k mrs -> shr_inv N b (k + Z.pos p) (SpecFloat.iter_pos shr_1 p mrs).
Proof.
  intros Hb. induction p as [p IH | p IH |]; intros k mrs Hk Hinv; cbn [SpecFloat.iter_pos].
  - replace (k + Z.pos p~1) with (k + 1 + Z.pos p + Z.pos p) by lia.
    apply IH; [lia |]. apply IH; [lia |]. by apply shr_1_inv.
  - replace (k + Z.pos p~0) with (k + Z.pos p + Z.pos p) by lia.
    apply IH; [lia |]. by apply IH.
  - by apply shr_1_inv.
Qed.

Lemma shr_record_of_loc_inv (m a b : Z) (l : location) :
  0 <= m -> 0 < b -> 0 <= a < b -> loc_ok l a b ->
  shr_inv (m * b + a) b 0 (shr_record_of_loc m l).
Proof.
  intros Hm Hb Ha Hl. unfold shr_inv. rewrite Z.pow_0_r, Z.mul_1_l.
  destruct l as [| []]; cbn in *; (split; [lia |]); exists a;
    split_and!; try lia; try done.
Qed.

(** Rounding to nearest even moves a shifted mantissa by at most half a
    unit, and not at all when nothing was shifted out. *)
Lemma round_nearest_even_inv (N b k : Z) (mrs : shr_record) :
  0 < 2 ^ k * b ->
  shr_inv N b k mrs ->
  let m1 := round_nearest_even (shr_m mrs) (loc_of_shr_record mrs) in
  shr_m mrs <= m1 <= shr_m mrs + 1
  /\ - (2 ^ k * b) <= 2 * (m1 * (2 ^ k * b) - N) <= 2 ^ k * b
  /\ (N = shr_m mrs * (2 ^ k * b) -> m1 = shr_m mrs).
Proof.
  intros HH (Hm & rho & HN & Hrho & Hr & Hs).
  set (H := 2 ^ k * b) in *.
  destruct mrs as [m r s]. cbn [shr_m shr_r shr_s] in *.
  destruct r, s; cbn [loc_of_shr_record round_nearest_even].
  - assert (H <= 2 * rho) by (by apply Hr).
    split_and!; lia.
  - assert (H <= 2 * rho) by (by apply Hr).
    assert (2 * rho = H).
    { destruct (Z.eq_dec (2 * rho) H) as [Heq | Hne]; [done |].
      assert (false = true) by (apply Hs; lia). done. }
    destruct (Z.even m); split_and!; lia.
  - assert (2 * rho < H).
    { destruct (Z.le_gt_cases H (2 * rho)) as [Hle | Hgt]; [| lia].
      assert (false = true) by (by apply Hr). done. }
    split_and!; try lia.
  - assert (2 * rho < H).
    { destruct (Z.le_gt_cases H (2 * rho)) as [Hle | Hgt]; [| lia].
      assert (false = true) by (by apply Hr). done. }
    assert (rho = 0).
    { destruct (Z.eq_dec rho 0) as [Heq | Hne]; [done |].
      assert (false = true) by (apply Hs; lia). done. }
    split_and!; try lia.
Qed.

Lemma fexp_normal (x : Z) :
  -1074 <= x - 53 -> fexp F64.prec F64.emax x = x - 53.
Proof. unfold fexp, emin, F64.prec, F64.emax. lia. Qed.

Lemma Zdigits2_bounds (m d : Z) :
  0 < m -> Zdigits2 m = d -> 2 ^ (d - 1) <= m < 2 ^ d.
Proof.
  intros Hm <-. destruct m as [| p | p]; [lia | | lia].
  cbn [Zdigits2]. apply digits2_pos_bounds.
Qed.

Lemma Zdigits2_unique (m d : Z) :
  2 ^ (d - 1) <= m < 2 ^ d -> 0 < m -> Zdigits2 m = d.
Proof.
  intros Hb Hm. destruct m as [| p | p]; [lia | | lia].
  cbn [Zdigits2]. by apply digits2_pos_unique.
Qed.

(** The first step of [binary_round_aux] on a mantissa of [d >= 53] digits,
    away from the subnormal range: [d - 53] digits are shifted out. *)
Lemma shr_fexp_inv (m e a b d : Z) (l : location) :
  0 < m -> Zdigits2 m = d -> 53 <= d -> -1074 <= e + d - 53 ->
  0 < b -> 0 <= a < b -> loc_ok l a b ->
  exists mrs,
    shr_fexp F64.prec F64.emax m e l = (mrs, e + (d - 53))
    /\ shr_inv (m * b + a) b (d - 53) mrs.
Proof.
  intros Hm Hd Hd53 Hnormal Hb Ha Hl.
  unfold shr_fexp. rewrite Hd, fexp_normal by lia.
  replace (d + e - 53 - e) with (d - 53) by lia.
  pose proof (shr_record_of_loc_inv m a b l ltac:(lia) Hb Ha Hl) as Hinv.
  destruct (d - 53) as [| p | p] eqn:Hshift; [| | lia].
  - eexists. split; [cbn [shr]; f_equal; lia | done].
  - eexists. split; [cbn [shr]; reflexivity |].
    apply (iter_shr_1_inv _ b p Hb 0); [lia | done].
Qed.

(** [binary_round_aux] on a mantissa [mx] of [d >= 53] digits followed by
    the fraction [a / b], away from the subnormal range and from overflow:
    the result is a normal number [m * 2^e]; in units of [2^ex] it is the
    integer [M], within half a unit of the last place of [mx + a / b], and
    equal to it when the digits shifted out are zero. *)
Lemma binary_round_aux_normal (sx : bool) (mx ex a b d : Z) (lx : location) :
  0 < mx -> Zdigits2 mx = d -> 53 <= d ->
  0 < b -> 0 <= a < b -> loc_ok lx a b ->
  -1074 <= ex + d - 53 -> ex + d - 53 + 1 <= 971 ->
  exists m e,
    binary_round_aux F64.prec F64.emax sx mx ex lx = S754_finite sx (Z.to_pos m) e
    /\ 2 ^ 52 <= m < 2 ^ 53
    /\ ex + d - 53 <= e <= ex + d - 53 + 1
    /\ - (2 ^ (d - 53) * b) <= 2 * (m * 2 ^ (e - ex) * b - (mx * b + a)) <= 2 ^ (d - 53) * b
    /\ (a = 0 -> mx mod 2 ^ (d - 53) = 0 -> m * 2 ^ (e - ex) = mx).
Proof.
  intros Hmx Hd Hd53 Hb Ha Hl Hnormal Hover.
  pose proof (Zdigits2_bounds mx d Hmx Hd) as Hmxd.
  destruct (shr_fexp_inv mx ex a b d lx Hmx Hd Hd53 Hnormal Hb Ha Hl)
    as (mrs & Hshr & Hinv).
  set (n := d - 53) in *.
  assert (0 < 2 ^ n) as Hpow by (apply Z.pow_pos_nonneg; lia).
  assert (0 < 2 ^ n * b) as HH by nia.
  pose proof (round_nearest_even_inv _ b n mrs HH Hinv) as (Hm1 & Herr & Hexact).
  set (m1 := round_nearest_even (shr_m mrs) (loc_of_shr_record mrs)) in *.
  (* the truncated mantissa has 53 digits *)
  assert (2 ^ 52 <= shr_m mrs < 2 ^ 53) as Hm'.
  { destruct Hinv as (Hm0 & rho & HN & Hrho & _).
    assert (2 ^ d = 2 ^ 53 * 2 ^ n) as Hd1.
    { rewrite <- Z.pow_add_r by lia. f_equal. lia. }
    assert (2 ^ (d - 1) = 2 ^ 52 * 2 ^ n) as Hd2.
    { rewrite <- Z.pow_add_r by lia. f_equal. lia. }
    rewrite Hd1, Hd2 in Hmxd. nia. }
  unfold binary_round_aux. rewrite Hshr. fold m1.
  destruct (Z.eq_dec m1 (2 ^ 53)) as [Hcarry | Hnocarry].
  - (* the rounding carried into a 54th digit *)
    exists (2 ^ 52), (ex + n + 1).
    rewrite Hcarry.
    assert (shr_fexp F64.prec F64.emax (2 ^ 53) (ex + n) loc_Exact
            = (Build_shr_record (2 ^ 52) false false, ex + n + 1)) as ->.
    { unfold shr_fexp. change (Zdigits2 (2 ^ 53)) with 54.
      rewrite fexp_normal by lia.
      replace (54 + (ex + n) - 53 - (ex + n)) with 1 by lia.
      reflexivity. }
    cbn [shr_m].
    assert ((ex + n + 1 <=? F64.emax - F64.prec) = true) as ->
      by (apply Z.leb_le; unfold F64.emax, F64.prec; lia).
    split; [reflexivity |]. split; [lia |]. split; [lia |].
    replace (ex + n + 1 - ex) with (n + 1) by lia.
    rewrite Z.pow_add_r, Z.pow_1_r by lia.
    replace (2 ^ 52 * (2 ^ n * 2)) with (2 ^ 53 * 2 ^ n) by (change (2 ^ 53) with (2 ^ 52 * 2); ring).
    rewrite <- Hcarry. split; [nia |].
    intros Ha0 Hmod.
    assert (mx = mx / 2 ^ n * 2 ^ n) as Hmxn.
    { rewrite (Z.div_mod mx (2 ^ n)) at 1 by lia. rewrite Hmod. ring. }
    destruct Hinv as (Hm0 & rho & HN & Hrho & _).
    assert (shr_m mrs = mx / 2 ^ n) by nia.
    assert (m1 = shr_m mrs) by (apply Hexact; nia).
    lia.
  - exists m1, (ex + n).
    assert (shr_fexp F64.prec F64.emax m1 (ex + n) loc_Exact
            = (Build_shr_record m1 false false, ex + n)) as ->.
    { unfold shr_fexp.
      rewrite (Zdigits2_unique m1 53) by lia.
      rewrite fexp_normal by lia.
      replace (53 + (ex + n) - 53 - (ex + n)) with 0 by lia.
      reflexivity. }
    cbn [shr_m].
    destruct m1 as [| p | p] eqn:Hp; [lia | | lia].
    assert ((ex + n <=? F64.emax - F64.prec) = true) as ->
      by (apply Z.leb_le; unfold F64.emax, F64.prec; lia).
    split; [reflexivity |]. split; [lia |]. split; [lia |].
    replace (ex + n - ex) with n by lia.
    split; [nia |].
    intros Ha0 Hmod.
    assert (mx = mx / 2 ^ n * 2 ^ n) as Hmxn.
    { rewrite (Z.div_mod mx (2 ^ n)) at 1 by lia. rewrite Hmod. ring. }
    destruct Hinv as (Hm0 & rho & HN & Hrho & _).
    assert (shr_m mrs = mx / 2 ^ n) by nia.
    assert (Z.pos p = shr_m mrs) by (apply Hexact; nia).
    lia.
Qed.

(** When the digits shifted out are zero the result is the mantissa
    itself, on 53 digits. *)
Lemma binary_round_aux_exact (sx : bool) (mx ex d : Z) :
  0 < mx -> Zdigits2 mx = d -> 53 <= d ->
  mx mod 2 ^ (d - 53) = 0 ->
  -1074 <= ex + d - 53 -> ex + d - 53 + 1 <= 971 ->
  binary_round_aux F64.prec F64.emax sx mx ex loc_Exact
  = S754_finite sx (Z.to_pos (mx / 2 ^ (d - 53))) (ex + d - 53).
Proof.
  intros Hmx Hd Hd53 Hmod Hnormal Hover.
  destruct (binary_round_aux_normal sx mx ex 0 1 d loc_Exact)
    as (m & e & Hres & Hm & He & _ & Hexact); try done; try lia.
  specialize (Hexact eq_refl Hmod).
  pose proof (Zdigits2_bounds mx d Hmx Hd) as Hmxd.
  set (n := d - 53) in *.
  assert (0 < 2 ^ n) as Hpow by (apply Z.pow_pos_nonneg; lia).
  assert (2 ^ d = 2 ^ 53 * 2 ^ n) as Hd1.
  { rewrite <- Z.pow_add_r by lia. f_equal. lia. }
  assert (e - ex = n) as Hen.
  { destruct (Z.eq_dec (e - ex) n) as [Heq | Hne]; [done |].
    assert (e - ex = n + 1) as Heq by lia.
    rewrite Heq, Z.pow_add_r, Z.pow_1_r in Hexact by lia. nia. }
  rewrite Hres. rewrite Hen in Hexact. rewrite <- Hexact.
  rewrite Z.div_mul by lia. f_equal. lia.
Qed.

Lemma Pos_iter_xO (p k : positive) :
  Z.pos (Pos.iter xO p k) = Z.pos p * 2 ^ Z.pos k.
Proof.
  rewrite <- Z.shiftl_mul_pow2 by lia. cbn [Z.shiftl].
  apply (Pos.iter_swap_gen _ _ Z.pos xO (Z.mul 2)). intros q. reflexivity.
Qed.

(** [float64(n)] is exact for a positive integer of at most 53 digits. *)
Lemma of_Z_exact (n d : Z) :
  0 < n -> Zdigits2 n = d -> d <= 53 ->
  F64.of_Z n = S754_finite false (Z.to_pos (n * 2 ^ (53 - d))) (d - 53).
Proof.
  intros Hn Hd Hd53.
  pose proof (Zdigits2_bounds n d Hn Hd) as Hnd.
  assert (0 < d) as Hdpos.
  { destruct n as [| p | p]; [lia | | lia]. cbn in Hd. lia. }
  destruct n as [| p | p]; [lia | | lia].
  unfold F64.of_Z, binary_normalize, binary_round.
  cbn [Zdigits2] in Hd. rewrite Hd, Z.add_0_r, fexp_normal by lia.
  assert (0 < 2 ^ (53 - d)) as Hpow by (apply Z.pow_pos_nonneg; lia).
  assert (2 ^ 53 = 2 ^ d * 2 ^ (53 - d)) as H53.
  { rewrite <- Z.pow_add_r by lia. f_equal. lia. }
  assert (2 ^ 52 = 2 ^ (d - 1) * 2 ^ (53 - d)) as H52.
  { rewrite <- Z.pow_add_r by lia. f_equal. lia. }
  unfold shl_align. rewrite Z.sub_0_r.
  destruct (d - 53) as [| k | k] eqn:Hk.
  - assert (d = 53) as -> by lia. change (2 ^ (53 - 53)) with 1 in *.
    rewrite (binary_round_aux_exact false (Z.pos p) 0 53); try done; try lia.
    + change (2 ^ (53 - 53)) with 1. rewrite Z.div_1_r, Z.mul_1_r. reflexivity.
    + change (2 ^ (53 - 53)) with 1. apply Z.mod_1_r.
  - lia.
  - assert (53 - d = Z.pos k) as Hk' by lia.
    rewrite (binary_round_aux_exact false _ (Z.neg k) 53); try lia.
    + change (2 ^ (53 - 53)) with 1. rewrite Z.div_1_r.
      rewrite Pos_iter_xO, Hk'. f_equal. lia.
    + apply Zdigits2_unique; [| lia]. rewrite Pos_iter_xO, <- Hk'. nia.
    + change (2 ^ (53 - 53)) with 1. apply Z.mod_1_r.
Qed.

Lemma Zdigits2_pos (n : Z) : 0 < n -> 0 < Zdigits2 n.
Proof. destruct n as [| p | p]; [lia | | lia]. intros _. cbn. lia. Qed.

Lemma Zdigits2_le_53 (n : Z) : 0 < n < 2 ^ 53 -> Zdigits2 n <= 53.
Proof.
  intros [Hn Hlt]. pose proof (Zdigits2_bounds n _ Hn eq_refl) as [Hlo _].
  destruct (Z.le_gt_cases (Zdigits2 n) 53) as [Hle | Hgt]; [done |].
  assert (2 ^ 53 <= 2 ^ (Zdigits2 n - 1)) by (apply Z.pow_le_mono_r; lia). lia.
Qed.

(** The 53-digit mantissa of a positive integer below [2^53]. *)
Lemma mantissa_bounds (n : Z) :
  0 < n < 2 ^ 53 ->
  2 ^ 52 <= n * 2 ^ (53 - Zdigits2 n) < 2 ^ 53.
Proof.
  intros Hn. pose proof (Zdigits2_le_53 n Hn) as Hd.
  pose proof (Zdigits2_pos n ltac:(lia)) as Hd0.
  pose proof (Zdigits2_bounds n _ ltac:(lia) eq_refl) as Hnd.
  set (d := Zdigits2 n) in *.
  assert (0 < 2 ^ (53 - d)) as Hpow by (apply Z.pow_pos_nonneg; lia).
  assert (2 ^ 53 = 2 ^ d * 2 ^ (53 - d)) as ->.
  { rewrite <- Z.pow_add_r by lia. f_equal. lia. }
  assert (2 ^ 52 = 2 ^ (d - 1) * 2 ^ (53 - d)) as ->.
  { rewrite <- Z.pow_add_r by lia. f_equal. lia. }
  nia.
Qed.

(** The product of two integers is computed exactly when it has at most 53
    digits. *)
Lemma mul_of_Z_exact (a b : Z) :
  0 < a -> 0 < b -> a * b < 2 ^ 53 ->
  F64.mul (F64.of_Z a) (F64.of_Z b) = F64.of_Z (a * b).
Proof.
  intros Ha Hb Hab.
  assert (0 < a * b) as Hab0 by nia.
  assert (a < 2 ^ 53) as Ha53 by nia.
  assert (b < 2 ^ 53) as Hb53 by nia.
  pose proof (mantissa_bounds a ltac:(lia)) as Hma.
  pose proof (mantissa_bounds b ltac:(lia)) as Hmb.
  pose proof (mantissa_bounds (a * b) ltac:(lia)) as Hmab.
  pose proof (Zdigits2_le_53 a ltac:(lia)) as Hda.
  pose proof (Zdigits2_le_53 b ltac:(lia)) as Hdb.
  pose proof (Zdigits2_le_53 (a * b) ltac:(lia)) as Hdab.
  rewrite (of_Z_exact a _ Ha eq_refl Hda), (of_Z_exact b _ Hb eq_refl Hdb),
    (of_Z_exact (a * b) _ Hab0 eq_refl Hdab).
  set (x := 53 - Zdigits2 a) in *. set (y := 53 - Zdigits2 b) in *.
  set (z := 53 - Zdigits2 (a * b)) in *.
  set (ma := a * 2 ^ x) in *. set (mb := b * 2 ^ y) in *. set (mab := a * b * 2 ^ z) in *.
  unfold F64.mul, SFmul. cbn [xorb].
  rewrite Pos2Z.inj_mul, !Z2Pos.id by lia.
  (* the product of the mantissas is [mab] followed by [n] zeros *)
  assert (0 <= x + y - z) as Hn.
  { destruct (Z.le_gt_cases 0 (x + y - z)) as [Hle | Hgt]; [done |].
    assert (2 ^ (x + y + 1) <= 2 ^ z) as Hpow by (apply Z.pow_le_mono_r; lia).
    rewrite !Z.pow_add_r, Z.pow_1_r in Hpow by lia.
    assert (0 < 2 ^ x) by (apply Z.pow_pos_nonneg; lia).
    assert (0 < 2 ^ y) by (apply Z.pow_pos_nonneg; lia).
    assert (ma * mb = a * b * (2 ^ x * 2 ^ y)) as Hprod by (unfold ma, mb; ring).
    assert (2 ^ 52 * 2 ^ 52 <= ma * mb) by nia.
    assert (mab * 2 >= a * b * (2 ^ x * 2 ^ y * 2)) by (unfold mab; nia).
    lia. }
  set (n := x + y - z) in *.
  assert (0 < 2 ^ n) as Hpown by (apply Z.pow_pos_nonneg; lia).
  assert (ma * mb = mab * 2 ^ n) as Hprod.
  { unfold ma, mb, mab.
    replace (a * 2 ^ x * (b * 2 ^ y)) with (a * b * (2 ^ x * 2 ^ y)) by ring.
    rewrite <- Z.pow_add_r by lia.
    replace (x + y) with (z + n) by (unfold n; lia).
    rewrite Z.pow_add_r by lia. ring. }
  assert (Zdigits2 (ma * mb) = 53 + n) as Hdig.
  { apply Zdigits2_unique; [| nia]. rewrite Hprod.
    replace (53 + n - 1) with (52 + n) by lia.
    rewrite !Z.pow_add_r by lia. nia. }
  rewrite (binary_round_aux_exact false (ma * mb) _ (53 + n)); try done; try lia.
  - replace (53 + n - 53) with n by lia.
    rewrite Hprod, Z.div_mul by lia. f_equal. unfold n, x, y, z. lia.
  - replace (53 + n - 53) with n by lia. rewrite Hprod. apply Z.mod_mul. lia.
  - pose proof (Zdigits2_pos a Ha). pose proof (Zdigits2_pos b Hb). lia.
Qed.

Lemma ceilDiv_bounds (P n : Z) :
  0 < n -> (ceilDiv P n - 1) * n < P <= ceilDiv P n * n.
Proof.
  intros Hn. unfold ceilDiv.
  pose proof (Z.div_mod (- P) n ltac:(lia)) as Hdm.
  pose proof (Z.mod_pos_bound (- P) n ltac:(lia)) as Hmb.
  generalize dependent (- P / n). generalize dependent (- P mod n).
  intros r Hr d Hd. nia.
Qed.

Lemma ceilDiv_unique (P n k : Z) :
  0 < n -> (k - 1) * n < P <= k * n -> ceilDiv P n = k.
Proof.
  intros Hn Hk. pose proof (ceilDiv_bounds P n Hn) as Hc.
  generalize dependent (ceilDiv P n). intros c Hc. nia.
Qed.

(** A number [M / T] within [u / (2 T)] of [P / n], both [M] and [T]
    multiples of [u], lies in the same unit interval as [P / n] when [u]
    is small enough. *)
Lemma quotient_sandwich (M T P n k u c c' : Z) :
  0 < n -> 0 < u -> 0 < T ->
  (k - 1) * n < P <= k * n ->
  - (u * n) <= 2 * (M * n - P * T) <= u * n ->
  n * u < 2 * T ->
  M = c * u -> T = c' * u ->
  (k - 1) * T < M <= k * T.
Proof.
  intros Hn Hu HT [Hlo Hhi] [Herr1 Herr2] Hsmall HM HTc.
  assert (((k - 1) * n + 1) * T <= P * T) as HloT by (apply Z.mul_le_mono_nonneg_r; lia).
  assert (P * T <= k * n * T) as HhiT by (apply Z.mul_le_mono_nonneg_r; lia).
  split.
  - assert (0 < (M - (k - 1) * T) * n) as Hpos by lia.
    destruct (Z.lt_ge_cases ((k - 1) * T) M) as [Hlt | Hge]; [done |].
    assert ((M - (k - 1) * T) * n <= 0 * n) by (apply Z.mul_le_mono_nonneg_r; lia).
    lia.
  - assert (2 * (M - k * T) * n <= u * n) as Hup by lia.
    assert (2 * (M - k * T) <= u) as Hup'.
    { destruct (Z.le_gt_cases (2 * (M - k * T)) u) as [Hle | Hgt]; [done |].
      assert ((u + 1) * n <= 2 * (M - k * T) * n) by (apply Z.mul_le_mono_nonneg_r; lia).
      lia. }
    subst M T.
    assert (2 * (c - k * c') * u <= 1 * u) as Hcu by lia.
    destruct (Z.le_gt_cases (c - k * c') 0) as [Hle | Hgt].
    + assert ((c - k * c') * u <= 0 * u) by (apply Z.mul_le_mono_nonneg_r; lia). lia.
    + assert (2 * 1 * u <= 2 * (c - k * c') * u) by (apply Z.mul_le_mono_nonneg_r; lia).
      lia.
Qed.

Lemma new_location_ok (a b : Z) :
  0 < b -> 0 <= a < b -> loc_ok (new_location b a) a b.
Proof.
  intros Hb Ha. unfold new_location.
  destruct (Z.even b) eqn:Heven.
  - unfold new_location_even. destruct (Z.eqb_spec a 0) as [-> | Hne]; [done |].
    cbn. destruct (Z.compare_spec (2 * a) b); cbn; lia.
  - unfold new_location_odd. destruct (Z.eqb_spec a 0) as [-> | Hne]; [done |].
    assert (Z.odd b = true) as Hodd by (by rewrite <- Z.negb_even, Heven).
    apply Z.odd_spec in Hodd as [c Hc].
    cbn. destruct (Z.compare_spec (2 * a + 1) b); cbn; lia.
Qed.

(** The quotient that [SFdiv] rounds, for two 53-digit mantissas. *)
Lemma SFdiv_core_binary_normal (m1 e1 m2 e2 : Z) :
  2 ^ 52 <= m1 < 2 ^ 53 -> 2 ^ 52 <= m2 < 2 ^ 53 -> -1074 <= e1 - e2 - 53 ->
  SFdiv_core_binary F64.prec F64.emax m1 e1 m2 e2
  = (m1 * 2 ^ 53 / m2, e1 - e2 - 53, new_location m2 (m1 * 2 ^ 53 mod m2)).
Proof.
  intros Hm1 Hm2 Hnormal. unfold SFdiv_core_binary.
  rewrite (Zdigits2_unique m1 53), (Zdigits2_unique m2 53) by lia.
  rewrite fexp_normal by lia.
  replace (Z.min (53 + e1 - (53 + e2) - 53) (e1 - e2)) with (e1 - e2 - 53) by lia.
  replace (e1 - e2 - (e1 - e2 - 53)) with 53 by lia.
  rewrite Z.shiftl_mul_pow2 by lia.
  unfold Z.div, Z.modulo. destruct (Z.div_eucl (m1 * 2 ^ 53) m2). reflexivity.
Qed.

(** The ceiling of the float64 quotient of two positive integers below
    [2^53] is the ceiling of their quotient. *)
Lemma div_of_Z_ceil (P n : Z) :
  0 < P < 2 ^ 53 -> 0 < n < 2 ^ 53 ->
  F64.ceil (F64.div (F64.of_Z P) (F64.of_Z n)) = Some (ceilDiv P n).
Proof.
  intros HP Hn.
  pose proof (mantissa_bounds P HP) as HmP.
  pose proof (mantissa_bounds n Hn) as Hmn.
  pose proof (Zdigits2_le_53 P HP) as HdP.
  pose proof (Zdigits2_le_53 n Hn) as Hdn.
  pose proof (Zdigits2_pos P ltac:(lia)) as HdP0.
  pose proof (Zdigits2_pos n ltac:(lia)) as Hdn0.
  pose proof (Zdigits2_bounds n _ ltac:(lia) eq_refl) as Hnd.
  rewrite (of_Z_exact P _ ltac:(lia) eq_refl HdP), (of_Z_exact n _ ltac:(lia) eq_refl Hdn).
  set (x := 53 - Zdigits2 P) in *. set (y := 53 - Zdigits2 n) in *.
  replace (Zdigits2 P - 53) with (- x) by (unfold x; lia).
  replace (Zdigits2 n - 53) with (- y) by (unfold y; lia).
  replace (Zdigits2 n) with (53 - y) in Hnd by (unfold y; lia).
  assert (0 <= x <= 52) as Hx by (unfold x; lia).
  assert (0 <= y <= 52) as Hy by (unfold y; lia).
  clearbody x y. clear HdP HdP0 Hdn Hdn0.
  set (mP := P * 2 ^ x) in *. set (mn := n * 2 ^ y) in *.
  unfold F64.div, SFdiv. cbn [xorb].
  rewrite !Z2Pos.id by lia.
  rewrite SFdiv_core_binary_normal by lia.
  set (q := mP * 2 ^ 53 / mn). set (r := mP * 2 ^ 53 mod mn).
  assert (mP * 2 ^ 53 = mn * q + r) as Hqr by (apply Z.div_mod; lia).
  assert (0 <= r < mn) as Hr by (apply Z.mod_pos_bound; lia).
  assert (2 ^ 52 <= q < 2 ^ 54) as Hq.
  { change (2 ^ 54) with (2 ^ 53 * 2). change (2 ^ 53) with (2 ^ 52 * 2) in *. nia. }
  set (E := 53 + x - y).
  assert (1 <= E) as HE by (unfold E; lia).
  set (ex := - x - - y - 53).
  assert (ex = - E) as Hex by (unfold ex, E; lia).
  assert (exists s, (s = 0 \/ s = 1) /\ Zdigits2 q = 53 + s) as (s & Hs & Hdq).
  { destruct (Z.lt_ge_cases q (2 ^ 53)) as [Hlt | Hge].
    - exists 0. split; [by left |]. apply Zdigits2_unique; lia.
    - exists 1. split; [by right |]. apply Zdigits2_unique; lia. }
  destruct (binary_round_aux_normal false q ex r mn (53 + s) (new_location mn r))
    as (m & e & Hres & Hm & He & Herr & _); try lia.
  { apply new_location_ok; lia. }
  rewrite Hres. cbn [F64.ceil]. rewrite Z2Pos.id by lia.
  replace (53 + s - 53) with s in * by lia.
  set (M := m * 2 ^ (e - ex)) in *.
  (* the quotient, in units of [2 ^ ex] *)
  assert (0 < 2 ^ y) as Hpowy by (apply Z.pow_pos_nonneg; lia).
  assert (0 < 2 ^ E) as HpowE by (apply Z.pow_pos_nonneg; lia).
  assert (mP * 2 ^ 53 = P * 2 ^ E * 2 ^ y) as HPE.
  { unfold mP. rewrite <- !Z.mul_assoc, <- !Z.pow_add_r by lia.
    f_equal. f_equal. unfold E. lia. }
  assert (2 ^ s = 1 + s) as Hpows by (destruct Hs as [-> | ->]; reflexivity).
  rewrite Hpows in Herr.
  assert (- ((1 + s) * n) <= 2 * (M * n - P * 2 ^ E) <= (1 + s) * n) as Herr'.
  { replace (q * mn + r) with (P * 2 ^ E * 2 ^ y) in Herr by lia.
    unfold mn in Herr. destruct Herr as [Herr1 Herr2]. split.
    - apply (Z.mul_le_mono_pos_r _ _ (2 ^ y)); [lia |]. lia.
    - apply (Z.mul_le_mono_pos_r _ _ (2 ^ y)); [lia |]. lia. }
  set (k := ceilDiv P n).
  assert ((k - 1) * n < P <= k * n) as Hk by (apply ceilDiv_bounds; lia).
  (* [M] is a multiple of [2 ^ s], and so is [2 ^ E] *)
  assert (M = m * 2 ^ (e - ex - s) * (1 + s)) as Hc.
  { unfold M. replace (e - ex) with (e - ex - s + s) at 1 by lia.
    rewrite Z.pow_add_r, Hpows by lia. ring. }
  assert (2 ^ E = 2 ^ (E - s) * (1 + s)) as Hc'.
  { replace E with (E - s + s) at 1 by lia.
    rewrite Z.pow_add_r, Hpows by lia. ring. }
  assert (n * (1 + s) < 2 * 2 ^ E) as Hsmall.
  { assert (2 ^ (53 - y) * (1 + s) <= 2 * 2 ^ E) as Hle.
    { rewrite <- Hpows, <- Z.pow_add_r, <- (Z.pow_succ_r 2 E) by lia.
      apply Z.pow_le_mono_r; unfold E; lia. }
    assert (n * (1 + s) < 2 ^ (53 - y) * (1 + s)) by (apply Z.mul_lt_mono_pos_r; lia).
    lia. }
  assert ((k - 1) * 2 ^ E < M <= k * 2 ^ E) as HM.
  { apply (quotient_sandwich M (2 ^ E) P n k (1 + s)
             (m * 2 ^ (e - ex - s)) (2 ^ (E - s))); try done; lia. }
  clear Herr Herr' Hc Hc' Hsmall HPE Hqr Hres.
  f_equal. fold k.
  destruct (Z.leb_spec 0 e) as [He0 | He0].
  - assert (M = m * 2 ^ e * 2 ^ E) as HMe.
    { unfold M. rewrite <- Z.mul_assoc, <- Z.pow_add_r by lia. do 2 f_equal. lia. }
    rewrite HMe in HM. destruct HM as [HM1 HM2].
    apply Z.mul_lt_mono_pos_r in HM1; [| lia].
    apply Z.mul_le_mono_pos_r in HM2; [| lia]. lia.
  - assert (0 < 2 ^ (- e)) as Hpowe by (apply Z.pow_pos_nonneg; lia).
    assert (2 ^ E = 2 ^ (e - ex) * 2 ^ (- e)) as HEe.
    { rewrite <- Z.pow_add_r by lia. f_equal. lia. }
    assert (0 < 2 ^ (e - ex)) as Hpowd by (apply Z.pow_pos_nonneg; lia).
    assert ((k - 1) * 2 ^ (- e) < m <= k * 2 ^ (- e)) as Hmk.
    { unfold M in HM. rewrite HEe in HM. destruct HM as [HM1 HM2]. split.
      - apply (Z.mul_lt_mono_pos_r (2 ^ (e - ex))); [lia |]. lia.
      - apply (Z.mul_le_mono_pos_r _ _ (2 ^ (e - ex))); [lia |]. lia. }
    assert (- m / 2 ^ (- e) = - k) as Hdiv; [| lia].
    symmetry. apply (Z.div_unique_pos _ _ _ (k * 2 ^ (- e) - m)); lia.
Qed.

(** [float64(n)] is a normal number for every positive integer that does
    not overflow. *)
Lemma of_Z_normal (n d : Z) :
  0 < n -> Zdigits2 n = d -> d <= 1023 ->
  exists m e,
    F64.of_Z n = S754_finite false (Z.to_pos m) e
    /\ 2 ^ 52 <= m < 2 ^ 53
    /\ d - 53 <= e <= d - 52.
Proof.
  intros Hn Hd Hd1023.
  destruct (Z.le_gt_cases d 53) as [Hle | Hgt].
  - exists (n * 2 ^ (53 - d)), (d - 53).
    split; [by apply of_Z_exact |]. split; [| lia].
    rewrite <- Hd. apply mantissa_bounds.
    pose proof (Zdigits2_bounds n d Hn Hd) as [_ Hlt].
    assert (2 ^ d <= 2 ^ 53) by (apply Z.pow_le_mono_r; lia). lia.
  - destruct n as [| p | p]; [lia | | lia].
    unfold F64.of_Z, binary_normalize, binary_round.
    cbn [Zdigits2] in Hd. rewrite Hd, Z.add_0_r, fexp_normal by lia.
    unfold shl_align. rewrite Z.sub_0_r.
    destruct (d - 53) as [| k | k] eqn:Hk; [lia | | lia].
    destruct (binary_round_aux_normal false (Z.pos p) 0 0 1 d loc_Exact)
      as (m & e & Hres & Hm & He & _); try done; try lia.
    exists m, e. split; [done |]. split; [done | lia].
Qed.

Lemma mul_normal (m1 e1 m2 e2 : Z) :
  2 ^ 52 <= m1 < 2 ^ 53 -> 2 ^ 52 <= m2 < 2 ^ 53 ->
  -1074 <= e1 + e2 + 52 -> e1 + e2 + 54 <= 971 ->
  exists m e,
    F64.mul (S754_finite false (Z.to_pos m1) e1) (S754_finite false (Z.to_pos m2) e2)
    = S754_finite false (Z.to_pos m) e
    /\ 2 ^ 52 <= m < 2 ^ 53
    /\ e1 + e2 + 52 <= e <= e1 + e2 + 54.
Proof.
  intros Hm1 Hm2 Hnormal Hover.
  unfold F64.mul, SFmul. cbn [xorb].
  rewrite Pos2Z.inj_mul, !Z2Pos.id by lia.
  assert (2 ^ 104 <= m1 * m2 < 2 ^ 106) as Hprod.
  { change (2 ^ 104) with (2 ^ 52 * 2 ^ 52). change (2 ^ 106) with (2 ^ 53 * 2 ^ 53). nia. }
  assert (exists d, (d = 105 \/ d = 106) /\ Zdigits2 (m1 * m2) = d) as (d & Hd & Hdig).
  { destruct (Z.lt_ge_cases (m1 * m2) (2 ^ 105)) as [Hlt | Hge].
    - exists 105. split; [by left |]. apply Zdigits2_unique; lia.
    - exists 106. split; [by right |]. apply Zdigits2_unique; lia. }
  destruct (binary_round_aux_normal false (m1 * m2) (e1 + e2) 0 1 d loc_Exact)
    as (m & e & Hres & Hm & He & _); try done; try lia.
  exists m, e. split; [done |]. split; [done | lia].
Qed.

Lemma div_normal (m1 e1 m2 e2 : Z) :
  2 ^ 52 <= m1 < 2 ^ 53 -> 2 ^ 52 <= m2 < 2 ^ 53 ->
  -1074 <= e1 - e2 - 53 -> e1 - e2 - 51 <= 971 ->
  exists m e,
    F64.div (S754_finite false (Z.to_pos m1) e1) (S754_finite false (Z.to_pos m2) e2)
    = S754_finite false (Z.to_pos m) e
    /\ 2 ^ 52 <= m < 2 ^ 53
    /\ e1 - e2 - 53 <= e <= e1 - e2 - 51.
Proof.
  intros Hm1 Hm2 Hnormal Hover.
  unfold F64.div, SFdiv. cbn [xorb].
  rewrite !Z2Pos.id by lia.
  rewrite SFdiv_core_binary_normal by lia.
  set (q := m1 * 2 ^ 53 / m2). set (r := m1 * 2 ^ 53 mod m2).
  assert (m1 * 2 ^ 53 = m2 * q + r) as Hqr by (apply Z.div_mod; lia).
  assert (0 <= r < m2) as Hr by (apply Z.mod_pos_bound; lia).
  assert (2 ^ 52 <= q < 2 ^ 54) as Hq.
  { change (2 ^ 54) with (2 ^ 53 * 2). change (2 ^ 53) with (2 ^ 52 * 2) in *. nia. }
  assert (exists d, (d = 53 \/ d = 54) /\ Zdigits2 q = d) as (d & Hd & Hdig).
  { destruct (Z.lt_ge_cases q (2 ^ 53)) as [Hlt | Hge].
    - exists 53. split; [by left |]. apply Zdigits2_unique; lia.
    - exists 54. split; [by right |]. apply Zdigits2_unique; lia. }
  destruct (binary_round_aux_normal false q (e1 - e2 - 53) r m2 d (new_location m2 r))
    as (m & e & Hres & Hm & He & _); try lia.
  { apply new_location_ok; lia. }
  exists m, e. split; [done |]. split; [done | lia].
Qed.

(** The ceiling of a positive normal number is bounded by the power of two
    above it. *)
Lemma ceil_normal (m e : Z) :
  2 ^ 52 <= m < 2 ^ 53 ->
  exists z,
    F64.ceil (S754_finite false (Z.to_pos m) e) = Some z
    /\ 0 < z
    /\ (0 <= 53 + e -> z <= 2 ^ (53 + e))
    /\ (53 + e <= 0 -> z = 1).
Proof.
  intros Hm. cbn [F64.ceil]. rewrite Z2Pos.id by lia.
  destruct (Z.leb_spec 0 e) as [He | He].
  - assert (0 < 2 ^ e) by (apply Z.pow_pos_nonneg; lia).
    exists (m * 2 ^ e). split; [done |]. split; [nia |]. split; [| lia].
    intros _. rewrite Z.pow_add_r by lia. nia.
  - set (t := - e). assert (0 < t) as Ht by (unfold t; lia).
    assert (0 < 2 ^ t) as Hpow by (apply Z.pow_pos_nonneg; lia).
    exists (- (- m / 2 ^ t)). split; [done |].
    pose proof (ceilDiv_bounds m (2 ^ t) Hpow) as Hc. unfold ceilDiv in Hc.
    set (z := - (- m / 2 ^ t)) in *.
    split; [nia |]. split.
    + intros Hpos. replace (53 + e) with (53 - t) by (unfold t; lia).
      assert (2 ^ 53 = 2 ^ (53 - t) * 2 ^ t) as H53.
      { rewrite <- Z.pow_add_r by lia. f_equal. lia. }
      destruct (Z.le_gt_cases z (2 ^ (53 - t))) as [Hle | Hgt]; [done |].
      assert ((2 ^ (53 - t) + 1 - 1) * 2 ^ t <= (z - 1) * 2 ^ t)
        by (apply Z.mul_le_mono_nonneg_r; lia).
      lia.
    + intros Hneg. assert (2 ^ 53 <= 2 ^ t) by (apply Z.pow_le_mono_r; unfold t; lia).
      destruct (Z.le_gt_cases z 1) as [Hle | Hgt]; [nia |].
      assert ((2 - 1) * 2 ^ t <= (z - 1) * 2 ^ t) by (apply Z.mul_le_mono_nonneg_r; lia).
      lia.
Qed.

End Rounding.


(** ** The float64 computations of the sources *)

Section FloatComputations.

Lemma ceilDiv_nonneg (P n : Z) : 0 <= P -> 0 < n -> 0 <= ceilDiv P n.
Proof.
  intros HP Hn. pose proof (ceilDiv_bounds P n Hn) as Hc.
  generalize dependent (ceilDiv P n). intros c Hc. nia.
Qed.

Lemma ceilDiv_le (P n a : Z) : 0 < n -> P <= a * n -> ceilDiv P n <= a.
Proof.
  intros Hn HP. pose proof (ceilDiv_bounds P n Hn) as Hc.
  generalize dependent (ceilDiv P n). intros c Hc. nia.
Qed.

Lemma of_Z_3 : F64.of_Z 3 = S754_finite false (Z.to_pos (3 * 2 ^ 51)) (-51).
Proof. reflexivity. Qed.

Lemma c1E4_eq : F64.c1E4 = S754_finite false (Z.to_pos (10000 * 2 ^ 39)) (-39).
Proof. reflexivity. Qed.

Lemma c0_05_eq : F64.c0_05 = S754_finite false (Z.to_pos 7205759403792794) (-57).
Proof. reflexivity. Qed.

Lemma ceil_uint64_Some (x : F64.float64) (z : Z) :
  F64.ceil x = Some z -> 0 <= z < 2 ^ 64 -> F64.ceil_uint64 x = Ok z.
Proof.
  intros Hx Hz. unfold F64.ceil_uint64. rewrite Hx.
  destruct (Z.leb_spec 0 z); [| lia]. destruct (Z.ltb_spec z (2 ^ 64)); [done | lia].
Qed.

Lemma ceil_uint64_range (x : F64.float64) (z : Z) :
  F64.ceil_uint64 x = Ok z -> 0 <= z < 2 ^ 64.
Proof.
  unfold F64.ceil_uint64. destruct (F64.ceil x) as [c |]; [| done].
  destruct (Z.leb_spec 0 c); [| done]. destruct (Z.ltb_spec c (2 ^ 64)); [| done].
  cbn. intros [= <-]. lia.
Qed.

(** The taker fee is the exact ceiling of three ten-thousandths of the
    amount as long as three times the amount has at most 53 digits. *)
Lemma calcFeeAmount_exact (amount : Z) :
  0 <= amount -> 3 * amount < 2 ^ 53 ->
  calcFeeAmount amount false = Ok (ceilDiv (3 * amount) 10000).
Proof.
  intros Ha H53. unfold calcFeeAmount, takerFeeRate.
  destruct (Z.eq_dec amount 0) as [-> | Hne]; [reflexivity |].
  rewrite mul_of_Z_exact by lia.
  apply ceil_uint64_Some.
  - rewrite (Z.mul_comm amount 3). apply div_of_Z_ceil; lia.
  - split; [apply ceilDiv_nonneg; lia |].
    assert (ceilDiv (3 * amount) 10000 <= amount) by (apply ceilDiv_le; lia). lia.
Qed.

(** Whatever the amount, the fee is defined and does not exceed it; the
    maker fee is zero. *)
Lemma calcFeeAmount_le (amount : Z) (isMaker : bool) :
  0 <= amount < 2 ^ 64 ->
  exists fee,
    calcFeeAmount amount isMaker = Ok fee
    /\ 0 <= fee <= amount
    /\ (isMaker = true -> fee = 0).
Proof.
  intros Ha.
  destruct (Z.eq_dec amount 0) as [-> | Hne].
  { exists 0. destruct isMaker; (split; [reflexivity | split; [lia | done]]). }
  assert (0 < amount) as Hpos by lia.
  pose proof (Zdigits2_bounds amount _ Hpos eq_refl) as Hd.
  set (d := Zdigits2 amount) in *.
  assert (d <= 64) as Hd64.
  { destruct (Z.le_gt_cases d 64) as [Hle | Hgt]; [done |].
    assert (2 ^ 64 <= 2 ^ (d - 1)) by (apply Z.pow_le_mono_r; lia). lia. }
  destruct (of_Z_normal amount d Hpos eq_refl ltac:(lia)) as (m & e & Hof & Hm & He).
  destruct isMaker.
  - exists 0. split; [| split; [lia | done]].
    unfold calcFeeAmount, makerFeeRate. rewrite Hof. reflexivity.
  - destruct (Z.lt_ge_cases (3 * amount) (2 ^ 53)) as [Hsmall | Hbig].
    + exists (ceilDiv (3 * amount) 10000).
      split; [apply calcFeeAmount_exact; lia |].
      split; [| done]. split; [apply ceilDiv_nonneg; lia | apply ceilDiv_le; lia].
    + assert (52 <= d) as Hd52.
      { destruct (Z.le_gt_cases 52 d) as [Hle | Hgt]; [done |].
        assert (2 ^ d <= 2 ^ 51) by (apply Z.pow_le_mono_r; lia).
        change (2 ^ 53) with (4 * 2 ^ 51) in Hbig. lia. }
      unfold calcFeeAmount, takerFeeRate. rewrite Hof, of_Z_3, c1E4_eq.
      destruct (mul_normal m e (3 * 2 ^ 51) (-51)) as (m1 & e1 & -> & Hm1 & He1);
        [done | lia | lia | lia |].
      destruct (div_normal m1 e1 (10000 * 2 ^ 39) (-39)) as (m2 & e2 & -> & Hm2 & He2);
        [done | lia | lia | lia |].
      destruct (ceil_normal m2 e2 Hm2) as (z & Hz & Hz0 & Hzle & Hz1).
      assert (z <= 2 ^ (d - 1)) as Hzd.
      { destruct (Z.le_gt_cases 0 (53 + e2)) as [Hle | Hgt].
        - specialize (Hzle Hle).
          assert (2 ^ (53 + e2) <= 2 ^ (d - 1)) by (apply Z.pow_le_mono_r; lia). lia.
        - rewrite Hz1 by lia.
          assert (2 ^ 0 <= 2 ^ (d - 1)) by (apply Z.pow_le_mono_r; lia).
          change (2 ^ 0) with 1 in *. lia. }
      exists z. split; [apply ceil_uint64_Some; [done | lia] |]. split; [lia | done].
Qed.

(** The amount to pay is the exact ceiling as long as the product of the
    received amount and the denominator has at most 53 digits. *)
Lemma CalcShouldPayAmount_exact (receiveAmount : Z) (contractArg : MagneticContractArgs) :
  0 <= receiveAmount ->
  0 < RatioDenominator contractArg < 2 ^ 63 ->
  0 < RatioNumerator contractArg < 2 ^ 53 ->
  receiveAmount * RatioDenominator contractArg < 2 ^ 53 ->
  CalcShouldPayAmount receiveAmount contractArg
  = Ok (ceilDiv (receiveAmount * RatioDenominator contractArg) (RatioNumerator contractArg)).
Proof.
  intros Hr [Hden Hden63] Hnum Hprod. unfold CalcShouldPayAmount.
  set (den := RatioDenominator contractArg) in *.
  set (num := RatioNumerator contractArg) in *.
  assert (exists dn, Zdigits2 num = dn /\ dn <= 53) as (dn & Hdn & Hdn53).
  { eexists. split; [done |]. apply Zdigits2_le_53. lia. }
  destruct (Z.eq_dec receiveAmount 0) as [-> | Hne].
  - rewrite Z.mul_0_l.
    assert (Zdigits2 den <= 63) as Hdd.
    { pose proof (Zdigits2_bounds den _ Hden eq_refl) as [Hlo _].
      destruct (Z.le_gt_cases (Zdigits2 den) 63) as [Hle | Hgt]; [done |].
      assert (2 ^ 63 <= 2 ^ (Zdigits2 den - 1)) by (apply Z.pow_le_mono_r; lia). lia. }
    destruct (of_Z_normal den _ Hden eq_refl ltac:(lia)) as (md & ed & -> & _).
    rewrite (of_Z_exact num dn) by lia.
    reflexivity.
  - rewrite mul_of_Z_exact by lia.
    apply ceil_uint64_Some.
    + apply div_of_Z_ceil; [nia | lia].
    + split; [apply ceilDiv_nonneg; lia |].
      assert (ceilDiv (receiveAmount * den) num <= receiveAmount * den).
      { apply ceilDiv_le; [lia |]. nia. }
      lia.
Qed.

Lemma CalcShouldPayAmount_range (receiveAmount : Z) (contractArg : MagneticContractArgs)
    (shouldPayAmount : Z) :
  CalcShouldPayAmount receiveAmount contractArg = Ok shouldPayAmount ->
  0 <= shouldPayAmount < 2 ^ 64.
Proof. apply ceil_uint64_range. Qed.

(** The cap on the fee is never negative. *)
Lemma CalcMaxFeeAmount_nonneg (shouldPayAmount maxFee : Z) :
  0 <= shouldPayAmount < 2 ^ 64 ->
  CalcMaxFeeAmount shouldPayAmount = Ok maxFee ->
  0 <= maxFee.
Proof.
  intros Hsp. unfold CalcMaxFeeAmount.
  destruct (Z.eq_dec shouldPayAmount 0) as [-> | Hne].
  { vm_compute. intros [= <-]. done. }
  assert (0 < shouldPayAmount) as Hpos by lia.
  pose proof (Zdigits2_bounds shouldPayAmount _ Hpos eq_refl) as Hd.
  assert (Zdigits2 shouldPayAmount <= 64) as Hd64.
  { destruct (Z.le_gt_cases (Zdigits2 shouldPayAmount) 64) as [Hle | Hgt]; [done |].
    assert (2 ^ 64 <= 2 ^ (Zdigits2 shouldPayAmount - 1)) by (apply Z.pow_le_mono_r; lia).
    lia. }
  pose proof (Zdigits2_pos shouldPayAmount Hpos) as Hd0.
  destruct (of_Z_normal shouldPayAmount _ Hpos eq_refl ltac:(lia)) as (m & e & -> & Hm & He).
  rewrite c0_05_eq.
  destruct (mul_normal m e 7205759403792794 (-57)) as (m1 & e1 & -> & Hm1 & He1);
    [done | lia | lia | lia |].
  destruct (ceil_normal m1 e1 Hm1) as (z & Hz & Hz0 & _).
  unfold F64.ceil_int64. rewrite Hz.
  destruct ((- 2 ^ 63 <=? z) && (z <? 2 ^ 63)); [| done]. intros [= <-]. lia.
Qed.

End FloatComputations.

(** ** Slices *)

Section Slices.

Lemma index_Ok {A : Type} (xs : list A) (i : nat) (x : A) :
  index xs i = Ok x <-> xs !! i = Some x.
Proof.
  unfold index. destruct (xs !! i); split; intros Hx; congruence.
Qed.

Lemma index_lt {A : Type} (xs : list A) (i : nat) :
  (i < length xs)%nat -> exists x, index xs i = Ok x /\ xs !! i = Some x.
Proof.
  intros Hi. destruct (lookup_lt_is_Some_2 xs i Hi) as [x Hx].
  exists x. split; [by apply index_Ok | done].
Qed.

End Slices.

(** ** Machine integers *)

Section MachineIntegers.

Lemma wrap_u64_id (z : Z) : 0 <= z < 2 ^ 64 -> wrap_u64 z = z.
Proof. intros Hz. unfold wrap_u64. apply Z.mod_small. lia. Qed.

Lemma wrap_s64_id (z : Z) : - 2 ^ 63 <= z < 2 ^ 63 -> wrap_s64 z = z.
Proof. intros Hz. unfold wrap_s64. rewrite Z.mod_small; lia. Qed.

Lemma wrap_s64_range (z : Z) : - 2 ^ 63 <= wrap_s64 z < 2 ^ 63.
Proof.
  unfold wrap_s64. pose proof (Z.mod_pos_bound (z + 2 ^ 63) (2 ^ 64) ltac:(lia)). lia.
Qed.

Lemma wrap_u64_range (z : Z) : 0 <= wrap_u64 z < 2 ^ 64.
Proof. unfold wrap_u64. apply Z.mod_pos_bound. lia. Qed.

End MachineIntegers.

(** ** The amounts of a leg *)

Section LegAmounts.

(** C4, as amended.  [calcRequestAmount] returns the floor of
    [offered * numerator / denominator] when the offered amount is an
    [int64] and the product does not overflow [int64];
    [CalcShouldPayAmount] returns the ceiling of
    [received * denominator / numerator] when the product and the numerator
    have at most 53 binary digits, the range in which float64 represents
    them exactly. *)
Theorem leg_amounts_exact_in_range (fromAmount receiveAmount : Z)
    (contractArg : MagneticContractArgs) :
  (0 <= fromAmount < 2 ^ 63 ->
   0 <= RatioNumerator contractArg ->
   0 < RatioDenominator contractArg ->
   fromAmount * RatioNumerator contractArg < 2 ^ 63 ->
   calcRequestAmount fromAmount contractArg
   = Ok (fromAmount * RatioNumerator contractArg / RatioDenominator contractArg))
  /\ (0 <= receiveAmount ->
      0 < RatioDenominator contractArg < 2 ^ 63 ->
      0 < RatioNumerator contractArg < 2 ^ 53 ->
      receiveAmount * RatioDenominator contractArg < 2 ^ 53 ->
      CalcShouldPayAmount receiveAmount contractArg
      = Ok (ceilDiv (receiveAmount * RatioDenominator contractArg)
              (RatioNumerator contractArg))).
Proof.
  split; [| apply CalcShouldPayAmount_exact].
  intros Hfrom Hnum Hden Hprod. unfold calcRequestAmount, div_s64.
  set (num := RatioNumerator contractArg) in *.
  set (den := RatioDenominator contractArg) in *.
  assert (0 <= fromAmount * num) as Hprod0 by nia.
  rewrite (wrap_s64_id fromAmount), (wrap_s64_id (fromAmount * num)) by lia.
  destruct (Z.eqb_spec den 0) as [Hz | _]; [lia |]. cbn.
  rewrite Z.quot_div_nonneg by lia.
  assert (0 <= fromAmount * num / den <= fromAmount * num) as Hq.
  { split; [apply Z.div_pos; lia |]. apply Z.div_le_upper_bound; [lia |]. nia. }
  rewrite wrap_s64_id, wrap_u64_id by lia. reflexivity.
Qed.

End LegAmounts.

(** ** The maker/taker fee policy *)

Section FeeStrategyProperties.

Lemma calcFeeAmount_range (amount : Z) (isMaker : bool) (fee : Z) :
  calcFeeAmount amount isMaker = Ok fee -> 0 <= fee < 2 ^ 64.
Proof. apply ceil_uint64_range. Qed.

(** [Validate] in terms of the cap that [calcFeeAmount] computes. *)
Lemma Validate_cases (receiveAmounts : list AssetAmount) (feeAmounts : gmap AssetID Z) :
  (forall receiveAmount, receiveAmount ∈ receiveAmounts ->
     0 <= Amount receiveAmount < 2 ^ 64) ->
  (Validate receiveAmounts feeAmounts = Err ErrInvalidAmountOfFee
   /\ exists receiveAmount cap,
       receiveAmount ∈ receiveAmounts
       /\ calcFeeAmount (Amount receiveAmount) false = Ok cap
       /\ cap < chargedFee feeAmounts (AssetId receiveAmount))
  \/ (Validate receiveAmounts feeAmounts = Ok tt
      /\ forall receiveAmount, receiveAmount ∈ receiveAmounts ->
         exists cap,
           calcFeeAmount (Amount receiveAmount) false = Ok cap
           /\ chargedFee feeAmounts (AssetId receiveAmount) <= cap).
Proof.
  induction receiveAmounts as [| receiveAmount rest IH]; intros Hrange.
  - right. split; [done |]. intros ra Hra. by apply elem_of_nil in Hra.
  - destruct (calcFeeAmount_le (Amount receiveAmount) false) as (cap & Hcap & _).
    { apply Hrange. by left. }
    cbn [Validate]. rewrite Hcap. cbn.
    fold (chargedFee feeAmounts (AssetId receiveAmount)).
    destruct (Z.gtb_spec (chargedFee feeAmounts (AssetId receiveAmount)) cap) as [Hgt | Hle].
    + left. split; [done |]. exists receiveAmount, cap. split; [by left |]. split; [done | lia].
    + destruct IH as [(Herr & ra & cap' & Hin & Hcap' & Hlt) | (Hok & Hall)].
      { intros ra Hra. apply Hrange. by right. }
      * left. split; [done |]. exists ra, cap'. split; [by right | done].
      * right. split; [done |]. intros ra Hra.
        apply elem_of_cons in Hra as [-> | Hra]; [| by apply Hall].
        exists cap. done.
Qed.

(** C9, as amended.  For receive amounts whose triple has at most 53
    binary digits, [Validate] returns the fee error exactly when the fee
    charged for the asset of some leg (zero when the map has no entry)
    strictly exceeds the ceiling of three ten-thousandths of the leg's
    amount, and accepts otherwise; under-charging is accepted. *)
Theorem Validate_rejects_exactly_overcharge (receiveAmounts : list AssetAmount)
    (feeAmounts : gmap AssetID Z) :
  (forall receiveAmount, receiveAmount ∈ receiveAmounts ->
     0 <= Amount receiveAmount /\ 3 * Amount receiveAmount < 2 ^ 53) ->
  ((exists receiveAmount,
       receiveAmount ∈ receiveAmounts
       /\ ceilDiv (3 * Amount receiveAmount) 10000
          < chargedFee feeAmounts (AssetId receiveAmount)) ->
   Validate receiveAmounts feeAmounts = Err ErrInvalidAmountOfFee)
  /\ ((forall receiveAmount, receiveAmount ∈ receiveAmounts ->
        chargedFee feeAmounts (AssetId receiveAmount)
        <= ceilDiv (3 * Amount receiveAmount) 10000) ->
      Validate receiveAmounts feeAmounts = Ok tt).
Proof.
  intros Hrange.
  destruct (Validate_cases receiveAmounts feeAmounts)
    as [(Herr & ra & cap & Hin & Hcap & Hlt) | (Hok & Hall)].
  { intros ra Hra. destruct (Hrange ra Hra). lia. }
  - split; [done |]. intros Hle. specialize (Hle ra Hin).
    destruct (Hrange ra Hin) as [H0 H53].
    rewrite calcFeeAmount_exact in Hcap by done. simplify_eq. lia.
  - split; [| done]. intros (ra & Hin & Hlt).
    destruct (Hall ra Hin) as (cap & Hcap & Hle).
    destruct (Hrange ra Hin) as [H0 H53].
    rewrite calcFeeAmount_exact in Hcap by done. simplify_eq. lia.
Qed.

(** An asset without an entry in the map of charged fees is an asset
    charged zero. *)
Lemma Validate_absent_is_zero (receiveAmounts : list AssetAmount)
    (feeAmounts : gmap AssetID Z) (asset : AssetID) :
  feeAmounts !! asset = None ->
  Validate receiveAmounts feeAmounts = Validate receiveAmounts (<[asset := 0]> feeAmounts).
Proof.
  intros Hnone. induction receiveAmounts as [| ra rest IH]; [done |].
  cbn [Validate]. rewrite IH.
  assert (default 0 (<[asset := 0]> feeAmounts !! AssetId ra)
          = default 0 (feeAmounts !! AssetId ra)) as ->; [| done].
  rewrite lookup_insert. case_decide; [| done]. subst. by rewrite Hnone.
Qed.

(** A leg whose asset has no entry is never the reason of a fee error. *)
Lemma Validate_absent_accepted (receiveAmounts : list AssetAmount)
    (feeAmounts : gmap AssetID Z) :
  (forall receiveAmount, receiveAmount ∈ receiveAmounts ->
     feeAmounts !! AssetId receiveAmount = None) ->
  is_Err (Validate receiveAmounts feeAmounts) = false.
Proof.
  induction receiveAmounts as [| ra rest IH]; intros Hnone; [done |].
  cbn [Validate]. rewrite (Hnone ra) by (by left). cbn.
  destruct (calcFeeAmount (Amount ra) false) as [cap | |] eqn:Hcap; cbn; [| | done].
  - apply calcFeeAmount_range in Hcap.
    destruct (Z.gtb_spec 0 cap); [lia |]. apply IH. intros r Hr. apply Hnone. by right.
  - unfold calcFeeAmount, F64.ceil_uint64 in Hcap.
    destruct (F64.ceil _) as [c |]; [| done].
    destruct ((0 <=? c) && (c <? 2 ^ 64)); done.
Qed.

Lemma amountEntries_cons (a : AssetAmount) (rest : list AssetAmount) :
  amountEntries (a :: rest) = (AssetId a, Amount a) :: amountEntries rest.
Proof. reflexivity. Qed.

Ltac entries := rewrite ?amountEntries_cons in *; cbn [totalOf] in *.

Lemma totalOf_nonneg (asset : AssetID) (amounts : list AssetAmount) :
  Forall uint64Amount amounts -> 0 <= totalOf asset (amountEntries amounts).
Proof.
  induction 1 as [| a rest Ha _ IH]; [done |]. entries.
  unfold uint64Amount in Ha. case_decide; lia.
Qed.

(** The inner loop of [Allocate] moves value from the price differentials
    of the asset to the fee of the leg, and touches no other asset. *)
Lemma chargePriceDiffs_spec (asset : AssetID) (priceDiffs : list AssetAmount) :
  forall feeAcc : Z,
    Forall uint64Amount priceDiffs ->
    0 <= feeAcc ->
    feeAcc + totalOf asset (amountEntries priceDiffs) < 2 ^ 64 ->
    exists priceDiffs' feeAcc',
      chargePriceDiffs asset priceDiffs feeAcc = Ok (priceDiffs', feeAcc')
      /\ feeAcc <= feeAcc'
      /\ feeAcc' + totalOf asset (amountEntries priceDiffs')
         = feeAcc + totalOf asset (amountEntries priceDiffs)
      /\ (forall other, other <> asset ->
            totalOf other (amountEntries priceDiffs')
            = totalOf other (amountEntries priceDiffs))
      /\ Forall uint64Amount priceDiffs'.
Proof.
  induction priceDiffs as [| priceDiff rest IH]; intros feeAcc Hrange Hacc Hsum.
  - exists [], feeAcc. cbn. split_and!; try done; lia.
  - apply Forall_cons in Hrange as [Hpd Hrest].
    pose proof (totalOf_nonneg asset rest Hrest) as Hnn.
    cbn [chargePriceDiffs]. entries.
    destruct (decide (AssetId priceDiff = asset)) as [Heq | Hne].
    + destruct (calcFeeAmount_le (Amount priceDiff) false Hpd) as (fee & -> & Hfee & _).
      cbn. unfold uint64Amount in Hpd.
      rewrite (wrap_u64_id (Amount priceDiff - fee)), (wrap_u64_id (feeAcc + fee)) by lia.
      destruct (IH (feeAcc + fee) Hrest ltac:(lia) ltac:(lia))
        as (rest' & feeAcc' & -> & Hle & Htot & Hother & Hrange').
      cbn. eexists _, _. split; [done |]. split; [lia |]. split; [| split].
      * entries. cbn [AssetId Amount]. case_decide; [| done]. lia.
      * intros other Hoth. entries. cbn [AssetId Amount].
        case_decide; [congruence |]. by rewrite Hother.
      * apply Forall_cons. split; [| done]. unfold uint64Amount. cbn. lia.
    + destruct (IH feeAcc Hrest Hacc ltac:(lia))
        as (rest' & feeAcc' & -> & Hle & Htot & Hother & Hrange').
      cbn. eexists _, _. split; [done |]. split; [lia |]. split; [| split].
      * entries. case_decide; [done |]. lia.
      * intros other Hoth. entries. by rewrite Hother.
      * by apply Forall_cons.
Qed.

Lemma allocateFrom_spec (receiveAmounts : list AssetAmount) :
  forall (i : nat) (priceDiffs : list AssetAmount) (isMakers : list bool),
    Forall uint64Amount receiveAmounts ->
    Forall uint64Amount priceDiffs ->
    (i + length receiveAmounts <= length isMakers)%nat ->
    (forall asset,
        totalOf asset (amountEntries receiveAmounts)
        + totalOf asset (amountEntries priceDiffs) < 2 ^ 64) ->
    exists receives fees priceDiffs',
      allocateFrom i receiveAmounts priceDiffs isMakers = Ok (receives, fees, priceDiffs')
      /\ (forall (j : nat) (receiveAmount : AssetAmount),
            receiveAmounts !! j = Some receiveAmount ->
            exists isMaker fee receive,
              isMakers !! (i + j)%nat = Some isMaker
              /\ calcFeeAmount (Amount receiveAmount) isMaker = Ok fee
              /\ receives !! j = Some receive
              /\ AssetId receive = AssetId receiveAmount
              /\ Amount receive + fee = Amount receiveAmount
              /\ (isMaker = true -> Amount receive = Amount receiveAmount))
      /\ (forall asset,
            totalOf asset (amountEntries receives)
            + totalOf asset (amountEntries fees)
            + totalOf asset (amountEntries priceDiffs')
            = totalOf asset (amountEntries receiveAmounts)
              + totalOf asset (amountEntries priceDiffs))
      /\ Forall uint64Amount priceDiffs'.
Proof.
  induction receiveAmounts as [| receiveAmount rest IH];
    intros i priceDiffs isMakers Hrange Hpd Hlen Hsum.
  - exists [], [], priceDiffs. cbn. split_and!; try done.
  - apply Forall_cons in Hrange as [Hra Hrest].
    cbn [length] in Hlen.
    destruct (index_lt isMakers i ltac:(lia)) as (isMaker & Hidx & Hlk).
    destruct (calcFeeAmount_le (Amount receiveAmount) isMaker Hra)
      as (fee & Hfee & Hfeele & Hmaker).
    cbn [allocateFrom]. rewrite Hidx. cbn. rewrite Hfee. cbn.
    unfold uint64Amount in Hra.
    rewrite (wrap_u64_id (Amount receiveAmount - fee)) by lia.
    set (asset := AssetId receiveAmount).
    pose proof (totalOf_nonneg asset rest Hrest) as Hrestnn.
    pose proof (Hsum asset) as Hsuma. entries. fold asset in Hsuma.
    destruct (decide (asset = asset)) as [_ | ?]; [| done].
    (* the price differentials after this leg *)
    assert (exists priceDiffs1 feeAcc,
               (if negb isMaker then chargePriceDiffs asset priceDiffs fee
                else Ok (priceDiffs, fee)) = Ok (priceDiffs1, feeAcc)
               /\ feeAcc + totalOf asset (amountEntries priceDiffs1)
                  = fee + totalOf asset (amountEntries priceDiffs)
               /\ fee <= feeAcc
               /\ (forall other, other <> asset ->
                     totalOf other (amountEntries priceDiffs1)
                     = totalOf other (amountEntries priceDiffs))
               /\ Forall uint64Amount priceDiffs1)
      as (priceDiffs1 & feeAcc & Hcharge & Htot & Hle & Hother & Hpd1).
    { destruct isMaker; cbn [negb].
      - exists priceDiffs, fee. split_and!; try done; lia.
      - destruct (chargePriceDiffs_spec asset priceDiffs fee Hpd ltac:(lia) ltac:(lia))
          as (pds' & acc' & Hc & Hle' & Htot' & Hoth' & Hr').
        exists pds', acc'. split_and!; try done; lia. }
    rewrite Hcharge. cbn.
    destruct (IH (S i) priceDiffs1 isMakers Hrest Hpd1 ltac:(lia))
      as (receives & fees & priceDiffs2 & -> & Hlegs & Hcons & Hpd2).
    { intros other. specialize (Hsum other). fold asset in Hsum.
      destruct (decide (asset = other)) as [<- | Hne].
      - lia.
      - rewrite Hother by done. lia. }
    cbn. eexists _, _, _. split; [done |]. split; [| split; [| done]].
    + intros [| j] ra Hj.
      * cbn in Hj. simplify_eq. rewrite Nat.add_0_r.
        exists isMaker, fee, (mkAssetAmount asset (Amount ra - fee)).
        split_and!; try done; cbn; try lia. intros ->%Hmaker. lia.
      * cbn in Hj. destruct (Hlegs j ra Hj) as (mk & f & r & Hmk & ? & ? & ? & ? & ?).
        exists mk, f, r. replace (i + S j)%nat with (S i + j)%nat by lia.
        split_and!; done.
    + intros other. specialize (Hcons other). entries. cbn [AssetId Amount].
      fold asset.
      destruct (decide (asset = other)) as [<- | Hne].
      * lia.
      * rewrite Hother in Hcons by done. lia.
Qed.

(** C10, as amended.  [Allocate], called with as many makers flags as
    receive amounts, on [uint64] amounts that sum below [2^64] for every
    asset: the amount received on a leg plus the base fee of the leg is the
    receive amount of the leg; a maker leg keeps its whole receive amount;
    and for every asset the receives, the fees and the price differentials
    left after the call sum to the receive amounts and the price
    differentials before the call. *)
Theorem Allocate_conserves (receiveAmounts priceDiffs : list AssetAmount)
    (isMakers : list bool) :
  length isMakers = length receiveAmounts ->
  Forall uint64Amount receiveAmounts ->
  Forall uint64Amount priceDiffs ->
  (forall asset,
      totalOf asset (amountEntries receiveAmounts)
      + totalOf asset (amountEntries priceDiffs) < 2 ^ 64) ->
  exists allocated priceDiffs',
    Allocate receiveAmounts priceDiffs isMakers = Ok (allocated, priceDiffs')
    /\ (forall (i : nat) (receiveAmount : AssetAmount),
          receiveAmounts !! i = Some receiveAmount ->
          exists isMaker fee receive,
            isMakers !! i = Some isMaker
            /\ calcFeeAmount (Amount receiveAmount) isMaker = Ok fee
            /\ Receives allocated !! i = Some receive
            /\ AssetId receive = AssetId receiveAmount
            /\ Amount receive + fee = Amount receiveAmount
            /\ (isMaker = true -> Amount receive = Amount receiveAmount))
    /\ (forall asset,
          totalOf asset (amountEntries (Receives allocated))
          + totalOf asset (amountEntries (Fees allocated))
          + totalOf asset (amountEntries priceDiffs')
          = totalOf asset (amountEntries receiveAmounts)
            + totalOf asset (amountEntries priceDiffs)).
Proof.
  intros Hlen Hra Hpd Hsum.
  destruct (allocateFrom_spec receiveAmounts 0 priceDiffs isMakers Hra Hpd ltac:(lia) Hsum)
    as (receives & fees & priceDiffs' & Halloc & Hlegs & Hcons & _).
  unfold Allocate. rewrite Halloc. cbn.
  eexists _, _. split; [done |]. split; [| done].
  intros i ra Hi. apply (Hlegs i ra Hi).
Qed.

End FeeStrategyProperties.

Section MatchProperties.
Context `{Collaborators}.

Lemma getOppositeIndex_mod (size i : nat) :
  (i < size)%nat -> getOppositeIndex size i = ((i + 1) mod size)%nat.
Proof.
  intros Hi. unfold getOppositeIndex.
  destruct (Nat.leb_spec (size - 1) i) as [Hle | Hlt].
  - replace (i + 1)%nat with size by lia.
    symmetry. apply Nat.Div0.mod_same.
  - symmetry. apply Nat.mod_small. lia.
Qed.

Lemma getOppositeIndex_lt (size i : nat) :
  (0 < size)%nat -> (getOppositeIndex size i < size)%nat.
Proof.
  intros Hs. unfold getOppositeIndex.
  destruct (Nat.leb_spec (size - 1) i); lia.
Qed.

(** The loop of [validateTradePairs] stops at the first leg that does not
    chain into the next one. *)
Lemma validateTradePairsFrom_mismatch (tradePairs : list TradePair) :
  forall (rest : list TradePair) (i j : nat) (tp tp' : TradePair),
    rest = drop i tradePairs ->
    (i <= j)%nat ->
    tradePairs !! j = Some tp ->
    tradePairs !! getOppositeIndex (length tradePairs) j = Some tp' ->
    tpToAssetID tp <> tpFromAssetID tp' ->
    validateTradePairsFrom tradePairs i rest = Err ErrTradePairsInvalid.
Proof.
  induction rest as [| tradePair rest' IH]; intros i j tp tp' Hrest Hij Hj Hopp Hne.
  - apply lookup_lt_Some in Hj.
    assert (length (drop i tradePairs) = 0%nat) as Hlen by (by rewrite <- Hrest).
    rewrite length_drop in Hlen. lia.
  - assert (tradePairs !! i = Some tradePair) as Hi.
    { rewrite <- (Nat.add_0_r i), <- lookup_drop, <- Hrest. done. }
    assert (rest' = drop (S i) tradePairs) as Hrest'.
    { change rest' with (drop 1 (tradePair :: rest')).
      rewrite Hrest, drop_drop. f_equal. lia. }
    pose proof (lookup_lt_Some _ _ _ Hi) as Hlt.
    destruct (index_lt tradePairs (getOppositeIndex (length tradePairs) i))
      as (opp & Hidx & Hlk).
    { apply getOppositeIndex_lt. lia. }
    cbn [validateTradePairsFrom]. rewrite Hidx. cbn.
    destruct (decide (tpToAssetID tradePair ≠ tpFromAssetID opp)) as [Hd | Hd]; [done |].
    destruct (decide (i = j)) as [-> | Hneq].
    + rewrite Hi in Hj. rewrite Hlk in Hopp. simplify_eq. by destruct Hd.
    + apply (IH (S i) j tp tp'); [done | lia | done | done | done].
Qed.

Lemma validateTradePairs_invalid (tradePairs : list TradePair) :
  (length tradePairs < 2)%nat
  \/ (exists (i : nat) (tp tp' : TradePair),
        tradePairs !! i = Some tp
        /\ tradePairs !! ((i + 1) mod length tradePairs)%nat = Some tp'
        /\ tpToAssetID tp <> tpFromAssetID tp') ->
  exists err, validateTradePairs tradePairs = Err err /\ invalidRing err.
Proof.
  intros Hbad. unfold validateTradePairs.
  destruct (Nat.ltb_spec (length tradePairs) 2) as [Hlt | Hge].
  - exists ErrTradePairsSize. split; [done | by left].
  - destruct Hbad as [Hlt | (i & tp & tp' & Hi & Hopp & Hne)]; [lia |].
    exists ErrTradePairsInvalid. split; [| by right].
    apply (validateTradePairsFrom_mismatch tradePairs tradePairs 0 i tp tp');
      [done | lia | done | | done].
    rewrite getOppositeIndex_mod; [done |].
    by apply lookup_lt_Some in Hi.
Qed.

(** C7.  A list of trade pairs with fewer than two elements, or in which
    some pair's [ToAssetID] differs from the [FromAssetID] of the next pair
    (the first pair coming after the last), is refused whatever the order
    table holds: [HasMatchedTx] returns false, and [NextMatchedTx] fails
    with one of the two errors of [validateTradePairs] and leaves the
    engine as it was. *)
Theorem invalid_ring_rejected (e : Engine) (tradePairs : list TradePair) :
  (length tradePairs < 2)%nat
  \/ (exists (i : nat) (tp tp' : TradePair),
        tradePairs !! i = Some tp
        /\ tradePairs !! ((i + 1) mod length tradePairs)%nat = Some tp'
        /\ tpToAssetID tp <> tpFromAssetID tp') ->
  HasMatchedTx e tradePairs = Ok false
  /\ exists err, NextMatchedTx e tradePairs = (e, Err err) /\ invalidRing err.
Proof.
  intros Hbad.
  destruct (validateTradePairs_invalid tradePairs Hbad) as (err & Hv & Herr).
  unfold HasMatchedTx, NextMatchedTx. rewrite Hv. split; [done |].
  exists err. done.
Qed.

Lemma validateTradePairsFrom_no_fault (tradePairs : list TradePair) :
  forall (rest : list TradePair) (i : nat) (f : fault),
    rest = drop i tradePairs ->
    validateTradePairsFrom tradePairs i rest <> Fault f.
Proof.
  induction rest as [| tradePair rest' IH]; intros i f Hrest; [done |].
  assert (i < length tradePairs)%nat as Hlt.
  { assert (length (drop i tradePairs) = S (length rest')) as Hlen
      by (by rewrite <- Hrest).
    rewrite length_drop in Hlen. lia. }
  assert (rest' = drop (S i) tradePairs) as Hrest'.
  { change rest' with (drop 1 (tradePair :: rest')).
    rewrite Hrest, drop_drop. f_equal. lia. }
  destruct (index_lt tradePairs (getOppositeIndex (length tradePairs) i))
    as (opp & Hidx & _).
  { apply getOppositeIndex_lt. lia. }
  cbn [validateTradePairsFrom]. rewrite Hidx. cbn.
  destruct (decide (tpToAssetID tradePair ≠ tpFromAssetID opp)); [done |].
  by apply IH.
Qed.

Lemma validateTradePairs_cases (tradePairs : list TradePair) :
  validateTradePairs tradePairs = Ok tt
  \/ exists err, validateTradePairs tradePairs = Err err /\ invalidRing err.
Proof.
  unfold validateTradePairs.
  destruct (Nat.ltb_spec (length tradePairs) 2) as [Hlt | Hge].
  - right. exists ErrTradePairsSize. split; [done | by left].
  - pose proof (validateTradePairsFrom_no_fault tradePairs tradePairs 0) as Hnf.
    assert (forall rest i err,
               validateTradePairsFrom tradePairs i rest = Err err ->
               err = ErrTradePairsInvalid) as Herr.
    { induction rest as [| tp rest' IH]; intros i err; cbn; [done |].
      unfold index.
      destruct (tradePairs !! getOppositeIndex (length tradePairs) i) as [opp |];
        cbn; [| done].
      destruct (decide (tpToAssetID tp ≠ tpFromAssetID opp)); [congruence | apply IH]. }
    destruct (validateTradePairsFrom tradePairs 0 tradePairs) as [[] | err | f] eqn:Hv.
    + by left.
    + right. exists err. split; [done |]. right. by apply (Herr tradePairs 0%nat).
    + by destruct (Hnf f).
Qed.


(** *** The fee computed from a matched transaction *)

Lemma scanOutputs_receive (outputs : list TxOutput) :
  forall (m m' : gmap AssetID feeAmount) (r r' : gmap string TxOutput),
    scanOutputs outputs m r = Ok (m', r') ->
    forall program, r' !! program = lastReceiveOutput outputs program (r !! program).
Proof.
  induction outputs as [| output rest IH]; intros m m' r r' Hscan program.
  - cbn in Hscan. by simplify_eq.
  - cbn [scanOutputs] in Hscan. cbn [lastReceiveOutput].
    destruct (IsP2WMCScript (outControlProgram output)); cbn [negb andb].
    + destruct (addPayable m (outAssetID output) (- wrap_s64 (outAmount output)))
        as [m1 | |]; cbn in Hscan; [| done | done].
      by apply (IH m1 m' r r').
    + rewrite (IH _ _ _ _ Hscan program). f_equal.
      rewrite lookup_insert. case_decide; case_bool_decide; congruence.
Qed.

Lemma lastReceiveOutput_None (outputs : list TxOutput) (program : Program) :
  (forall output, output ∈ outputs ->
     IsP2WMCScript (outControlProgram output) = false ->
     outControlProgram output <> program) ->
  lastReceiveOutput outputs program None = None.
Proof.
  induction outputs as [| output rest IH]; intros Hnone; [done |].
  cbn [lastReceiveOutput].
  destruct (IsP2WMCScript (outControlProgram output)) eqn:Hscript; cbn [negb andb].
  - apply IH. intros o Ho. apply Hnone. by right.
  - case_bool_decide as Hp.
    + destruct (Hnone output); [by left | done | done].
    + apply IH. intros o Ho. apply Hnone. by right.
Qed.

Lemma scanInputs_no_receive (inputs : list TxInput) :
  forall (m : gmap AssetID feeAmount) (r : gmap string TxOutput)
         (input : TxInput) (contractArgs : MagneticContractArgs),
    input ∈ inputs ->
    DecodeP2WMCProgram (inControlProgram input) = Ok contractArgs ->
    r !! SellerProgram contractArgs = None ->
    is_Ok (scanInputs inputs m r) = false.
Proof.
  induction inputs as [| input0 rest IH]; intros m r input contractArgs Hin Hdec Hnone.
  - by apply elem_of_nil in Hin.
  - cbn [scanInputs].
    destruct (DecodeP2WMCProgram (inControlProgram input0)) as [args0 | |] eqn:Hdec0;
      cbn; [| done | done].
    destruct (addPayable m (inAssetID input0) (wrap_s64 (inAmount input0))) as [m1 | |];
      cbn; [| done | done].
    apply elem_of_cons in Hin as [-> | Hin].
    + rewrite Hdec in Hdec0. simplify_eq. by rewrite Hnone.
    + destruct (r !! SellerProgram args0) as [receiveOutput |]; [| done].
      destruct (addPayable m1 _ _) as [m2 | |]; cbn; [| done | done].
      destruct (CalcShouldPayAmount _ _) as [sp | |]; cbn; [| done | done].
      destruct (CalcMaxFeeAmount sp) as [mf | |]; cbn; [| done | done].
      destruct (setMaxFee m2 _ _) as [m3 | |]; cbn; [| done | done].
      by apply (IH m3 r input contractArgs).
Qed.

(** [CalcFeeFromMatchedTx] does not succeed when the seller program of an
    input locks no output of the transaction other than P2WMC scripts. *)
Lemma CalcFeeFromMatchedTx_no_receive (txData : TxData) (input : TxInput)
    (contractArgs : MagneticContractArgs) :
  input ∈ Inputs txData ->
  DecodeP2WMCProgram (inControlProgram input) = Ok contractArgs ->
  (forall output, output ∈ Outputs txData ->
     IsP2WMCScript (outControlProgram output) = false ->
     outControlProgram output <> SellerProgram contractArgs) ->
  is_Ok (CalcFeeFromMatchedTx txData) = false.
Proof.
  intros Hin Hdec Hnone. unfold CalcFeeFromMatchedTx.
  destruct (scanOutputs (Outputs txData) (initAssetAmountMap (Inputs txData)) ∅)
    as [[m r] | |] eqn:Hscan; cbn; [| done | done].
  pose proof (scanOutputs_receive _ _ _ _ _ Hscan (SellerProgram contractArgs)) as Hr.
  rewrite lookup_empty, lastReceiveOutput_None in Hr by done.
  pose proof (scanInputs_no_receive (Inputs txData) m r input contractArgs Hin Hdec Hr)
    as Hno.
  destruct (scanInputs (Inputs txData) m r); cbn; done.
Qed.

(** *** Totals *)

Lemma eqm64_refl (a : Z) : eqm64 a a.
Proof. done. Qed.

Lemma eqm64_wrap_s64 (z : Z) : eqm64 (wrap_s64 z) z.
Proof.
  unfold eqm64, wrap_s64. rewrite Zminus_mod_idemp_l. f_equal. lia.
Qed.

Lemma eqm64_add (a a' b b' : Z) : eqm64 a a' -> eqm64 b b' -> eqm64 (a + b) (a' + b').
Proof.
  unfold eqm64. intros Ha Hb.
  rewrite (Zplus_mod a b), (Zplus_mod a' b'), Ha, Hb. done.
Qed.

Lemma eqm64_opp (a a' : Z) : eqm64 a a' -> eqm64 (- a) (- a').
Proof.
  unfold eqm64. intros Ha.
  rewrite <- (Z.sub_0_l a), <- (Z.sub_0_l a'), (Zminus_mod 0 a), (Zminus_mod 0 a'), Ha.
  done.
Qed.

Lemma eqm64_trans (a b c : Z) : eqm64 a b -> eqm64 b c -> eqm64 a c.
Proof. unfold eqm64. congruence. Qed.

Lemma eqm64_s64 (a b : Z) : is_s64 a -> is_s64 b -> eqm64 a b -> a = b.
Proof.
  unfold eqm64, is_s64. intros Ha Hb Heq.
  assert ((a + 2 ^ 63) mod 2 ^ 64 = (b + 2 ^ 63) mod 2 ^ 64) as Hs.
  { rewrite (Zplus_mod a), (Zplus_mod b), Heq. done. }
  rewrite !Z.mod_small in Hs by lia. lia.
Qed.

Lemma totalOf_app (asset : AssetID) (xs ys : list (AssetID * Z)) :
  totalOf asset (xs ++ ys) = totalOf asset xs + totalOf asset ys.
Proof.
  induction xs as [| [a z] xs IH]; [done |]. cbn [app totalOf]. rewrite IH. lia.
Qed.

Lemma totalOf_none (asset : AssetID) (entries : list (AssetID * Z)) :
  Forall (fun entry => entry.1 <> asset) entries -> totalOf asset entries = 0.
Proof.
  induction 1 as [| [a z] rest Ha _ IH]; [done |].
  cbn [totalOf]. cbn in Ha. case_decide; [done |]. lia.
Qed.

Lemma inputEntries_cons (input : TxInput) (rest : list TxInput) :
  inputEntries (input :: rest) = (inAssetID input, inAmount input) :: inputEntries rest.
Proof. reflexivity. Qed.

Lemma outputEntries_cons (output : TxOutput) (rest : list TxOutput) :
  outputEntries (output :: rest) = (outAssetID output, outAmount output) :: outputEntries rest.
Proof. reflexivity. Qed.

Lemma outputEntries_app (xs ys : list TxOutput) :
  outputEntries (xs ++ ys) = outputEntries xs ++ outputEntries ys.
Proof. unfold outputEntries. apply fmap_app. Qed.

Lemma inputEntries_app (xs ys : list TxInput) :
  inputEntries (xs ++ ys) = inputEntries xs ++ inputEntries ys.
Proof. unfold inputEntries. apply fmap_app. Qed.

Lemma scriptOutputs_cons (output : TxOutput) (rest : list TxOutput) :
  scriptOutputs (output :: rest)
  = if IsP2WMCScript (outControlProgram output) then output :: scriptOutputs rest
    else scriptOutputs rest.
Proof.
  unfold scriptOutputs. rewrite filter_cons.
  destruct (IsP2WMCScript (outControlProgram output));
    [by rewrite decide_True | by rewrite decide_False].
Qed.

Lemma payOutputs_cons (output : TxOutput) (rest : list TxOutput) :
  payOutputs (output :: rest)
  = if IsP2WMCScript (outControlProgram output) then payOutputs rest
    else output :: payOutputs rest.
Proof.
  unfold payOutputs. rewrite filter_cons.
  destruct (IsP2WMCScript (outControlProgram output));
    [by rewrite decide_False | by rewrite decide_True].
Qed.

Lemma payOutputs_app (xs ys : list TxOutput) :
  payOutputs (xs ++ ys) = payOutputs xs ++ payOutputs ys.
Proof. unfold payOutputs. apply filter_app. Qed.

(** Every output is a continuation or a payment. *)
Lemma totalOf_outputs_split (asset : AssetID) (outputs : list TxOutput) :
  totalOf asset (outputEntries outputs)
  = totalOf asset (outputEntries (scriptOutputs outputs))
    + totalOf asset (outputEntries (payOutputs outputs)).
Proof.
  induction outputs as [| output rest IH]; [done |].
  rewrite scriptOutputs_cons, payOutputs_cons, outputEntries_cons.
  destruct (IsP2WMCScript (outControlProgram output));
    rewrite outputEntries_cons; cbn [totalOf]; lia.
Qed.

(** *** The map of payable fees *)

Lemma feeMapTracks_ext (m : gmap AssetID feeAmount) (g g' : AssetID -> Z) :
  feeMapTracks m g -> (forall asset, g asset = g' asset) -> feeMapTracks m g'.
Proof.
  intros Htr Hext asset amount Hlk. rewrite <- Hext. by apply Htr.
Qed.

Lemma addPayable_tracks (m m' : gmap AssetID feeAmount) (assetID : AssetID)
    (delta delta' : Z) (g : AssetID -> Z) :
  feeMapTracks m g ->
  addPayable m assetID delta = Ok m' ->
  eqm64 delta delta' ->
  feeMapTracks m' (fun asset => g asset + (if decide (assetID = asset) then delta' else 0))
  /\ dom m' = dom m
  /\ assetID ∈ dom m.
Proof.
  intros Htr Hadd Heq. unfold addPayable in Hadd.
  destruct (m !! assetID) as [amount |] eqn:Hlk; [| done]. simplify_eq.
  pose proof (elem_of_dom_2 _ _ _ Hlk) as Hdom.
  split; [| split; [| done]].
  - intros asset amount'. rewrite lookup_insert.
    destruct (decide (assetID = asset)) as [<- | Hne].
    + intros [= <-]. cbn. destruct (Htr _ _ Hlk) as (Hpay & _ & Hcap).
      split_and!; [| apply wrap_s64_range | done].
      eapply eqm64_trans; [apply eqm64_wrap_s64 |]. by apply eqm64_add.
    + intros Hlk'. destruct (Htr _ _ Hlk') as (Hpay & Hrange & Hcap).
      rewrite Z.add_0_r. done.
  - rewrite dom_insert_L. apply subseteq_union_1_L. by apply singleton_subseteq_l.
Qed.

Lemma setMaxFee_tracks (m m' : gmap AssetID feeAmount) (assetID : AssetID) (v : Z)
    (g : AssetID -> Z) :
  feeMapTracks m g ->
  setMaxFee m assetID v = Ok m' ->
  0 <= v ->
  feeMapTracks m' g /\ dom m' = dom m.
Proof.
  intros Htr Hset Hv. unfold setMaxFee in Hset.
  destruct (m !! assetID) as [amount |] eqn:Hlk; [| done]. simplify_eq.
  pose proof (elem_of_dom_2 _ _ _ Hlk) as Hdom.
  split.
  - intros asset amount'. rewrite lookup_insert.
    destruct (decide (assetID = asset)) as [<- | Hne].
    + intros [= <-]. cbn. destruct (Htr _ _ Hlk) as (Hpay & Hrange & _). done.
    + apply Htr.
  - rewrite dom_insert_L. apply subseteq_union_1_L. by apply singleton_subseteq_l.
Qed.

Lemma initAssetAmountMap_lookup (inputs : list TxInput) (asset : AssetID) :
  initAssetAmountMap inputs !! asset
  = if decide (asset ∈ inAssetID <$> inputs) then Some (mkFeeAmount 0 0) else None.
Proof.
  unfold initAssetAmountMap.
  assert (forall m : gmap AssetID feeAmount,
             foldl (fun m input => <[inAssetID input := mkFeeAmount 0 0]> m) m inputs !! asset
             = if decide (asset ∈ inAssetID <$> inputs) then Some (mkFeeAmount 0 0)
               else m !! asset) as Hgen.
  { induction inputs as [| input rest IH]; intros m.
    - cbn. case_decide as Hin; [by apply elem_of_nil in Hin | done].
    - cbn [foldl]. rewrite IH, fmap_cons.
      destruct (decide (asset ∈ inAssetID <$> rest)) as [Hin | Hnin].
      + rewrite decide_True by (by right). done.
      + rewrite lookup_insert.
        destruct (decide (inAssetID input = asset)) as [<- | Hne].
        * rewrite decide_True by (by left). done.
        * rewrite decide_False; [done |]. intros [? | ?]%elem_of_cons; congruence. }
  rewrite Hgen. case_decide; [done | apply lookup_empty].
Qed.

Lemma initAssetAmountMap_tracks (inputs : list TxInput) :
  feeMapTracks (initAssetAmountMap inputs) (fun _ => 0).
Proof.
  intros asset amount. rewrite initAssetAmountMap_lookup.
  case_decide; [| done]. intros [= <-]. cbn. unfold is_s64. split_and!; first [done | lia].
Qed.

Lemma scanOutputs_tracks (outputs : list TxOutput) :
  forall (m m' : gmap AssetID feeAmount) (r r' : gmap string TxOutput) (g : AssetID -> Z),
    feeMapTracks m g ->
    scanOutputs outputs m r = Ok (m', r') ->
    feeMapTracks m'
      (fun asset => g asset - totalOf asset (outputEntries (scriptOutputs outputs)))
    /\ dom m' = dom m
    /\ Forall (fun output => outAssetID output ∈ dom m) (scriptOutputs outputs).
Proof.
  induction outputs as [| output rest IH]; intros m m' r r' g Htr Hscan.
  - cbn in Hscan. simplify_eq. split; [| split; [done | constructor]].
    apply (feeMapTracks_ext _ g); [done |]. intros asset.
    change (totalOf asset (outputEntries (scriptOutputs []))) with 0. lia.
  - cbn [scanOutputs] in Hscan. rewrite scriptOutputs_cons.
    destruct (IsP2WMCScript (outControlProgram output)).
    + destruct (addPayable m (outAssetID output) (- wrap_s64 (outAmount output)))
        as [m1 | |] eqn:Hadd; cbn in Hscan; [| done | done].
      destruct (addPayable_tracks _ _ _ _ (- outAmount output) _ Htr Hadd)
        as (Htr1 & Hdom1 & Hin1).
      { apply eqm64_opp, eqm64_wrap_s64. }
      destruct (IH _ _ _ _ _ Htr1 Hscan) as (Htr' & Hdom' & Hall).
      split; [| split].
      * apply (feeMapTracks_ext _ _ _ Htr'). intros asset.
        rewrite outputEntries_cons. cbn [totalOf]. case_decide; lia.
      * congruence.
      * constructor; [done |]. by rewrite <- Hdom1.
    + by apply (IH _ _ _ _ _ Htr Hscan).
Qed.

Lemma scanInputs_tracks (inputs : list TxInput) :
  forall (m m' : gmap AssetID feeAmount) (r : gmap string TxOutput) (g : AssetID -> Z),
    feeMapTracks m g ->
    scanInputs inputs m r = Ok m' ->
    exists receiveOutputs,
      Forall2 (fun input receiveOutput =>
                 exists contractArgs,
                   DecodeP2WMCProgram (inControlProgram input) = Ok contractArgs
                   /\ r !! SellerProgram contractArgs = Some receiveOutput)
        inputs receiveOutputs
      /\ feeMapTracks m'
           (fun asset => g asset + totalOf asset (inputEntries inputs)
                         - totalOf asset (outputEntries receiveOutputs))
      /\ dom m' = dom m
      /\ Forall (fun output => outAssetID output ∈ dom m) receiveOutputs.
Proof.
  induction inputs as [| input rest IH]; intros m m' r g Htr Hscan.
  - cbn in Hscan. simplify_eq. exists []. split; [constructor |].
    split; [| split; [done | constructor]].
    apply (feeMapTracks_ext _ g); [done |]. intros asset.
    change (totalOf asset (inputEntries [])) with 0.
    change (totalOf asset (outputEntries [])) with 0. lia.
  - cbn [scanInputs] in Hscan.
    destruct (DecodeP2WMCProgram (inControlProgram input)) as [contractArgs | |] eqn:Hdec;
      cbn in Hscan; [| done | done].
    destruct (addPayable m (inAssetID input) (wrap_s64 (inAmount input)))
      as [m1 | |] eqn:Hadd1; cbn in Hscan; [| done | done].
    destruct (r !! SellerProgram contractArgs) as [receiveOutput |] eqn:Hrecv; [| done].
    destruct (addPayable m1 (outAssetID receiveOutput) (- wrap_s64 (outAmount receiveOutput)))
      as [m2 | |] eqn:Hadd2; cbn in Hscan; [| done | done].
    destruct (CalcShouldPayAmount (outAmount receiveOutput) contractArgs)
      as [shouldPayAmount | |] eqn:Hsp; cbn in Hscan; [| done | done].
    destruct (CalcMaxFeeAmount shouldPayAmount) as [maxFee | |] eqn:Hmf;
      cbn in Hscan; [| done | done].
    destruct (setMaxFee m2 (inAssetID input) maxFee) as [m3 | |] eqn:Hset;
      cbn in Hscan; [| done | done].
    destruct (addPayable_tracks _ _ _ _ (inAmount input) _ Htr Hadd1)
      as (Htr1 & Hdom1 & Hin1); [apply eqm64_wrap_s64 |].
    destruct (addPayable_tracks _ _ _ _ (- outAmount receiveOutput) _ Htr1 Hadd2)
      as (Htr2 & Hdom2 & Hin2); [apply eqm64_opp, eqm64_wrap_s64 |].
    destruct (setMaxFee_tracks _ _ _ _ _ Htr2 Hset) as (Htr3 & Hdom3).
    { apply (CalcMaxFeeAmount_nonneg shouldPayAmount); [| done].
      by apply CalcShouldPayAmount_range in Hsp. }
    destruct (IH _ _ _ _ Htr3 Hscan) as (receiveOutputs & Hall & Htr' & Hdom' & Hdoms).
    exists (receiveOutput :: receiveOutputs). split; [| split; [| split]].
    + constructor; [| done]. by exists contractArgs.
    + apply (feeMapTracks_ext _ _ _ Htr'). intros asset.
      rewrite inputEntries_cons, outputEntries_cons. cbn [totalOf].
      repeat case_decide; lia.
    + congruence.
    + constructor; [by rewrite <- Hdom1 |].
      eapply Forall_impl; [apply Hdoms |]. intros o Ho. cbn in Ho. congruence.
Qed.

(** The payable fees that [CalcFeeFromMatchedTx] returns: for every asset,
    the inputs less the continuation outputs less the receive outputs
    found for the inputs, as a machine integer; assets with a zero
    difference have no entry. *)
Lemma CalcFeeFromMatchedTx_spec (txData : TxData) (feeMap : gmap AssetID feeAmount) :
  CalcFeeFromMatchedTx txData = Ok feeMap ->
  exists receiveOutputs,
    Forall2 (fun input receiveOutput =>
               exists contractArgs,
                 DecodeP2WMCProgram (inControlProgram input) = Ok contractArgs
                 /\ lastReceiveOutput (Outputs txData) (SellerProgram contractArgs) None
                    = Some receiveOutput)
      (Inputs txData) receiveOutputs
    /\ (forall asset amount,
          feeMap !! asset = Some amount ->
          payableFeeAmount amount <> 0
          /\ eqm64 (payableFeeAmount amount)
               (totalOf asset (inputEntries (Inputs txData))
                - totalOf asset (outputEntries (scriptOutputs (Outputs txData)))
                - totalOf asset (outputEntries receiveOutputs))
          /\ is_s64 (payableFeeAmount amount)
          /\ 0 <= maxFeeAmount amount)
    /\ (forall asset,
          feeMap !! asset = None ->
          eqm64 0
            (totalOf asset (inputEntries (Inputs txData))
             - totalOf asset (outputEntries (scriptOutputs (Outputs txData)))
             - totalOf asset (outputEntries receiveOutputs))).
Proof.
  unfold CalcFeeFromMatchedTx. intros Hcalc.
  destruct (scanOutputs (Outputs txData) (initAssetAmountMap (Inputs txData)) ∅)
    as [[m1 r1] | |] eqn:Hout; cbn in Hcalc; [| done | done].
  destruct (scanInputs (Inputs txData) m1 r1) as [m2 | |] eqn:Hin; cbn in Hcalc;
    [| done | done].
  simplify_eq.
  pose proof (scanOutputs_receive _ _ _ _ _ Hout) as Hr1.
  destruct (scanOutputs_tracks _ _ _ _ _ _ (initAssetAmountMap_tracks (Inputs txData)) Hout)
    as (Htr1 & Hdom1 & Hscripts).
  destruct (scanInputs_tracks _ _ _ _ _ Htr1 Hin) as (receiveOutputs & Hall & Htr2 & Hdom2 & Hrecv).
  exists receiveOutputs. split; [| split].
  - eapply Forall2_impl; [apply Hall |]. intros input recv (args & Hdec & Hlk).
    exists args. split; [done |]. by rewrite Hr1, lookup_empty in Hlk.
  - intros asset amount [Hlk Hnz]%map_lookup_filter_Some. cbn in Hnz.
    destruct (Htr2 _ _ Hlk) as (Hpay & Hrange & Hcap).
    split_and!; try done.
    eapply eqm64_trans; [apply Hpay |]. unfold eqm64. f_equal. lia.
  - intros asset Hnone.
    destruct (m2 !! asset) as [amount |] eqn:Hlk.
    + assert (payableFeeAmount amount = 0) as Hz.
      { apply map_lookup_filter_None in Hnone as [Hnone | Hnone]; [congruence |].
        specialize (Hnone amount Hlk). cbn in Hnone.
        destruct (Z.eq_dec (payableFeeAmount amount) 0); [done |]. by destruct Hnone. }
      destruct (Htr2 _ _ Hlk) as (Hpay & _). rewrite Hz in Hpay.
      eapply eqm64_trans; [apply Hpay |]. unfold eqm64. f_equal. lia.
    + assert (asset ∉ dom (initAssetAmountMap (Inputs txData))) as Hnotin.
      { rewrite <- Hdom1, <- Hdom2. by apply not_elem_of_dom. }
      rewrite !totalOf_none; [done | | |].
      * apply Forall_fmap, Forall_forall. intros recv Hrecv' Heq. cbn in Heq.
        rewrite Forall_forall in Hrecv. specialize (Hrecv recv Hrecv').
        rewrite Hdom1 in Hrecv. congruence.
      * apply Forall_fmap, Forall_forall. intros o Ho Heq. cbn in Heq.
        rewrite Forall_forall in Hscripts. specialize (Hscripts o Ho). congruence.
      * apply Forall_fmap, Forall_forall. intros input Hinput Heq. cbn in Heq.
        apply Hnotin, elem_of_dom. rewrite initAssetAmountMap_lookup.
        rewrite decide_True; [done |]. rewrite <- Heq. by apply list_elem_of_fmap_2.
Qed.

(** *** The fee outputs *)

Lemma sumZ_replicate (k : nat) (x : Z) : sumZ (replicate k x) = Z.of_nat k * x.
Proof.
  unfold sumZ. induction k as [| k IH]; [done |].
  cbn [replicate foldr]. rewrite IH. lia.
Qed.

Lemma sumZ_app (xs ys : list Z) : sumZ (xs ++ ys) = sumZ xs + sumZ ys.
Proof.
  unfold sumZ. induction xs as [| x xs IH]; [done |].
  cbn [app foldr]. rewrite IH. lia.
Qed.

Lemma sumZ_refundShares (reminder : Z) (participants : nat) :
  0 <= reminder -> sumZ (refundShares reminder participants) = reminder.
Proof.
  intros Hr. unfold refundShares.
  destruct (Z.ltb_spec reminder (Z.of_nat participants)) as [Hlt | Hge].
  - rewrite sumZ_replicate. lia.
  - rewrite sumZ_app, sumZ_replicate. unfold sumZ. cbn [foldr]. lia.
Qed.

(** The refund loop with a unit share and fewer units than recipients
    left: one unit to each of the first recipients. *)
Lemma refundFrom_units (inputsLen : nat) (feeAssetID : AssetID) (rest : list TxInput) :
  forall (i : nat) (reminder : Z) (outputs outputs' : list TxOutput),
    (i + length rest = inputsLen)%nat ->
    0 <= reminder < Z.of_nat (length rest) \/ (reminder = 0 /\ rest = []) ->
    reminder < 2 ^ 63 ->
    refundFrom inputsLen feeAssetID 1 i rest reminder outputs = Ok outputs' ->
    exists refunds,
      outputs' = outputs ++ refunds
      /\ outAmount <$> refunds = replicate (Z.to_nat reminder) 1
      /\ Forall2 (refundsTo feeAssetID) (take (length refunds) rest) refunds.
Proof.
  induction rest as [| input rest' IH]; intros i reminder outputs outputs' Hlen Hrem H63 Hrun.
  - cbn in Hrun. simplify_eq. exists []. rewrite app_nil_r.
    assert (reminder = 0) as -> by (cbn in Hrem; lia).
    split_and!; first [done | constructor].
  - destruct Hrem as [Hrem | [_ ?]]; [| done]. cbn [length] in *.
    cbn [refundFrom] in Hrun.
    destruct (Z.gtb_spec reminder 0) as [Hpos | Hzero].
    + destruct (DecodeP2WMCProgram (inControlProgram input)) as [contractArgs | |] eqn:Hdec;
        cbn in Hrun; [| done | done].
      destruct (Nat.eqb_spec i (inputsLen - 1)) as [Hlast | Hnotlast]; [lia |].
      rewrite (wrap_s64_id (reminder - 1)), (wrap_u64_id 1) in Hrun by lia.
      destruct (IH (S i) (reminder - 1) _ _ ltac:(lia) ltac:(lia) ltac:(lia) Hrun)
        as (refunds & -> & Hamounts & Hsellers).
      eexists (_ :: refunds). rewrite <- app_assoc. split; [done |]. split.
      * cbn [fmap list_fmap]. fold (fmap (M:=list) outAmount refunds). rewrite Hamounts.
        replace (Z.to_nat reminder) with (S (Z.to_nat (reminder - 1))) by lia. done.
      * cbn [length take]. constructor; [| done]. split; [done |]. by exists contractArgs.
    + simplify_eq. assert (reminder = 0) as -> by lia.
      exists []. rewrite app_nil_r. split_and!; first [done | constructor].
Qed.

(** The refund loop when the reminder covers a share for every recipient
    left: the share to all but the last, who takes the rest. *)
Lemma refundFrom_shares (inputsLen : nat) (feeAssetID : AssetID) (averageAmount : Z)
    (rest : list TxInput) :
  forall (i : nat) (reminder : Z) (outputs outputs' : list TxOutput),
    (i + length rest = inputsLen)%nat ->
    rest <> [] ->
    1 <= averageAmount ->
    Z.of_nat (length rest) * averageAmount <= reminder < 2 ^ 63 ->
    refundFrom inputsLen feeAssetID averageAmount i rest reminder outputs = Ok outputs' ->
    exists refunds,
      outputs' = outputs ++ refunds
      /\ outAmount <$> refunds
         = replicate (length rest - 1) averageAmount
             ++ [reminder - Z.of_nat (length rest - 1) * averageAmount]
      /\ Forall2 (refundsTo feeAssetID) rest refunds.
Proof.
  induction rest as [| input rest' IH];
    intros i reminder outputs outputs' Hlen Hne Havg Hrem Hrun; [done |].
  cbn [length] in *. cbn [refundFrom] in Hrun.
  destruct (Z.gtb_spec reminder 0) as [Hpos | Hzero]; [| nia].
  destruct (DecodeP2WMCProgram (inControlProgram input)) as [contractArgs | |] eqn:Hdec;
    cbn in Hrun; [| done | done].
  assert (refundsTo feeAssetID input
            (NewIntraChainOutput feeAssetID
               (wrap_u64 (if (i =? inputsLen - 1)%nat then reminder else averageAmount))
               (SellerProgram contractArgs))) as Hto.
  { split; [done |]. by exists contractArgs. }
  destruct rest' as [| input' rest''].
  - cbn in Hrun. simplify_eq.
    destruct (Nat.eqb_spec i (i + 1 - 1)) as [_ | Hnotlast]; [| cbn in *; lia].
    eexists [_]. split; [done |]. split.
    + cbn. rewrite wrap_u64_id by lia. f_equal. lia.
    + constructor; [done | constructor].
  - cbn [length] in *.
    destruct (Nat.eqb_spec i (inputsLen - 1)) as [Hlast | Hnotlast]; [lia |].
    rewrite (wrap_s64_id (reminder - averageAmount)) in Hrun by nia.
    rewrite (wrap_u64_id averageAmount) in Hrun, Hto by nia.
    destruct (IH (S i) (reminder - averageAmount) _ _ ltac:(cbn [length]; lia) ltac:(done)
                Havg ltac:(cbn [length]; nia) Hrun)
      as (refunds & -> & Hamounts & Hsellers).
    eexists (_ :: refunds). rewrite <- app_assoc. split; [done |]. split.
    + cbn [fmap list_fmap]. fold (fmap (M:=list) outAmount refunds). rewrite Hamounts.
      cbn [length]. replace (S (S (length rest'')) - 1)%nat with (S (length rest'')) by lia.
      replace (S (length rest'') - 1)%nat with (length rest'') by lia.
      cbn [replicate app outAmount NewIntraChainOutput]. do 3 f_equal. lia.
    + by constructor.
Qed.

(** The outputs that [addMatchTxFeeOutput] appends for one asset whose
    payable fee is not negative: the fee, capped, to the node, and the
    rest to the sellers in shares. *)
Lemma addFeeOutputsOf_spec (e : Engine) (txData txData' : TxData) (feeAssetID : AssetID)
    (amount : feeAmount) :
  0 <= payableFeeAmount amount < 2 ^ 63 ->
  0 <= maxFeeAmount amount ->
  addFeeOutputsOf e txData feeAssetID amount = Ok txData' ->
  let fee := Z.min (payableFeeAmount amount) (maxFeeAmount amount) in
  exists refunds,
    Inputs txData' = Inputs txData
    /\ Outputs txData'
       = Outputs txData ++ NewIntraChainOutput feeAssetID fee (nodeProgram e) :: refunds
    /\ outAmount <$> refunds
       = refundShares (payableFeeAmount amount - fee) (length (Inputs txData))
    /\ Forall2 (refundsTo feeAssetID) (take (length refunds) (Inputs txData)) refunds.
Proof.
  intros Hpay Hmax Hrun fee. unfold addFeeOutputsOf in Hrun.
  set (payable := payableFeeAmount amount) in *.
  set (cap := maxFeeAmount amount) in *.
  set (n := length (Inputs txData)) in *.
  assert ((if payable >? cap then cap else payable) = fee) as Hfee.
  { unfold fee. destruct (Z.gtb_spec payable cap); lia. }
  assert ((if payable >? cap then wrap_s64 (payable - cap) else 0) = payable - fee) as Hrem.
  { unfold fee. destruct (Z.gtb_spec payable cap); [rewrite wrap_s64_id |]; lia. }
  rewrite Hfee, Hrem in Hrun. clear Hfee Hrem.
  set (reminder := payable - fee) in *.
  assert (0 <= reminder < 2 ^ 63) as Hr by (unfold reminder, fee; lia).
  rewrite (wrap_u64_id fee) in Hrun by (unfold fee; lia).
  unfold div_s64 in Hrun.
  destruct (Z.eqb_spec (Z.of_nat n) 0) as [Hn0 | Hn0]; [done |]. cbn in Hrun.
  rewrite Z.quot_div_nonneg in Hrun by lia.
  assert (0 <= reminder / Z.of_nat n <= reminder) as Hq.
  { split; [apply Z.div_pos; lia |]. apply Z.div_le_upper_bound; [lia |].
    rewrite <- (Z.mul_1_l reminder) at 1. apply Z.mul_le_mono_nonneg_r; lia. }
  rewrite (wrap_s64_id (reminder / Z.of_nat n)) in Hrun by lia.
  destruct (refundFrom n feeAssetID _ 0 (Inputs txData) reminder _) as [outputs | |] eqn:Hloop;
    cbn in Hrun; [| done | done].
  simplify_eq. cbn [Inputs Outputs TxData_setOutputs].
  unfold refundShares. fold n.
  destruct (Z.ltb_spec reminder (Z.of_nat n)) as [Hlt | Hge].
  - rewrite Z.div_small in Hloop by lia. cbn in Hloop.
    assert (0 <= reminder < Z.of_nat (length (Inputs txData))
            \/ reminder = 0 /\ Inputs txData = []) as Hunits by (left; fold n; lia).
    destruct (refundFrom_units n feeAssetID (Inputs txData) 0 reminder _ _
                ltac:(done) Hunits ltac:(lia) Hloop)
      as (refunds & -> & Hamounts & Hsellers).
    exists refunds. rewrite <- app_assoc. done.
  - assert (1 <= reminder / Z.of_nat n) as Havg.
    { apply Z.div_le_lower_bound; lia. }
    destruct (Z.eqb_spec (reminder / Z.of_nat n) 0) as [Hz | _]; [lia |].
    assert (Z.of_nat n * (reminder / Z.of_nat n) <= reminder) as Hmul
      by (apply Z.mul_div_le; lia).
    assert (Inputs txData <> []) as Hne.
    { intros Hnil. unfold n in Hn0. rewrite Hnil in Hn0. done. }
    assert (Z.of_nat (length (Inputs txData)) * (reminder / Z.of_nat n) <= reminder < 2 ^ 63)
      as Hcover by (fold n; lia).
    destruct (refundFrom_shares n feeAssetID _ (Inputs txData) 0 reminder _ _
                ltac:(done) Hne Havg Hcover Hloop)
      as (refunds & -> & Hamounts & Hsellers).
    exists refunds. rewrite <- app_assoc. split_and!; try done.
    rewrite <- (Forall2_length _ _ _ Hsellers), firstn_all. done.
Qed.

Lemma totalOf_same_asset (asset other : AssetID) (outputs : list TxOutput) :
  Forall (fun output => outAssetID output = asset) outputs ->
  totalOf other (outputEntries outputs)
  = if decide (asset = other) then sumZ (outAmount <$> outputs) else 0.
Proof.
  induction 1 as [| output rest Ho _ IH].
  - by case_decide.
  - rewrite outputEntries_cons. cbn [totalOf]. rewrite IH, Ho.
    rewrite fmap_cons. unfold sumZ. cbn [foldr]. case_decide; lia.
Qed.

Lemma refundsTo_asset (asset : AssetID) (inputs : list TxInput) (refunds : list TxOutput) :
  Forall2 (refundsTo asset) inputs refunds ->
  Forall (fun output => outAssetID output = asset) refunds.
Proof.
  induction 1 as [| input output inputs refunds [Hasset _] _ IH]; constructor; done.
Qed.

(** The fee outputs of a list of entries add the payable fee of every
    entry to the outputs of its asset, and leave the inputs alone. *)
Lemma addFeeOutputsFrom_spec (e : Engine) (entries : list (AssetID * feeAmount)) :
  forall txData txData' : TxData,
    Forall (fun entry => 0 <= payableFeeAmount entry.2 < 2 ^ 63
                         /\ 0 <= maxFeeAmount entry.2) entries ->
    addFeeOutputsFrom e entries txData = Ok txData' ->
    Inputs txData' = Inputs txData
    /\ exists feeOutputs,
        Outputs txData' = Outputs txData ++ feeOutputs
        /\ forall asset,
            totalOf asset (outputEntries feeOutputs) = totalOf asset (payableEntries entries).
Proof.
  induction entries as [| [feeAssetID amount] rest IH]; intros txData txData' Hrange Hrun.
  - cbn in Hrun. simplify_eq. split; [done |]. exists []. by rewrite app_nil_r.
  - apply Forall_cons in Hrange as [[Hpay Hcap] Hrest]. cbn in Hpay, Hcap.
    cbn [addFeeOutputsFrom] in Hrun.
    destruct (addFeeOutputsOf e txData feeAssetID amount) as [txData1 | |] eqn:Hone;
      cbn in Hrun; [| done | done].
    destruct (addFeeOutputsOf_spec _ _ _ _ _ Hpay Hcap Hone)
      as (refunds & Hinputs & Houtputs & Hamounts & Hsellers).
    destruct (IH _ _ Hrest Hrun) as (Hinputs' & feeOutputs & Houtputs' & Htotals).
    split; [congruence |].
    eexists (_ :: refunds ++ feeOutputs).
    split.
    { rewrite Houtputs', Houtputs, <- app_assoc. done. }
    intros asset. rewrite outputEntries_cons, outputEntries_app.
    cbn [totalOf outAssetID outAmount NewIntraChainOutput payableEntries fmap list_fmap fst snd].
    fold (payableEntries rest). rewrite totalOf_app, Htotals.
    rewrite (totalOf_same_asset feeAssetID) by (by eapply refundsTo_asset).
    rewrite Hamounts, sumZ_refundShares by lia. case_decide; lia.
Qed.

Lemma totalOf_payableEntries_absent (asset : AssetID)
    (entries : list (AssetID * feeAmount)) :
  asset ∉ entries.*1 -> totalOf asset (payableEntries entries) = 0.
Proof.
  induction entries as [| [a amount] rest IH]; intros Hnotin; [done |].
  cbn [payableEntries fmap list_fmap totalOf fst snd]. fold (payableEntries rest).
  rewrite fmap_cons, not_elem_of_cons in Hnotin. destruct Hnotin as [Hne Hrest].
  cbn in Hne. rewrite decide_False by congruence. rewrite IH by done. lia.
Qed.

Lemma totalOf_payableEntries_present (asset : AssetID) (amount : feeAmount)
    (entries : list (AssetID * feeAmount)) :
  NoDup entries.*1 -> (asset, amount) ∈ entries ->
  totalOf asset (payableEntries entries) = payableFeeAmount amount.
Proof.
  induction entries as [| [a amount'] rest IH]; intros Hnodup Hin.
  - by apply elem_of_nil in Hin.
  - cbn [payableEntries fmap list_fmap totalOf fst snd]. fold (payableEntries rest).
    rewrite fmap_cons in Hnodup. apply NoDup_cons in Hnodup as [Hnotin Hnodup].
    apply elem_of_cons in Hin as [Heq | Hin].
    + simplify_eq. rewrite decide_True by done.
      rewrite totalOf_payableEntries_absent by done. lia.
    + assert (a <> asset) as Hne.
      { intros ->. apply Hnotin. by apply (list_elem_of_fmap_2 fst) in Hin. }
      rewrite decide_False by done. rewrite IH by done. lia.
Qed.

Lemma totalOf_fee_map (asset : AssetID) (feeMap : gmap AssetID feeAmount) :
  totalOf asset (payableEntries (map_to_list feeMap))
  = match feeMap !! asset with
    | Some amount => payableFeeAmount amount
    | None => 0
    end.
Proof.
  destruct (feeMap !! asset) as [amount |] eqn:Hlk.
  - apply totalOf_payableEntries_present.
    + apply NoDup_fst_map_to_list.
    + by apply elem_of_map_to_list.
  - apply totalOf_payableEntries_absent.
    intros ([a amount] & Heq & Hin)%list_elem_of_fmap. cbn in Heq. subst a.
    apply elem_of_map_to_list in Hin. congruence.
Qed.

(** *** The receive outputs of a transaction built by the engine *)

Lemma lastReceiveOutput_found (outputs : list TxOutput) (program : Program) :
  forall found : option TxOutput,
    Forall (fun output => outControlProgram output <> program) (payOutputs outputs) ->
    lastReceiveOutput outputs program found = found.
Proof.
  induction outputs as [| output rest IH]; intros found Hnone; [done |].
  cbn [lastReceiveOutput]. rewrite payOutputs_cons in Hnone.
  destruct (IsP2WMCScript (outControlProgram output)); cbn [negb andb].
  - by apply IH.
  - apply Forall_cons in Hnone as [Hne Hrest].
    rewrite bool_decide_false by done. by apply IH.
Qed.

Lemma lastReceiveOutput_unique (outputs : list TxOutput) (output : TxOutput) :
  forall found : option TxOutput,
    NoDup (outControlProgram <$> payOutputs outputs) ->
    output ∈ payOutputs outputs ->
    lastReceiveOutput outputs (outControlProgram output) found = Some output.
Proof.
  induction outputs as [| output' rest IH]; intros found Hnodup Hin.
  - by apply elem_of_nil in Hin.
  - cbn [lastReceiveOutput]. rewrite payOutputs_cons in Hnodup, Hin.
    destruct (IsP2WMCScript (outControlProgram output')); cbn [negb andb].
    + by apply IH.
    + rewrite fmap_cons in Hnodup. apply NoDup_cons in Hnodup as [Hnotin Hnodup].
      apply elem_of_cons in Hin as [-> | Hin].
      * rewrite bool_decide_true by done. apply lastReceiveOutput_found.
        apply Forall_forall. intros o Ho Heq. apply Hnotin.
        rewrite <- Heq. by apply list_elem_of_fmap_2.
      * by apply IH.
Qed.

(** With one payment per input, to pairwise different seller programs, the
    receive output found for an input is its own payment. *)
Lemma receiveOutputs_are_payments (outputs : list TxOutput) :
  NoDup (outControlProgram <$> payOutputs outputs) ->
  forall (inputs : list TxInput) (payments receiveOutputs : list TxOutput),
    Forall2 paysSellerOf inputs payments ->
    payments ⊆ payOutputs outputs ->
    Forall2 (fun input receiveOutput =>
               exists contractArgs,
                 DecodeP2WMCProgram (inControlProgram input) = Ok contractArgs
                 /\ lastReceiveOutput outputs (SellerProgram contractArgs) None
                    = Some receiveOutput)
      inputs receiveOutputs ->
    receiveOutputs = payments.
Proof.
  intros Hnodup inputs payments receiveOutputs Hpay.
  revert receiveOutputs.
  induction Hpay as [| input payment inputs payments (args & Hdec & Hprog) _ IH];
    intros receiveOutputs Hsub Hrecv.
  - by apply Forall2_nil_inv_l in Hrecv.
  - apply Forall2_cons_inv_l in Hrecv as (recv & rest & (args' & Hdec' & Hlast) & Hrest & ->).
    rewrite Hdec in Hdec'. simplify_eq.
    rewrite <- Hprog, lastReceiveOutput_unique in Hlast; [| done | apply Hsub; by left].
    simplify_eq. f_equal. apply IH; [| done].
    intros o Ho. apply Hsub. by right.
Qed.

(** *** The legs of a transaction built by the engine *)

Lemma addMatchTxOutput_spec (txData txData' : TxData) (inputIdx : nat) (order : Order)
    (oppositeAmount : Z) :
  addMatchTxOutput txData inputIdx order oppositeAmount = Ok txData' ->
  exists contractArgs shouldPayAmount outputs arguments,
    legOutputsOf order oppositeAmount contractArgs shouldPayAmount outputs
    /\ Outputs txData' = Outputs txData ++ outputs
    /\ Inputs txData'
       = alter (fun txInput => SetArguments txInput arguments) inputIdx (Inputs txData).
Proof.
  unfold addMatchTxOutput. intros Hrun.
  destruct (DecodeP2WMCProgram (utxoControlProgram (Utxo order))) as [contractArgs | |]
    eqn:Hdec; cbn in Hrun; [| done | done].
  destruct (calcRequestAmount (utxoAmount (Utxo order)) contractArgs) as [requestAmount | |]
    eqn:Hreq; cbn in Hrun; [| done | done].
  destruct (CalcShouldPayAmount (MinUint64 requestAmount oppositeAmount) contractArgs)
    as [shouldPayAmount | |] eqn:Hsp; cbn in Hrun; [| done | done].
  simplify_eq. cbn [Outputs Inputs TxData_setOutputs TxData_setInputs].
  eexists contractArgs, shouldPayAmount, _, _. split; [| split].
  - exists requestAmount. split_and!; done.
  - destruct (utxoAmount (Utxo order) >? shouldPayAmount); [| done].
    by rewrite <- app_assoc.
  - unfold setMatchTxArguments. reflexivity.
Qed.

(** The first loop of [buildMatchTx] appends an input per order, which
    spends it, and the outputs of its leg. *)
Lemma buildMatchTxFrom_spec (orders : list Order) :
  forall (rest : list Order) (i : nat) (txData txData' : TxData),
    buildMatchTxFrom orders i rest txData = Ok txData' ->
    exists inputs' outputs',
      Inputs txData' = Inputs txData ++ inputs'
      /\ Outputs txData' = Outputs txData ++ outputs'
      /\ Forall2 spends rest inputs'
      /\ forall (j : nat) (order : Order),
          rest !! j = Some order ->
          exists oppositeOrder contractArgs shouldPayAmount outputs,
            orders !! getOppositeIndex (length orders) (i + j) = Some oppositeOrder
            /\ legOutputsOf order (utxoAmount (Utxo oppositeOrder)) contractArgs
                 shouldPayAmount outputs
            /\ outputs ⊆ outputs'.
Proof.
  induction rest as [| order rest IH]; intros i txData txData' Hrun.
  - cbn in Hrun. simplify_eq. exists [], []. rewrite !app_nil_r.
    split_and!; [done | done | constructor |]. intros j order Hj. done.
  - cbn [buildMatchTxFrom] in Hrun.
    destruct (index orders (getOppositeIndex (length orders) i)) as [oppositeOrder | |]
      eqn:Hopp; cbn in Hrun; [| done | done].
    apply index_Ok in Hopp.
    match type of Hrun with
    | context [addMatchTxOutput ?t ?k order ?a] =>
        destruct (addMatchTxOutput t k order a) as [txData1 | |] eqn:Hadd
    end; cbn in Hrun; [| done | done].
    destruct (addMatchTxOutput_spec _ _ _ _ _ Hadd)
      as (contractArgs & shouldPayAmount & outputs & arguments & Hleg & Houts & Hins).
    cbn [Inputs Outputs TxData_setInputs] in Houts, Hins.
    rewrite length_app in Hins. cbn [length] in Hins.
    replace (length (Inputs txData) + 1 - 1)%nat with (length (Inputs txData) + 0)%nat
      in Hins by lia.
    rewrite alter_app_r in Hins. cbn in Hins.
    destruct (IH _ _ _ Hrun) as (inputs' & outputs' & Hins' & Houts' & Hspends & Hlegs).
    eexists (_ :: inputs'), (outputs ++ outputs'). split_and!.
    + rewrite Hins', Hins, <- app_assoc. done.
    + rewrite Houts', Houts, <- app_assoc. done.
    + constructor; [| done]. split_and!; done.
    + intros [| j] order' Hj.
      * cbn in Hj. simplify_eq. rewrite Nat.add_0_r.
        exists oppositeOrder, contractArgs, shouldPayAmount, outputs.
        split_and!; [done | done |]. intros o Ho. apply elem_of_app. by left.
      * cbn in Hj. destruct (Hlegs j order' Hj) as (opp' & args' & sp' & outs' & ? & ? & Hsub).
        exists opp', args', sp', outs'.
        replace (i + S j)%nat with (S i + j)%nat by lia.
        split_and!; [done | done |]. intros o Ho. apply elem_of_app. right. by apply Hsub.
Qed.

(** With scripted orders, the payments among the outputs of the first loop
    are the receive outputs, one per input and in the order of the inputs. *)
Lemma buildMatchTxFrom_payments (orders : list Order) :
  forall (rest : list Order) (i : nat) (txData txData' : TxData),
    Forall scriptedOrder rest ->
    buildMatchTxFrom orders i rest txData = Ok txData' ->
    Forall2 paysSellerOf (Inputs txData) (payOutputs (Outputs txData)) ->
    Forall2 paysSellerOf (Inputs txData') (payOutputs (Outputs txData')).
Proof.
  induction rest as [| order rest IH]; intros i txData txData' Hscripted Hrun Hpay.
  - cbn in Hrun. by simplify_eq.
  - apply Forall_cons in Hscripted as [[Hscript Hseller] Hscripted].
    cbn [buildMatchTxFrom] in Hrun.
    destruct (index orders (getOppositeIndex (length orders) i)) as [oppositeOrder | |];
      cbn in Hrun; [| done | done].
    match type of Hrun with
    | context [addMatchTxOutput ?t ?k order ?a] =>
        destruct (addMatchTxOutput t k order a) as [txData1 | |] eqn:Hadd
    end; cbn in Hrun; [| done | done].
    destruct (addMatchTxOutput_spec _ _ _ _ _ Hadd)
      as (contractArgs & shouldPayAmount & outputs & arguments & Hleg & Houts & Hins).
    cbn [Inputs Outputs TxData_setInputs] in Houts, Hins.
    rewrite length_app in Hins. cbn [length] in Hins.
    replace (length (Inputs txData) + 1 - 1)%nat with (length (Inputs txData) + 0)%nat
      in Hins by lia.
    rewrite alter_app_r in Hins. cbn in Hins.
    apply (IH _ _ _ Hscripted Hrun).
    rewrite Hins, Houts, payOutputs_app.
    apply Forall2_app; [done |].
    destruct Hleg as (requestAmount & Hdec & _ & _ & ->).
    specialize (Hseller _ Hdec).
    rewrite payOutputs_cons. cbn [outControlProgram NewIntraChainOutput]. rewrite Hseller.
    assert (forall cont : list TxOutput,
              Forall (fun o => outControlProgram o = utxoControlProgram (Utxo order)) cont ->
              payOutputs cont = []) as Hcont.
    { induction 1 as [| o cont Ho _ IHc]; [done |].
      rewrite payOutputs_cons, Ho, Hscript. done. }
    rewrite Hcont.
    + constructor; [| constructor]. exists contractArgs. done.
    + destruct (utxoAmount (Utxo order) >? shouldPayAmount); repeat constructor.
Qed.

(** The programs of the payments to the sellers of [orders]. *)
Lemma payments_programs (orders : list Order) (inputs : list TxInput)
    (payments : list TxOutput) (sellers : list Program) :
  Forall2 spends orders inputs ->
  Forall2 paysSellerOf inputs payments ->
  sellersOf orders sellers ->
  outControlProgram <$> payments = sellers.
Proof.
  intros Hspends. revert payments sellers.
  induction Hspends as [| order input orders inputs (_ & _ & Hprog) _ IH];
    intros payments sellers Hpay Hsellers.
  - apply Forall2_nil_inv_l in Hpay. apply Forall2_nil_inv_l in Hsellers. by subst.
  - apply Forall2_cons_inv_l in Hpay as (payment & payments' & (args & Hdec & Hp) & Hpay & ->).
    apply Forall2_cons_inv_l in Hsellers
      as (seller & sellers' & (args' & Hdec' & Hs) & Hsellers & ->).
    rewrite Hprog, Hdec' in Hdec. simplify_eq.
    rewrite fmap_cons, Hp. f_equal. by apply IH.
Qed.

(** The fee outputs are appended: the outputs so far stay, and so do the
    inputs. *)
Lemma refundFrom_prefix (inputsLen : nat) (feeAssetID : AssetID) (averageAmount : Z)
    (rest : list TxInput) :
  forall (i : nat) (reminder : Z) (outputs outputs' : list TxOutput),
    refundFrom inputsLen feeAssetID averageAmount i rest reminder outputs = Ok outputs' ->
    exists more, outputs' = outputs ++ more.
Proof.
  induction rest as [| input rest IH]; intros i reminder outputs outputs' Hrun.
  - cbn in Hrun. simplify_eq. exists []. by rewrite app_nil_r.
  - cbn [refundFrom] in Hrun. destruct (reminder >? 0).
    + destruct (DecodeP2WMCProgram (inControlProgram input)) as [args | |];
        cbn in Hrun; [| done | done].
      destruct (IH _ _ _ _ Hrun) as (more & ->).
      eexists. by rewrite <- app_assoc.
    + simplify_eq. exists []. by rewrite app_nil_r.
Qed.

Lemma addFeeOutputsFrom_prefix (e : Engine) (entries : list (AssetID * feeAmount)) :
  forall txData txData' : TxData,
    addFeeOutputsFrom e entries txData = Ok txData' ->
    Inputs txData' = Inputs txData
    /\ exists feeOutputs, Outputs txData' = Outputs txData ++ feeOutputs.
Proof.
  induction entries as [| [feeAssetID amount] rest IH]; intros txData txData' Hrun.
  - cbn in Hrun. simplify_eq. split; [done |]. exists []. by rewrite app_nil_r.
  - cbn [addFeeOutputsFrom] in Hrun.
    destruct (addFeeOutputsOf e txData feeAssetID amount) as [txData1 | |] eqn:Hone;
      cbn in Hrun; [| done | done].
    destruct (IH _ _ Hrun) as (Hins & feeOutputs & Houts).
    unfold addFeeOutputsOf in Hone.
    match type of Hone with
    | context [div_s64 ?a ?b] => destruct (div_s64 a b) as [average | |]
    end; cbn in Hone; [| done | done].
    match type of Hone with
    | context [refundFrom ?a ?b ?c ?d ?f ?g ?h] =>
        destruct (refundFrom a b c d f g h) as [outputs1 | |] eqn:Hrefund
    end; cbn in Hone; [| done | done].
    apply refundFrom_prefix in Hrefund as (more & ->). simplify_eq.
    cbn [Inputs Outputs TxData_setOutputs] in *. split; [done |].
    eexists. rewrite Houts, <- !app_assoc. done.
Qed.

(** What [buildMatchTx] does: the legs, then the fee outputs, then the
    size. *)
Lemma buildMatchTx_stages (e : Engine) (orders : list Order) (tx : Tx) :
  buildMatchTx e orders = Ok tx ->
  exists (txData0 txData1 : TxData) (feeMap : gmap AssetID feeAmount),
    buildMatchTxFrom orders 0 orders (mkTxData 1 0 [] []) = Ok txData0
    /\ CalcFeeFromMatchedTx txData0 = Ok feeMap
    /\ addFeeOutputsFrom e (map_to_list feeMap) txData0 = Ok txData1
    /\ Inputs tx = Inputs txData1
    /\ Outputs tx = Outputs txData1.
Proof.
  unfold buildMatchTx, addMatchTxFeeOutput. intros Hrun.
  destruct (buildMatchTxFrom orders 0 orders (mkTxData 1 0 [] [])) as [txData0 | |]
    eqn:Hlegs; cbn in Hrun; [| done | done].
  destruct (CalcFeeFromMatchedTx txData0) as [feeMap | |] eqn:Hfee;
    cbn in Hrun; [| done | done].
  destruct (addFeeOutputsFrom e (map_to_list feeMap) txData0) as [txData1 | |] eqn:Hfees;
    cbn in Hrun; [| done | done].
  destruct (MarshalText txData1) as [byteData | |]; cbn in Hrun; [| done | done].
  simplify_eq. exists txData0, txData1, feeMap. split_and!; done.
Qed.

(** A transaction that [NextMatchedTx] returns was built from the orders
    at the head of the ring. *)
Lemma NextMatchedTx_built (e e' : Engine) (tradePairs : list TradePair) (tx : Tx) :
  NextMatchedTx e tradePairs = (e', Ok tx) ->
  buildMatchTx e (peekOrders e tradePairs) = Ok tx
  /\ addPartialTradeOrder tx (foldl PopOrder (orderTable e) tradePairs)
     = (orderTable e', Ok tt).
Proof.
  unfold NextMatchedTx. intros Hnext.
  destruct (validateTradePairs tradePairs) as [[] | |]; [| congruence | congruence].
  destruct (length (peekOrders e tradePairs) =? 0)%nat; [congruence |].
  destruct (buildMatchTx e (peekOrders e tradePairs)) as [tx' | |] eqn:Hbuild;
    [| congruence | congruence].
  destruct (addPartialTradeOrder tx' (foldl PopOrder (orderTable e) tradePairs))
    as [table' [[] | |]] eqn:Hadd; simplify_eq.
  done.
Qed.

(** *** The cap of the fee *)

Lemma addPayable_maxFee (m m' : gmap AssetID feeAmount) (assetID : AssetID) (delta : Z) :
  addPayable m assetID delta = Ok m' ->
  forall asset, maxFeeAmount <$> m' !! asset = maxFeeAmount <$> m !! asset.
Proof.
  unfold addPayable. intros Hadd asset.
  destruct (m !! assetID) as [amount |] eqn:Hlk; [| done]. simplify_eq.
  destruct (decide (asset = assetID)) as [-> | Hne].
  - by rewrite lookup_insert_eq, Hlk.
  - by rewrite lookup_insert_ne.
Qed.

Lemma setMaxFee_lookup (m m' : gmap AssetID feeAmount) (assetID : AssetID) (v : Z) :
  setMaxFee m assetID v = Ok m' ->
  maxFeeAmount <$> m' !! assetID = Some v
  /\ forall asset, asset <> assetID -> m' !! asset = m !! asset.
Proof.
  unfold setMaxFee. intros Hset.
  destruct (m !! assetID) as [amount |] eqn:Hlk; [| done]. simplify_eq. split.
  - by rewrite lookup_insert_eq.
  - intros asset Hne. by rewrite lookup_insert_ne.
Qed.

(** The cap that the third loop leaves for an asset was computed for an
    input of that asset, or is the one the map held before. *)
Lemma scanInputs_maxFee (inputs : list TxInput) :
  forall (m m' : gmap AssetID feeAmount) (r : gmap string TxOutput),
    scanInputs inputs m r = Ok m' ->
    forall (asset : AssetID) (cap : Z),
      maxFeeAmount <$> m' !! asset = Some cap ->
      (exists input contractArgs receiveOutput shouldPayAmount,
          input ∈ inputs
          /\ inAssetID input = asset
          /\ DecodeP2WMCProgram (inControlProgram input) = Ok contractArgs
          /\ r !! SellerProgram contractArgs = Some receiveOutput
          /\ CalcShouldPayAmount (outAmount receiveOutput) contractArgs = Ok shouldPayAmount
          /\ CalcMaxFeeAmount shouldPayAmount = Ok cap)
      \/ ((asset ∉ inAssetID <$> inputs) /\ maxFeeAmount <$> m !! asset = Some cap).
Proof.
  induction inputs as [| input rest IH]; intros m m' r Hscan asset cap Hcap.
  - cbn in Hscan. simplify_eq. right. split; [apply not_elem_of_nil | done].
  - cbn [scanInputs] in Hscan.
    destruct (DecodeP2WMCProgram (inControlProgram input)) as [args | |] eqn:Hdec;
      cbn in Hscan; [| done | done].
    destruct (addPayable m (inAssetID input) (wrap_s64 (inAmount input))) as [m1 | |]
      eqn:Hm1; cbn in Hscan; [| done | done].
    destruct (r !! SellerProgram args) as [recv |] eqn:Hrecv; [| done].
    destruct (addPayable m1 (outAssetID recv) (- wrap_s64 (outAmount recv))) as [m2 | |]
      eqn:Hm2; cbn in Hscan; [| done | done].
    destruct (CalcShouldPayAmount (outAmount recv) args) as [sp | |] eqn:Hsp;
      cbn in Hscan; [| done | done].
    destruct (CalcMaxFeeAmount sp) as [maxFee | |] eqn:Hmax; cbn in Hscan; [| done | done].
    destruct (setMaxFee m2 (inAssetID input) maxFee) as [m3 | |] eqn:Hm3;
      cbn in Hscan; [| done | done].
    destruct (setMaxFee_lookup _ _ _ _ Hm3) as [Hset Hother].
    destruct (IH _ _ _ Hscan asset cap Hcap)
      as [(input' & args' & recv' & sp' & Hin & ?) | [Hnotin Hcap3]].
    + left. exists input', args', recv', sp'. split; [by right | done].
    + destruct (decide (asset = inAssetID input)) as [-> | Hne].
      * left. exists input, args, recv, sp. rewrite Hset in Hcap3. simplify_eq.
        split_and!; first [done | by left].
      * right. split.
        { rewrite fmap_cons, not_elem_of_cons. done. }
        rewrite Hother in Hcap3 by done.
        by rewrite (addPayable_maxFee _ _ _ _ Hm2), (addPayable_maxFee _ _ _ _ Hm1) in Hcap3.
Qed.

(** Every entry of the fee map has the cap of an input of its asset. *)
Lemma CalcFeeFromMatchedTx_cap (txData : TxData) (feeMap : gmap AssetID feeAmount)
    (asset : AssetID) (amount : feeAmount) :
  CalcFeeFromMatchedTx txData = Ok feeMap ->
  feeMap !! asset = Some amount ->
  capOf txData asset (maxFeeAmount amount).
Proof.
  unfold CalcFeeFromMatchedTx. intros Hcalc Hlk.
  destruct (scanOutputs (Outputs txData) (initAssetAmountMap (Inputs txData)) ∅)
    as [[m1 r1] | |] eqn:Hout; cbn in Hcalc; [| done | done].
  destruct (scanInputs (Inputs txData) m1 r1) as [m2 | |] eqn:Hin; cbn in Hcalc;
    [| done | done].
  simplify_eq. apply map_lookup_filter_Some in Hlk as [Hlk _].
  pose proof (scanOutputs_receive _ _ _ _ _ Hout) as Hr1.
  destruct (scanOutputs_tracks _ _ _ _ _ _ (initAssetAmountMap_tracks (Inputs txData)) Hout)
    as (_ & Hdom1 & _).
  destruct (scanInputs_maxFee _ _ _ _ Hin asset (maxFeeAmount amount))
    as [(input & args & recv & sp & Hmem & Hasset & Hdec & Hrecv & Hsp & Hmax)
       | [Hnotin Hcap]].
  - by rewrite Hlk.
  - exists input, args, recv, sp. rewrite Hr1, lookup_empty in Hrecv. split_and!; done.
  - assert (asset ∈ dom (initAssetAmountMap (Inputs txData))) as Hdom.
    { rewrite <- Hdom1. apply elem_of_dom.
      destruct (m1 !! asset); [done | by cbn in Hcap]. }
    apply elem_of_dom in Hdom as [amount0 Hinit].
    rewrite initAssetAmountMap_lookup in Hinit. by case_decide.
Qed.

(** The fee outputs, entry by entry. *)
Lemma addFeeOutputsFrom_blocks (e : Engine) (entries : list (AssetID * feeAmount)) :
  forall txData txData' : TxData,
    Forall (fun entry => 0 <= payableFeeAmount entry.2 < 2 ^ 63
                         /\ 0 <= maxFeeAmount entry.2) entries ->
    addFeeOutputsFrom e entries txData = Ok txData' ->
    exists blocks,
      Outputs txData' = Outputs txData ++ concat blocks
      /\ Forall2 (feeOutputsOf e (Inputs txData)) entries blocks.
Proof.
  induction entries as [| [feeAssetID amount] rest IH]; intros txData txData' Hrange Hrun.
  - cbn in Hrun. simplify_eq. exists []. cbn. rewrite app_nil_r. split; [done | constructor].
  - apply Forall_cons in Hrange as [[Hpay Hcap] Hrest]. cbn in Hpay, Hcap.
    cbn [addFeeOutputsFrom] in Hrun.
    destruct (addFeeOutputsOf e txData feeAssetID amount) as [txData1 | |] eqn:Hone;
      cbn in Hrun; [| done | done].
    destruct (addFeeOutputsOf_spec _ _ _ _ _ Hpay Hcap Hone)
      as (refunds & Hinputs & Houtputs & Hamounts & Hsellers).
    destruct (IH _ _ Hrest Hrun) as (blocks & Houtputs' & Hblocks).
    eexists (_ :: blocks). split.
    + rewrite Houtputs', Houtputs, <- app_assoc. cbn [concat]. done.
    + constructor; [| by rewrite <- Hinputs].
      exists refunds. cbn [fst snd]. split_and!; done.
Qed.


(** The cap that the third loop leaves for an asset was computed for the
    last input of that asset, or is the one the map held before. *)
Lemma scanInputs_last_maxFee (inputs : list TxInput) :
  forall (m m' : gmap AssetID feeAmount) (r : gmap string TxOutput),
    scanInputs inputs m r = Ok m' ->
    forall (asset : AssetID) (cap : Z),
      maxFeeAmount <$> m' !! asset = Some cap ->
      (exists (k : nat) input contractArgs receiveOutput shouldPayAmount,
          inputs !! k = Some input
          /\ inAssetID input = asset
          /\ (forall (k' : nat) (input' : TxInput),
                inputs !! k' = Some input' -> inAssetID input' = asset -> (k' <= k)%nat)
          /\ DecodeP2WMCProgram (inControlProgram input) = Ok contractArgs
          /\ r !! SellerProgram contractArgs = Some receiveOutput
          /\ CalcShouldPayAmount (outAmount receiveOutput) contractArgs = Ok shouldPayAmount
          /\ CalcMaxFeeAmount shouldPayAmount = Ok cap)
      \/ ((asset ∉ inAssetID <$> inputs) /\ maxFeeAmount <$> m !! asset = Some cap).
Proof.
  induction inputs as [| input rest IH]; intros m m' r Hscan asset cap Hcap.
  - cbn in Hscan. simplify_eq. right. split; [apply not_elem_of_nil | done].
  - cbn [scanInputs] in Hscan.
    destruct (DecodeP2WMCProgram (inControlProgram input)) as [args | |] eqn:Hdec;
      cbn in Hscan; [| done | done].
    destruct (addPayable m (inAssetID input) (wrap_s64 (inAmount input))) as [m1 | |]
      eqn:Hm1; cbn in Hscan; [| done | done].
    destruct (r !! SellerProgram args) as [recv |] eqn:Hrecv; [| done].
    destruct (addPayable m1 (outAssetID recv) (- wrap_s64 (outAmount recv))) as [m2 | |]
      eqn:Hm2; cbn in Hscan; [| done | done].
    destruct (CalcShouldPayAmount (outAmount recv) args) as [sp | |] eqn:Hsp;
      cbn in Hscan; [| done | done].
    destruct (CalcMaxFeeAmount sp) as [maxFee | |] eqn:Hmax; cbn in Hscan; [| done | done].
    destruct (setMaxFee m2 (inAssetID input) maxFee) as [m3 | |] eqn:Hm3;
      cbn in Hscan; [| done | done].
    destruct (setMaxFee_lookup _ _ _ _ Hm3) as [Hset Hother].
    destruct (IH _ _ _ Hscan asset cap Hcap)
      as [(k & input' & args' & recv' & sp' & Hk & Hasset & Hlast & Hdec' & Hrecv' & Hsp'
           & Hmax')
         | [Hnotin Hcap3]].
    + left. exists (S k), input', args', recv', sp'. split_and!; try done.
      intros [| k'] input'' Hk' Hasset'; [lia |]. cbn in Hk'.
      specialize (Hlast k' input'' Hk' Hasset'). lia.
    + destruct (decide (asset = inAssetID input)) as [-> | Hne].
      * left. exists 0%nat, input, args, recv, sp. rewrite Hset in Hcap3. simplify_eq.
        split_and!; try done.
        intros [| k'] input'' Hk' Hasset'; [lia |]. cbn in Hk'.
        destruct Hnotin. rewrite <- Hasset'. apply list_elem_of_fmap_2.
        by eapply list_elem_of_lookup_2.
      * right. split.
        { rewrite fmap_cons, not_elem_of_cons. done. }
        rewrite Hother in Hcap3 by done.
        by rewrite (addPayable_maxFee _ _ _ _ Hm2), (addPayable_maxFee _ _ _ _ Hm1) in Hcap3.
Qed.

(** The cap of an entry of the fee map was computed for the last input of
    its asset, from the receive output found for the seller of that input. *)
Lemma CalcFeeFromMatchedTx_last_cap (txData : TxData) (feeMap : gmap AssetID feeAmount)
    (asset : AssetID) (amount : feeAmount) :
  CalcFeeFromMatchedTx txData = Ok feeMap ->
  feeMap !! asset = Some amount ->
  exists (k : nat) input contractArgs receiveOutput shouldPayAmount,
    Inputs txData !! k = Some input
    /\ inAssetID input = asset
    /\ (forall (k' : nat) (input' : TxInput),
          Inputs txData !! k' = Some input' -> inAssetID input' = asset -> (k' <= k)%nat)
    /\ DecodeP2WMCProgram (inControlProgram input) = Ok contractArgs
    /\ lastReceiveOutput (Outputs txData) (SellerProgram contractArgs) None
       = Some receiveOutput
    /\ CalcShouldPayAmount (outAmount receiveOutput) contractArgs = Ok shouldPayAmount
    /\ CalcMaxFeeAmount shouldPayAmount = Ok (maxFeeAmount amount).
Proof.
  unfold CalcFeeFromMatchedTx. intros Hcalc Hlk.
  destruct (scanOutputs (Outputs txData) (initAssetAmountMap (Inputs txData)) ∅)
    as [[m1 r1] | |] eqn:Hout; cbn in Hcalc; [| done | done].
  destruct (scanInputs (Inputs txData) m1 r1) as [m2 | |] eqn:Hin; cbn in Hcalc;
    [| done | done].
  simplify_eq. apply map_lookup_filter_Some in Hlk as [Hlk _].
  pose proof (scanOutputs_receive _ _ _ _ _ Hout) as Hr1.
  destruct (scanOutputs_tracks _ _ _ _ _ _ (initAssetAmountMap_tracks (Inputs txData)) Hout)
    as (_ & Hdom1 & _).
  destruct (scanInputs_last_maxFee _ _ _ _ Hin asset (maxFeeAmount amount))
    as [(k & input & args & recv & sp & Hk & Hasset & Hlast & Hdec & Hrecv & Hsp & Hmax)
       | [Hnotin Hcap]].
  - by rewrite Hlk.
  - exists k, input, args, recv, sp. rewrite Hr1, lookup_empty in Hrecv. split_and!; done.
  - assert (asset ∈ dom (initAssetAmountMap (Inputs txData))) as Hdom.
    { rewrite <- Hdom1. apply elem_of_dom.
      destruct (m1 !! asset); [done | by cbn in Hcap]. }
    apply elem_of_dom in Hdom as [amount0 Hinit].
    rewrite initAssetAmountMap_lookup in Hinit. by case_decide.
Qed.

(** When no two legs pay the same program, the cap of an entry of the fee
    map is the cap of the last leg that offers its asset. *)
Lemma fee_map_cap_of_leg (orders : list Order) (legs : TxData)
    (feeMap : gmap AssetID feeAmount) (asset : AssetID) (amount : feeAmount) :
  buildMatchTxFrom orders 0 orders (mkTxData 1 0 [] []) = Ok legs ->
  Forall scriptedOrder orders ->
  NoDup (outControlProgram <$> payOutputs (Outputs legs)) ->
  CalcFeeFromMatchedTx legs = Ok feeMap ->
  feeMap !! asset = Some amount ->
  exists (i : nat) (order oppositeOrder : Order) (contractArgs : MagneticContractArgs)
         (shouldPayAmount : Z) (legOutputs : list TxOutput),
    orders !! i = Some order
    /\ FromAssetID order = asset
    /\ (forall (j : nat) (order' : Order),
          orders !! j = Some order' -> FromAssetID order' = asset -> (j <= i)%nat)
    /\ orders !! getOppositeIndex (length orders) i = Some oppositeOrder
    /\ legOutputsOf order (utxoAmount (Utxo oppositeOrder)) contractArgs shouldPayAmount
         legOutputs
    /\ CalcMaxFeeAmount shouldPayAmount = Ok (maxFeeAmount amount).
Proof.
  intros Hlegs Hscripted Hnodup Hfee Hlk.
  destruct (CalcFeeFromMatchedTx_last_cap _ _ _ _ Hfee Hlk)
    as (i & input & args & recv & sp & Hi & Hasset & Hlast & Hdec & Hfound & Hsp & Hcap).
  destruct (buildMatchTxFrom_spec _ _ _ _ _ Hlegs)
    as (inputs' & outputs' & Hinputs' & Houtputs' & Hspends & Hleg).
  cbn [Inputs Outputs app] in Hinputs', Houtputs'. rewrite Hinputs' in Hi, Hlast.
  destruct (Forall2_lookup_r _ _ _ _ _ Hspends Hi) as (order & Horder & Hassetin & _ & Hprog).
  destruct (Hleg i order Horder) as (opp & args' & sp' & outs & Hopp & Hlo & Hsub).
  cbn [Nat.add] in Hopp.
  exists i, order, opp, args', sp', outs. split_and!; [done | congruence | | done | done |].
  { intros j order' Hj Hasset'.
    destruct (Forall2_lookup_l _ _ _ _ _ Hspends Hj) as (input' & Hj' & Hassetin' & _).
    apply (Hlast j input' Hj'). congruence. }
  pose proof Hlo as (requestAmount & Hdec' & _ & Hsp' & Houts).
  rewrite Hprog, Hdec' in Hdec. simplify_eq.
  rewrite Forall_forall in Hscripted.
  destruct (Hscripted order) as [_ Hseller]; [by eapply list_elem_of_lookup_2 |].
  specialize (Hseller _ Hdec').
  set (receive := NewIntraChainOutput (ToAssetID order)
                    (MinUint64 requestAmount (utxoAmount (Utxo opp))) (SellerProgram args)).
  assert (receive ∈ payOutputs (Outputs legs)) as Hmem.
  { unfold payOutputs. apply list_elem_of_filter. split; [done |].
    apply Hsub. by left. }
  pose proof (lastReceiveOutput_unique _ _ None Hnodup Hmem) as Hunique.
  subst receive. cbn [outControlProgram NewIntraChainOutput] in Hunique.
  rewrite Hunique in Hfound. simplify_eq.
  cbn [outAmount NewIntraChainOutput] in Hsp. congruence.
Qed.

(** The refunds of an asset go to the sellers of the first orders. *)
Lemma refunds_programs (orders : list Order) (inputs : list TxInput) (sellers : list Program)
    (asset : AssetID) (refunds : list TxOutput) :
  Forall2 spends orders inputs ->
  sellersOf orders sellers ->
  Forall2 (refundsTo asset) (take (length refunds) inputs) refunds ->
  Forall (fun refund => outAssetID refund = asset) refunds
  /\ outControlProgram <$> refunds = take (length refunds) sellers.
Proof.
  intros Hspends Hsellers Hrefunds. split; [by eapply refundsTo_asset |].
  apply (payments_programs (take (length refunds) orders) (take (length refunds) inputs)).
  - by apply Forall2_take.
  - eapply Forall2_impl; [apply Hrefunds |]. intros input refund [_ Hto]. exact Hto.
  - by apply Forall2_take.
Qed.


(** *** The continuation orders *)

Lemma addPartialTradeOrderFrom_Ok (tx : Tx) :
  forall (rest : list TxOutput) (i : nat) (table table' : OrderTable),
    addPartialTradeOrderFrom tx i rest table = (table', Ok tt) ->
    table' = addOrders table (continuationOrdersFrom tx i rest).
Proof.
  induction rest as [| output rest IH]; intros i table table' Hrun.
  - cbn in Hrun. by simplify_eq.
  - cbn [addPartialTradeOrderFrom continuationOrdersFrom] in *.
    destruct (IsP2WMCScript (outControlProgram output)); cbn [negb] in Hrun.
    + destruct (NewOrderFromOutput tx i) as [order | |]; [| done | done].
      destruct (AddOrder table order) as [table1 [err |]] eqn:Hadd; [done |].
      unfold addOrders. cbn [foldl]. rewrite Hadd. by apply IH.
    + by apply IH.
Qed.

Lemma continuationOrdersFrom_elem (tx : Tx) :
  forall (rest : list TxOutput) (i j : nat) (output : TxOutput) (order : Order),
    rest !! j = Some output ->
    IsP2WMCScript (outControlProgram output) = true ->
    NewOrderFromOutput tx (i + j) = Ok order ->
    order ∈ continuationOrdersFrom tx i rest.
Proof.
  induction rest as [| output' rest IH]; intros i j output order Hj Hscript Hnew; [done |].
  cbn [continuationOrdersFrom]. destruct j as [| j].
  - cbn in Hj. simplify_eq. rewrite Nat.add_0_r in Hnew. rewrite Hscript, Hnew. by left.
  - cbn in Hj. replace (i + S j)%nat with (S i + j)%nat in Hnew by lia.
    pose proof (IH _ _ _ _ Hj Hscript Hnew) as Hin.
    destruct (IsP2WMCScript (outControlProgram output')); [| done].
    destruct (NewOrderFromOutput tx i); [by right | done | done].
Qed.

(** C6, as amended.  Take a transaction that [NextMatchedTx] returns and
    the order of a leg, locked by a P2WMC script and of an amount that fits
    [uint64]; let [shouldPayAmount] be what the leg pays.  The order table
    is left with the orders of the ring popped and the continuation orders
    of the transaction added, one per output locked by a P2WMC script.
    When the leg is partial, that is, the offered amount exceeds
    [shouldPayAmount], one of these orders is made of an output of the leg:
    it offers the same asset under the same script, so for the same seller
    at the same ratio, and its amount is the offered amount less
    [shouldPayAmount].  The amount is never above the offered amount and
    is strictly below it when [shouldPayAmount] is positive; when the leg
    pays nothing the continuation has the whole offered amount. *)
Theorem continuation_order_of_partial_fill (e e' : Engine) (tradePairs : list TradePair)
    (tx : Tx) (i : nat) (order : Order) :
  NextMatchedTx e tradePairs = (e', Ok tx) ->
  peekOrders e tradePairs !! i = Some order ->
  IsP2WMCScript (utxoControlProgram (Utxo order)) = true ->
  0 <= utxoAmount (Utxo order) < 2 ^ 64 ->
  exists oppositeOrder contractArgs shouldPayAmount legOutputs,
    peekOrders e tradePairs !! getOppositeIndex (length (peekOrders e tradePairs)) i
    = Some oppositeOrder
    /\ legOutputsOf order (utxoAmount (Utxo oppositeOrder)) contractArgs shouldPayAmount
         legOutputs
    /\ orderTable e'
       = addOrders (foldl PopOrder (orderTable e) tradePairs) (continuationOrders tx)
    /\ (utxoAmount (Utxo order) > shouldPayAmount ->
        exists position continuation,
          NewOrderFromOutput tx position = Ok continuation
          /\ continuation ∈ continuationOrders tx
          /\ FromAssetID continuation = FromAssetID order
          /\ ToAssetID continuation = RequestedAsset contractArgs
          /\ utxoControlProgram (Utxo continuation) = utxoControlProgram (Utxo order)
          /\ utxoAmount (Utxo continuation) = utxoAmount (Utxo order) - shouldPayAmount
          /\ utxoAmount (Utxo continuation) <= utxoAmount (Utxo order)
          /\ (0 < shouldPayAmount ->
              utxoAmount (Utxo continuation) < utxoAmount (Utxo order))).
Proof.
  intros Hnext Horder Hscript Hamount.
  destruct (NextMatchedTx_built _ _ _ _ Hnext) as [Hbuild Hadd].
  destruct (buildMatchTx_stages _ _ _ Hbuild)
    as (legs & txData1 & feeMap & Hlegs & Hfee & Hfees & Hins & Houts).
  destruct (addFeeOutputsFrom_prefix _ _ _ _ Hfees) as (_ & feeOutputs & Houts1).
  destruct (buildMatchTxFrom_spec _ _ _ _ _ Hlegs)
    as (inputs' & outputs' & _ & Houtputs' & _ & Hleg).
  cbn [Outputs app] in Houtputs'.
  destruct (Hleg i order Horder) as (opp & args & sp & legOutputs & Hopp & Hlo & Hsub).
  cbn [Nat.add] in Hopp.
  exists opp, args, sp, legOutputs. split_and!; [done | done | |].
  { unfold addPartialTradeOrder in Hadd. by apply addPartialTradeOrderFrom_Ok in Hadd. }
  intros Hpartial.
  pose proof Hlo as (requestAmount & Hdec & _ & Hsp & Hlegout).
  apply CalcShouldPayAmount_range in Hsp.
  set (output := NewIntraChainOutput (FromAssetID order)
                   (wrap_u64 (utxoAmount (Utxo order) - sp))
                   (utxoControlProgram (Utxo order))).
  assert (output ∈ Outputs tx) as Hmem.
  { rewrite Houts, Houts1, Houtputs'. apply elem_of_app. left. apply Hsub.
    rewrite Hlegout. destruct (Z.gtb_spec (utxoAmount (Utxo order)) sp); [| lia].
    right. by left. }
  apply list_elem_of_lookup_1 in Hmem as [position Hposition].
  assert (NewOrderFromOutput tx position
          = Ok (mkOrder (FromAssetID order) (RequestedAsset args)
                  (mkMovUtxo (TxID tx) (Z.of_nat position)
                     (wrap_u64 (utxoAmount (Utxo order) - sp))
                     (utxoControlProgram (Utxo order)))
                  (F64.div (F64.of_Z (RatioDenominator args))
                     (F64.of_Z (RatioNumerator args))))) as Hnew.
  { unfold NewOrderFromOutput, index. rewrite Hposition. cbn.
    rewrite Hdec. done. }
  eexists position, _. split; [exact Hnew |].
  cbn [FromAssetID ToAssetID Utxo utxoControlProgram utxoAmount].
  rewrite wrap_u64_id by lia.
  split_and!; first [done | lia | idtac].
  unfold continuationOrders.
  apply (continuationOrdersFrom_elem tx (Outputs tx) 0 position output); [done | done |].
  cbn [Nat.add]. rewrite Hnew. by rewrite wrap_u64_id by lia.
Qed.

(** *** Missing receive outputs and missing fee entries *)

(** C8, as amended.  [CalcFeeFromMatchedTx] does not succeed when the
    seller program of an input locks no output of the transaction other
    than P2WMC scripts.  [Validate] does not fail for a missing entry: it
    reads the fee of an asset without an entry in the map as zero, and
    accepts receive amounts that fit [uint64] when no asset of theirs has
    an entry. *)
Theorem missing_receive_output_and_missing_fee_entry (txData : TxData) (input : TxInput)
    (contractArgs : MagneticContractArgs) (receiveAmounts : list AssetAmount)
    (feeAmounts : gmap AssetID Z) :
  (input ∈ Inputs txData ->
   DecodeP2WMCProgram (inControlProgram input) = Ok contractArgs ->
   (forall output, output ∈ Outputs txData ->
      IsP2WMCScript (outControlProgram output) = false ->
      outControlProgram output <> SellerProgram contractArgs) ->
   is_Ok (CalcFeeFromMatchedTx txData) = false)
  /\ (forall asset, feeAmounts !! asset = None ->
        Validate receiveAmounts feeAmounts
        = Validate receiveAmounts (<[asset := 0]> feeAmounts))
  /\ (Forall uint64Amount receiveAmounts ->
      (forall receiveAmount, receiveAmount ∈ receiveAmounts ->
         feeAmounts !! AssetId receiveAmount = None) ->
      Validate receiveAmounts feeAmounts = Ok tt).
Proof.
  split_and!.
  - apply CalcFeeFromMatchedTx_no_receive.
  - intros asset. apply Validate_absent_is_zero.
  - intros Hrange Hnone.
    pose proof (Validate_absent_accepted _ _ Hnone) as Hnoerr.
    destruct (Validate_cases receiveAmounts feeAmounts) as [(Herr & _) | (Hok & _)];
      [| by rewrite Herr in Hnoerr | done].
    intros ra Hra. rewrite Forall_forall in Hrange. apply (Hrange ra Hra).
Qed.

End MatchProperties.


(** ** More about the float64 computations *)

Section MoreFloatComputations.

(** The product of two normal numbers is within half a unit of the last
    place of its exact value. *)
Lemma mul_round (m1 e1 m2 e2 d : Z) :
  2 ^ 52 <= m1 < 2 ^ 53 -> 2 ^ 52 <= m2 < 2 ^ 53 ->
  -1074 <= e1 + e2 + 52 -> e1 + e2 + 54 <= 971 ->
  Zdigits2 (m1 * m2) = d ->
  exists m s,
    F64.mul (S754_finite false (Z.to_pos m1) e1) (S754_finite false (Z.to_pos m2) e2)
    = S754_finite false (Z.to_pos m) (e1 + e2 + s)
    /\ 2 ^ 52 <= m < 2 ^ 53
    /\ d - 53 <= s <= d - 52
    /\ 105 <= d <= 106
    /\ - 2 ^ (d - 53) <= 2 * (m * 2 ^ s - m1 * m2) <= 2 ^ (d - 53).
Proof.
  intros Hm1 Hm2 Hnormal Hover Hdig.
  unfold F64.mul, SFmul. cbn [xorb].
  rewrite Pos2Z.inj_mul, !Z2Pos.id by lia.
  assert (2 ^ 104 <= m1 * m2 < 2 ^ 106) as Hprod.
  { change (2 ^ 104) with (2 ^ 52 * 2 ^ 52). change (2 ^ 106) with (2 ^ 53 * 2 ^ 53). nia. }
  assert (105 <= d <= 106) as Hd.
  { pose proof (Zdigits2_bounds (m1 * m2) d ltac:(lia) Hdig) as [Hlo Hhi].
    split.
    - destruct (Z.le_gt_cases 105 d) as [Hle | Hgt]; [done |].
      assert (2 ^ d <= 2 ^ 104) by (apply Z.pow_le_mono_r; lia). lia.
    - destruct (Z.le_gt_cases d 106) as [Hle | Hgt]; [done |].
      assert (2 ^ 106 <= 2 ^ (d - 1)) by (apply Z.pow_le_mono_r; lia). lia. }
  destruct (binary_round_aux_normal false (m1 * m2) (e1 + e2) 0 1 d loc_Exact)
    as (m & e & Hres & Hm & He & Herr & _); try done; try lia.
  exists m, (e - (e1 + e2)). rewrite Hres.
  replace (e1 + e2 + (e - (e1 + e2))) with e by lia.
  split_and!; [done | lia | lia | lia | lia | lia | lia | lia | lia].
Qed.

(** X10.  For amounts below 2^53 the cap that [CalcMaxFeeAmount] computes
    in float64 is exactly one twentieth of the amount, rounded up, although
    0.05 is not a float64. *)
Theorem CalcMaxFeeAmount_exact (shouldPayAmount : Z) :
  0 <= shouldPayAmount < 2 ^ 53 ->
  CalcMaxFeeAmount shouldPayAmount = Ok (ceilDiv shouldPayAmount 20).
Proof.
  intros [Hsp0 Hsp53].
  destruct (Z.eq_dec shouldPayAmount 0) as [-> | Hne]; [reflexivity |].
  assert (0 < shouldPayAmount) as Hpos by lia.
  set (sp := shouldPayAmount) in *.
  set (k := ceilDiv sp 20).
  pose proof (ceilDiv_bounds sp 20 ltac:(lia)) as Hk. fold k in Hk.
  assert (1 <= k < 2 ^ 49) as Hkrange.
  { change (2 ^ 53) with (16 * 2 ^ 49) in Hsp53. lia. }
  (* float64(shouldPayAmount) *)
  pose proof (Zdigits2_le_53 sp ltac:(lia)) as Hds53.
  pose proof (Zdigits2_pos sp Hpos) as Hds0.
  pose proof (mantissa_bounds sp ltac:(lia)) as Hmant.
  unfold CalcMaxFeeAmount.
  rewrite (of_Z_exact sp (Zdigits2 sp)) by (done || lia).
  rewrite c0_05_eq.
  set (ds := Zdigits2 sp) in *.
  set (t := 2 ^ (53 - ds)) in *.
  assert (1 <= t) as Ht.
  { unfold t. assert (2 ^ 0 <= 2 ^ (53 - ds)) by (apply Z.pow_le_mono_r; lia).
    change (2 ^ 0) with 1 in *. lia. }
  set (mc := 7205759403792794).
  (* the product *)
  destruct (mul_round (sp * t) (ds - 53) mc (-57) (Zdigits2 (sp * t * mc)))
    as (m & s & Hmul & Hm & Hs & Hd & Herr); [lia | unfold mc; lia | lia | lia | done |].
  rewrite Hmul. clear Hmul.
  set (d := Zdigits2 (sp * t * mc)) in *.
  pose proof (Zdigits2_bounds (sp * t * mc) d ltac:(unfold mc; nia) eq_refl) as HM.
  set (M := sp * t * mc) in *.
  set (U := 2 ^ s) in *.
  assert (0 < U) as HU by (apply Z.pow_pos_nonneg; lia).
  assert (2 ^ (d - 53) <= U) as HdU by (apply Z.pow_le_mono_r; lia).
  assert (2 ^ (d - 53) <= 2 ^ 53) as Hd53 by (apply Z.pow_le_mono_r; lia).
  assert (2 ^ d = 2 ^ (d - 53) * 2 ^ 53) as Hdsplit.
  { rewrite <- Z.pow_add_r by lia. f_equal. lia. }
  set (P := 2 ^ (d - 53)) in *.
  (* the exponent of the product, and the unit of its ceiling *)
  set (e := ds - 53 + -57 + s).
  assert (e < 0) as He by (unfold e; lia).
  set (W := 2 ^ (- e)).
  assert (0 < W) as HW by (apply Z.pow_pos_nonneg; lia).
  assert (W * U = 2 ^ 57 * t) as HWU.
  { unfold W, U, t. rewrite <- !Z.pow_add_r by lia. f_equal. unfold e. lia. }
  (* the arithmetic of one twentieth *)
  assert (20 * M = sp * t * (2 ^ 57 + 8)) as H20M by (unfold M, mc; lia).
  set (KT := k * t) in *.
  set (ST := sp * t) in *.
  assert (20 * KT - 20 * t + t <= ST <= 20 * KT) as HST.
  { unfold ST, KT. split.
    - assert ((20 * (k - 1) + 1) * t <= sp * t)
        by (apply Z.mul_le_mono_nonneg_r; lia). lia.
    - assert (sp * t <= 20 * k * t) by (apply Z.mul_le_mono_nonneg_r; lia). lia. }
  assert (t <= KT < 2 ^ 49 * t) as HKT.
  { unfold KT. split.
    - assert (1 * t <= k * t) by (apply Z.mul_le_mono_nonneg_r; lia). lia.
    - apply Z.mul_lt_mono_pos_r; lia. }
  assert (20 * M = ST * 2 ^ 57 + 8 * ST) as H20M' by (unfold ST; lia).
  assert (m * U < (k * W + 1) * U) as Hupper.
  { replace ((k * W + 1) * U) with (k * (W * U) + U) by ring.
    rewrite HWU. replace (k * (2 ^ 57 * t)) with (KT * 2 ^ 57) by (unfold KT; ring).
    destruct (Z.eq_dec ST (20 * KT)) as [Heq | Hlt].
    - assert (M = KT * 2 ^ 57 + 8 * KT) as HMeq by lia.
      assert (16 * KT < U).
      { change (2 ^ 57) with (16 * 2 ^ 53) in HMeq.
        assert (16 * KT * 2 ^ 53 < U * 2 ^ 53) by lia.
        apply (Z.mul_lt_mono_pos_r (2 ^ 53)); lia. }
      lia.
    - assert (sp <= 20 * k - 1) as Hsp1.
      { destruct (Z.le_gt_cases sp (20 * k - 1)) as [Hle | Hgt]; [done |].
        assert (sp = 20 * k) as Hspeq by lia. destruct Hlt. unfold ST, KT.
        rewrite Hspeq. lia. }
      assert (ST <= 20 * KT - t) as HST1.
      { unfold ST, KT.
        assert (sp * t <= (20 * k - 1) * t) by (apply Z.mul_le_mono_nonneg_r; lia). lia. }
      change (2 ^ 49) with 562949953421312 in HKT.
      change (2 ^ 57) with 144115188075855872 in *.
      assert (20 * (2 * M) < 20 * (2 * (KT * 144115188075855872) + U)); lia. }
  assert ((k - 1) * W * U < m * U) as Hlower.
  { replace ((k - 1) * W * U) with ((k - 1) * (W * U)) by ring.
    rewrite HWU. replace ((k - 1) * (2 ^ 57 * t)) with ((KT - t) * 2 ^ 57)
      by (unfold KT; ring).
    change (2 ^ 53) with 9007199254740992 in *.
    change (2 ^ 57) with 144115188075855872 in *.
    assert (20 * (2 * ((KT - t) * 144115188075855872)) < 20 * (2 * M - P)); lia. }
  assert ((k - 1) * W < m <= k * W) as Hceil.
  { split.
    - apply (Z.mul_lt_mono_pos_r U); lia.
    - assert (m < k * W + 1) by (apply (Z.mul_lt_mono_pos_r U); lia). lia. }
  unfold F64.ceil_int64, F64.ceil. rewrite Z2Pos.id by lia. fold e.
  destruct (Z.leb_spec 0 e) as [? | _]; [lia |].
  change (- (- m / 2 ^ (- e))) with (ceilDiv m W).
  rewrite (ceilDiv_unique m W k HW Hceil).
  destruct (Z.leb_spec (- 2 ^ 63) k) as [_ | ?]; [| lia].
  assert (2 ^ 49 < 2 ^ 63) by (apply Z.pow_lt_mono_r; lia).
  destruct (Z.ltb_spec k (2 ^ 63)) as [_ | ?]; [done | lia].
Qed.

(** X6.  As long as the offered amount times the numerator has at most 53
    binary digits, the amounts of a leg are defined and the leg never pays
    more than it offers: [CalcShouldPayAmount] of what the leg receives
    (the requested amount or the opposite amount, whichever is smaller) is
    at most the offered amount, and is zero when the opposite order offers
    nothing. *)
Theorem leg_pays_at_most_the_offer (fromAmount oppositeAmount : Z)
    (contractArg : MagneticContractArgs) :
  0 <= fromAmount ->
  0 <= oppositeAmount ->
  0 < RatioNumerator contractArg < 2 ^ 53 ->
  0 < RatioDenominator contractArg < 2 ^ 63 ->
  fromAmount * RatioNumerator contractArg < 2 ^ 53 ->
  exists requestAmount shouldPayAmount,
    calcRequestAmount fromAmount contractArg = Ok requestAmount
    /\ CalcShouldPayAmount (MinUint64 requestAmount oppositeAmount) contractArg
       = Ok shouldPayAmount
    /\ 0 <= shouldPayAmount <= fromAmount
    /\ (oppositeAmount = 0 -> shouldPayAmount = 0).
Proof.
  intros Hfrom Hopp Hnum Hden Hprod.
  set (num := RatioNumerator contractArg) in *.
  set (den := RatioDenominator contractArg) in *.
  destruct (leg_amounts_exact_in_range fromAmount 0 contractArg) as [Hrequest _].
  assert (fromAmount < 2 ^ 63) as Hfrom63.
  { assert (fromAmount * 1 <= fromAmount * num) by (apply Z.mul_le_mono_nonneg_l; lia).
    assert (2 ^ 53 < 2 ^ 63) by (apply Z.pow_lt_mono_r; lia). lia. }
  assert (2 ^ 53 < 2 ^ 63) as Hpow by (apply Z.pow_lt_mono_r; lia).
  specialize (Hrequest ltac:(lia) ltac:(fold num; lia) ltac:(fold den; lia)
                ltac:(fold num; lia)).
  fold num den in Hrequest.
  set (requestAmount := fromAmount * num / den) in *.
  assert (0 <= requestAmount) as Hreq0 by (apply Z.div_pos; lia).
  assert (requestAmount * den <= fromAmount * num) as Hreqle.
  { rewrite Z.mul_comm. apply Z.mul_div_le. lia. }
  set (receiveAmount := MinUint64 requestAmount oppositeAmount).
  assert (0 <= receiveAmount <= requestAmount /\ receiveAmount <= oppositeAmount) as Hrecv.
  { unfold receiveAmount, MinUint64.
    destruct (Z.ltb_spec requestAmount oppositeAmount); lia. }
  assert (receiveAmount * den <= fromAmount * num) as Hrecvle.
  { assert (receiveAmount * den <= requestAmount * den)
      by (apply Z.mul_le_mono_nonneg_r; lia). lia. }
  exists requestAmount, (ceilDiv (receiveAmount * den) num).
  split; [done |]. split.
  - apply CalcShouldPayAmount_exact; fold num den; lia.
  - split; [split |].
    + apply ceilDiv_nonneg; [| lia]. apply Z.mul_nonneg_nonneg; lia.
    + apply ceilDiv_le; lia.
    + intros ->. assert (receiveAmount = 0) as -> by lia. reflexivity.
Qed.

End MoreFloatComputations.

(** ** More about the fee strategy *)

Section MoreFeeStrategy.

(** The taker fee of a positive amount is at least one unit. *)
Lemma calcFeeAmount_taker_pos (amount : Z) :
  0 < amount < 2 ^ 64 ->
  exists fee, calcFeeAmount amount false = Ok fee /\ 1 <= fee <= amount.
Proof.
  intros Ha.
  assert (0 < amount) as Hpos by lia.
  pose proof (Zdigits2_bounds amount _ Hpos eq_refl) as Hd.
  set (d := Zdigits2 amount) in *.
  assert (d <= 64) as Hd64.
  { destruct (Z.le_gt_cases d 64) as [Hle | Hgt]; [done |].
    assert (2 ^ 64 <= 2 ^ (d - 1)) by (apply Z.pow_le_mono_r; lia). lia. }
  destruct (of_Z_normal amount d Hpos eq_refl ltac:(lia)) as (m & e & Hof & Hm & He).
  destruct (Z.lt_ge_cases (3 * amount) (2 ^ 53)) as [Hsmall | Hbig].
  - exists (ceilDiv (3 * amount) 10000).
    split; [apply calcFeeAmount_exact; lia |].
    split; [| apply ceilDiv_le; lia].
    pose proof (ceilDiv_bounds (3 * amount) 10000 ltac:(lia)). lia.
  - assert (52 <= d) as Hd52.
    { destruct (Z.le_gt_cases 52 d) as [Hle | Hgt]; [done |].
      assert (2 ^ d <= 2 ^ 51) by (apply Z.pow_le_mono_r; lia).
      change (2 ^ 53) with (4 * 2 ^ 51) in Hbig. lia. }
    unfold calcFeeAmount, takerFeeRate. rewrite Hof, of_Z_3, c1E4_eq.
    destruct (mul_normal m e (3 * 2 ^ 51) (-51)) as (m1 & e1 & -> & Hm1 & He1);
      [done | lia | lia | lia |].
    destruct (div_normal m1 e1 (10000 * 2 ^ 39) (-39)) as (m2 & e2 & -> & Hm2 & He2);
      [done | lia | lia | lia |].
    destruct (ceil_normal m2 e2 Hm2) as (z & Hz & Hz0 & Hzle & Hz1).
    assert (z <= 2 ^ (d - 1)) as Hzd.
    { destruct (Z.le_gt_cases 0 (53 + e2)) as [Hle | Hgt].
      - specialize (Hzle Hle).
        assert (2 ^ (53 + e2) <= 2 ^ (d - 1)) by (apply Z.pow_le_mono_r; lia). lia.
      - rewrite Hz1 by lia.
        assert (2 ^ 0 <= 2 ^ (d - 1)) by (apply Z.pow_le_mono_r; lia).
        change (2 ^ 0) with 1 in *. lia. }
    exists z. split; [apply ceil_uint64_Some; [done | lia] |]. lia.
Qed.

(** X13.  On every [uint64] amount [calcFeeAmount] is defined: the maker
    fee is zero, and the taker fee is at most the amount and is zero only
    for the amount zero. *)
Theorem fee_of_an_amount (amount : Z) :
  0 <= amount < 2 ^ 64 ->
  calcFeeAmount amount true = Ok 0
  /\ exists fee,
      calcFeeAmount amount false = Ok fee
      /\ 0 <= fee <= amount
      /\ (fee = 0 <-> amount = 0).
Proof.
  intros Ha. split.
  - destruct (calcFeeAmount_le amount true Ha) as (fee & Hfee & _ & Hzero).
    by rewrite Hfee, Hzero.
  - destruct (Z.eq_dec amount 0) as [-> | Hne].
    + exists 0. split; [reflexivity |]. split; [lia | done].
    + destruct (calcFeeAmount_taker_pos amount ltac:(lia)) as (fee & Hfee & Hrange).
      exists fee. split; [done |]. split; [lia |]. split; lia.
Qed.

(** The inner loop of [Allocate] on [uint64] amounts. *)
Lemma chargePriceDiffs_charged (asset : AssetID) (priceDiffs : list AssetAmount) :
  forall feeAcc : Z,
    Forall uint64Amount priceDiffs ->
    exists priceDiffs' feeAcc',
      chargePriceDiffs asset priceDiffs feeAcc = Ok (priceDiffs', feeAcc')
      /\ Forall2 (chargedTo (fun a => a = asset)) priceDiffs priceDiffs'.
Proof.
  induction priceDiffs as [| priceDiff rest IH]; intros feeAcc Hrange.
  - exists [], feeAcc. split; [done | constructor].
  - apply Forall_cons in Hrange as [Hpd Hrest]. cbn [chargePriceDiffs].
    destruct (decide (AssetId priceDiff = asset)) as [Heq | Hne].
    + destruct (calcFeeAmount_le (Amount priceDiff) false Hpd) as (fee & -> & Hfee & _).
      cbn. unfold uint64Amount in Hpd.
      rewrite (wrap_u64_id (Amount priceDiff - fee)) by lia.
      destruct (IH (wrap_u64 (feeAcc + fee)) Hrest) as (rest' & feeAcc' & -> & Hall).
      cbn. eexists _, _. split; [done |]. constructor; [| done].
      split_and!; cbn; first [done | lia].
    + destruct (IH feeAcc Hrest) as (rest' & feeAcc' & -> & Hall).
      cbn. eexists _, _. split; [done |]. constructor; [| done].
      unfold uint64Amount in Hpd. split_and!; first [done | lia].
Qed.

Lemma chargedTo_uint64 (touched : AssetID -> Prop) (priceDiffs priceDiffs' : list AssetAmount) :
  Forall uint64Amount priceDiffs ->
  Forall2 (chargedTo touched) priceDiffs priceDiffs' ->
  Forall uint64Amount priceDiffs'.
Proof.
  intros Hrange Hall. induction Hall as [| d d' ds ds' (_ & Hle & _) _ IH]; [done |].
  apply Forall_cons in Hrange as [Hd Hds]. constructor; [| by apply IH].
  unfold uint64Amount in *. lia.
Qed.

Lemma chargedTo_trans (touched1 touched2 touched : AssetID -> Prop)
    (xs ys zs : list AssetAmount) :
  (forall a, touched1 a -> touched a) ->
  (forall a, touched2 a -> touched a) ->
  Forall2 (chargedTo touched1) xs ys ->
  Forall2 (chargedTo touched2) ys zs ->
  Forall2 (chargedTo touched) xs zs.
Proof.
  intros H1 H2 Hxy. revert zs.
  induction Hxy as [| x y xs ys (Hid & Hle & Hsame) _ IH]; intros zs Hyz.
  - apply Forall2_nil_inv_l in Hyz as ->. constructor.
  - apply Forall2_cons_inv_l in Hyz as (z & zs' & (Hid' & Hle' & Hsame') & Hyz & ->).
    constructor; [| by apply IH].
    split_and!; [congruence | lia | lia |].
    intros Hnot. rewrite Hsame'.
    + apply Hsame. intros Ht. apply Hnot, H1, Ht.
    + rewrite Hid. intros Ht. apply Hnot, H2, Ht.
Qed.

Lemma chargedTo_refl (touched : AssetID -> Prop) (xs : list AssetAmount) :
  Forall uint64Amount xs -> Forall2 (chargedTo touched) xs xs.
Proof.
  induction 1 as [| x xs Hx _ IH]; constructor; [| done].
  unfold uint64Amount in Hx. split_and!; first [done | lia].
Qed.

(** The loop of [Allocate], whatever the sums. *)
Lemma allocateFrom_shape (receiveAmounts : list AssetAmount) :
  forall (i : nat) (priceDiffs : list AssetAmount) (isMakers : list bool)
         (receives fees priceDiffs' : list AssetAmount),
    Forall uint64Amount priceDiffs ->
    allocateFrom i receiveAmounts priceDiffs isMakers = Ok (receives, fees, priceDiffs') ->
    AssetId <$> receives = AssetId <$> receiveAmounts
    /\ AssetId <$> fees = AssetId <$> receiveAmounts
    /\ Forall2 (chargedTo (takerReceivesFrom i receiveAmounts isMakers))
         priceDiffs priceDiffs'.
Proof.
  induction receiveAmounts as [| receiveAmount rest IH];
    intros i priceDiffs isMakers receives fees priceDiffs' Hpd Hrun.
  - cbn in Hrun. simplify_eq. split_and!; [done | done |]. by apply chargedTo_refl.
  - cbn [allocateFrom] in Hrun.
    destruct (index isMakers i) as [isMaker | |] eqn:Hidx; cbn in Hrun; [| done | done].
    apply index_Ok in Hidx.
    destruct (calcFeeAmount (Amount receiveAmount) isMaker) as [fee | |] eqn:Hfee;
      cbn in Hrun; [| done | done].
    assert (exists priceDiffs1 feeAcc,
               (if negb isMaker then chargePriceDiffs (AssetId receiveAmount) priceDiffs fee
                else Ok (priceDiffs, fee)) = Ok (priceDiffs1, feeAcc)
               /\ Forall2 (chargedTo (fun a => isMaker = false /\ a = AssetId receiveAmount))
                    priceDiffs priceDiffs1)
      as (priceDiffs1 & feeAcc & Hcharge & Hcharged).
    { destruct isMaker; cbn [negb].
      - exists priceDiffs, fee. split; [done |]. by apply chargedTo_refl.
      - destruct (chargePriceDiffs_charged (AssetId receiveAmount) priceDiffs fee Hpd)
          as (pds & acc & Hc & Hall).
        exists pds, acc. split; [done |].
        eapply Forall2_impl; [apply Hall |].
        intros d d' (? & [? ?] & Hsame). split_and!; [done | done | done |].
        intros Hnot. apply Hsame. intros Ha. apply Hnot. by split. }
    rewrite Hcharge in Hrun. cbn in Hrun.
    destruct (allocateFrom (S i) rest priceDiffs1 isMakers) as [[[receives1 fees1] pds2] | |]
      eqn:Hrest; cbn in Hrun; [| done | done].
    simplify_eq.
    destruct (IH _ _ _ _ _ _ (chargedTo_uint64 _ _ _ Hpd Hcharged) Hrest)
      as (Hreceives & Hfees & Hrestcharged).
    split_and!.
    + rewrite !fmap_cons, Hreceives. done.
    + rewrite !fmap_cons, Hfees. done.
    + eapply chargedTo_trans; [| | apply Hcharged | apply Hrestcharged].
      * intros a [-> ->]. exists 0%nat, receiveAmount. rewrite Nat.add_0_r. done.
      * intros a (j & r & Hj & Hmk & Ha). exists (S j), r.
        replace (i + S j)%nat with (S i + j)%nat by lia. done.
Qed.

(** X15.  What [Allocate] returns has one entry of [Receives] and one of
    [Fees] per receive amount, under the asset of that receive amount, and
    the price differentials keep their number and their assets. *)
Theorem Allocate_keeps_legs_and_assets (receiveAmounts priceDiffs : list AssetAmount)
    (isMakers : list bool) (allocated : AllocatedAssets) (priceDiffs' : list AssetAmount) :
  Forall uint64Amount priceDiffs ->
  Allocate receiveAmounts priceDiffs isMakers = Ok (allocated, priceDiffs') ->
  length (Receives allocated) = length receiveAmounts
  /\ length (Fees allocated) = length receiveAmounts
  /\ AssetId <$> Receives allocated = AssetId <$> receiveAmounts
  /\ AssetId <$> Fees allocated = AssetId <$> receiveAmounts
  /\ AssetId <$> priceDiffs' = AssetId <$> priceDiffs.
Proof.
  unfold Allocate. intros Hpd Hrun.
  destruct (allocateFrom 0 receiveAmounts priceDiffs isMakers)
    as [[[receives fees] pds] | |] eqn:Hloop; cbn in Hrun; [| done | done].
  simplify_eq. cbn [Receives Fees].
  destruct (allocateFrom_shape _ _ _ _ _ _ _ Hpd Hloop) as (Hreceives & Hfees & Hcharged).
  split_and!; [| | done | done |].
  - by rewrite <- (length_fmap AssetId), Hreceives, length_fmap.
  - by rewrite <- (length_fmap AssetId), Hfees, length_fmap.
  - clear Hloop Hpd. induction Hcharged as [| d d' ds ds' (Hid & _) _ IH]; [done |].
    rewrite !fmap_cons, Hid, IH. done.
Qed.

(** X16.  [Allocate] never raises a price differential and never makes it
    negative, and it leaves alone every price differential whose asset no
    taker leg receives. *)
Theorem Allocate_only_lowers_taker_price_diffs (receiveAmounts priceDiffs : list AssetAmount)
    (isMakers : list bool) (allocated : AllocatedAssets) (priceDiffs' : list AssetAmount) :
  Forall uint64Amount priceDiffs ->
  Allocate receiveAmounts priceDiffs isMakers = Ok (allocated, priceDiffs') ->
  Forall2 (chargedTo (takerReceives receiveAmounts isMakers)) priceDiffs priceDiffs'.
Proof.
  unfold Allocate. intros Hpd Hrun.
  destruct (allocateFrom 0 receiveAmounts priceDiffs isMakers)
    as [[[receives fees] pds] | |] eqn:Hloop; cbn in Hrun; [| done | done].
  simplify_eq.
  by destruct (allocateFrom_shape _ _ _ _ _ _ _ Hpd Hloop) as (_ & _ & Hcharged).
Qed.

(** The legs of the loop of [Allocate], whatever the amounts add up to. *)
Lemma allocateFrom_legs (receiveAmounts : list AssetAmount) :
  forall (i : nat) (priceDiffs : list AssetAmount) (isMakers : list bool),
    Forall uint64Amount receiveAmounts ->
    Forall uint64Amount priceDiffs ->
    (i + length receiveAmounts <= length isMakers)%nat ->
    exists receives fees priceDiffs',
      allocateFrom i receiveAmounts priceDiffs isMakers = Ok (receives, fees, priceDiffs')
      /\ forall (j : nat) (receiveAmount : AssetAmount),
          receiveAmounts !! j = Some receiveAmount ->
          exists isMaker fee receive,
            isMakers !! (i + j)%nat = Some isMaker
            /\ calcFeeAmount (Amount receiveAmount) isMaker = Ok fee
            /\ receives !! j = Some receive
            /\ AssetId receive = AssetId receiveAmount
            /\ Amount receive = Amount receiveAmount - fee
            /\ 0 <= fee <= Amount receiveAmount.
Proof.
  induction receiveAmounts as [| receiveAmount rest IH];
    intros i priceDiffs isMakers Hrange Hpd Hlen.
  - exists [], [], priceDiffs. split; [done |]. intros j r Hj. done.
  - apply Forall_cons in Hrange as [Hra Hrest]. cbn [length] in Hlen.
    destruct (index_lt isMakers i ltac:(lia)) as (isMaker & Hidx & Hlk).
    destruct (calcFeeAmount_le (Amount receiveAmount) isMaker Hra) as (fee & Hfee & Hle & _).
    cbn [allocateFrom]. rewrite Hidx. cbn. rewrite Hfee. cbn.
    unfold uint64Amount in Hra.
    rewrite (wrap_u64_id (Amount receiveAmount - fee)) by lia.
    assert (exists priceDiffs1 feeAcc,
               (if negb isMaker then chargePriceDiffs (AssetId receiveAmount) priceDiffs fee
                else Ok (priceDiffs, fee)) = Ok (priceDiffs1, feeAcc)
               /\ Forall uint64Amount priceDiffs1)
      as (priceDiffs1 & feeAcc & -> & Hpd1).
    { destruct isMaker; cbn [negb].
      - by exists priceDiffs, fee.
      - destruct (chargePriceDiffs_charged (AssetId receiveAmount) priceDiffs fee Hpd)
          as (pds & acc & Hc & Hall).
        exists pds, acc. split; [done |]. by eapply chargedTo_uint64. }
    cbn.
    destruct (IH (S i) priceDiffs1 isMakers Hrest Hpd1 ltac:(lia))
      as (receives & fees & pds2 & -> & Hlegs).
    cbn. eexists _, _, _. split; [done |].
    intros [| j] r Hj.
    + cbn in Hj. simplify_eq. rewrite Nat.add_0_r.
      exists isMaker, fee, (mkAssetAmount (AssetId r) (Amount r - fee)).
      split_and!; first [done | lia].
    + cbn in Hj. destruct (Hlegs j r Hj) as (mk & f & rc & ? & ? & ? & ? & ? & ?).
      exists mk, f, rc. replace (i + S j)%nat with (S i + j)%nat by lia.
      split_and!; first [done | lia].
Qed.

(** X14.  Called on [uint64] amounts with at least as many makers flags
    as receive amounts, [Allocate] succeeds whatever the amounts add up to,
    and every leg receives, under its asset, its receive amount less the
    fee of [calcFeeAmount], which is between zero and the receive
    amount. *)
Theorem Allocate_pays_every_leg (receiveAmounts priceDiffs : list AssetAmount)
    (isMakers : list bool) :
  Forall uint64Amount receiveAmounts ->
  Forall uint64Amount priceDiffs ->
  (length receiveAmounts <= length isMakers)%nat ->
  exists allocated priceDiffs',
    Allocate receiveAmounts priceDiffs isMakers = Ok (allocated, priceDiffs')
    /\ forall (i : nat) (receiveAmount : AssetAmount),
        receiveAmounts !! i = Some receiveAmount ->
        exists isMaker fee receive,
          isMakers !! i = Some isMaker
          /\ calcFeeAmount (Amount receiveAmount) isMaker = Ok fee
          /\ Receives allocated !! i = Some receive
          /\ AssetId receive = AssetId receiveAmount
          /\ Amount receive = Amount receiveAmount - fee
          /\ 0 <= fee <= Amount receiveAmount.
Proof.
  intros Hrange Hpd Hlen. unfold Allocate.
  destruct (allocateFrom_legs receiveAmounts 0 priceDiffs isMakers Hrange Hpd ltac:(lia))
    as (receives & fees & pds & -> & Hlegs).
  cbn. eexists _, _. split; [done |]. cbn [Receives]. exact Hlegs.
Qed.

(** The loop of [Allocate] runs out of makers flags. *)
Lemma allocateFrom_short (receiveAmounts : list AssetAmount) :
  forall (i : nat) (priceDiffs : list AssetAmount) (isMakers : list bool),
    Forall uint64Amount receiveAmounts ->
    Forall uint64Amount priceDiffs ->
    (length isMakers < i + length receiveAmounts)%nat ->
    (i <= length isMakers)%nat ->
    allocateFrom i receiveAmounts priceDiffs isMakers = Fault IndexOutOfRange.
Proof.
  induction receiveAmounts as [| receiveAmount rest IH];
    intros i priceDiffs isMakers Hrange Hpd Hshort Hi.
  - cbn in Hshort. lia.
  - apply Forall_cons in Hrange as [Hra Hrest]. cbn [length] in Hshort.
    cbn [allocateFrom].
    destruct (decide (i = length isMakers)) as [-> | Hne].
    + unfold index. rewrite lookup_ge_None_2 by lia. done.
    + destruct (index_lt isMakers i ltac:(lia)) as (isMaker & -> & _). cbn.
      destruct (calcFeeAmount_le (Amount receiveAmount) isMaker Hra) as (fee & -> & _).
      cbn.
      assert (exists priceDiffs1 feeAcc,
                 (if negb isMaker then chargePriceDiffs (AssetId receiveAmount) priceDiffs fee
                  else Ok (priceDiffs, fee)) = Ok (priceDiffs1, feeAcc)
                 /\ Forall uint64Amount priceDiffs1)
        as (priceDiffs1 & feeAcc & -> & Hpd1).
      { destruct isMaker; cbn [negb].
        - by exists priceDiffs, fee.
        - destruct (chargePriceDiffs_charged (AssetId receiveAmount) priceDiffs fee Hpd)
            as (pds & acc & Hc & Hall).
          exists pds, acc. split; [done |]. by eapply chargedTo_uint64. }
      cbn. rewrite (IH (S i) priceDiffs1 isMakers Hrest Hpd1) by lia. done.
Qed.

(** X17.  Called on [uint64] amounts with fewer makers flags than receive
    amounts, [Allocate] panics with an index out of range. *)
Theorem Allocate_short_makers_panics (receiveAmounts priceDiffs : list AssetAmount)
    (isMakers : list bool) :
  Forall uint64Amount receiveAmounts ->
  Forall uint64Amount priceDiffs ->
  (length isMakers < length receiveAmounts)%nat ->
  Allocate receiveAmounts priceDiffs isMakers = Fault IndexOutOfRange.
Proof.
  intros Hrange Hpd Hshort. unfold Allocate.
  rewrite allocateFrom_short; [done | done | done | lia | lia].
Qed.

(** [Validate] accepts exactly when no leg is over-charged. *)
Lemma Validate_Ok_iff (receiveAmounts : list AssetAmount) (feeAmounts : gmap AssetID Z) :
  Validate receiveAmounts feeAmounts = Ok tt
  <-> forall receiveAmount,
        receiveAmount ∈ receiveAmounts ->
        exists cap,
          calcFeeAmount (Amount receiveAmount) false = Ok cap
          /\ chargedFee feeAmounts (AssetId receiveAmount) <= cap.
Proof.
  induction receiveAmounts as [| ra rest IH].
  - split; [| done]. intros _ r Hr. by apply elem_of_nil in Hr.
  - cbn [Validate]. fold (chargedFee feeAmounts (AssetId ra)).
    destruct (calcFeeAmount (Amount ra) false) as [cap | |] eqn:Hcap; cbn.
    + destruct (Z.gtb_spec (chargedFee feeAmounts (AssetId ra)) cap) as [Hgt | Hle].
      * split; [done |]. intros Hall.
        destruct (Hall ra ltac:(by left)) as (cap' & Hcap' & Hle).
        rewrite Hcap in Hcap'. simplify_eq. lia.
      * rewrite IH. split.
        -- intros Hall r [-> | Hr]%elem_of_cons; [by exists cap | by apply Hall].
        -- intros Hall r Hr. apply Hall. by right.
    + split; [done |]. intros Hall.
      destruct (Hall ra ltac:(by left)) as (cap' & Hcap' & _). congruence.
    + split; [done |]. intros Hall.
      destruct (Hall ra ltac:(by left)) as (cap' & Hcap' & _). congruence.
Qed.

(** X18.  When [Validate] accepts a map of charged fees, it accepts every
    map that charges the asset of each leg no more. *)
Theorem Validate_accepts_lower_fees (receiveAmounts : list AssetAmount)
    (feeAmounts feeAmounts' : gmap AssetID Z) :
  Validate receiveAmounts feeAmounts = Ok tt ->
  (forall receiveAmount, receiveAmount ∈ receiveAmounts ->
     chargedFee feeAmounts' (AssetId receiveAmount)
     <= chargedFee feeAmounts (AssetId receiveAmount)) ->
  Validate receiveAmounts feeAmounts' = Ok tt.
Proof.
  rewrite !Validate_Ok_iff. intros Hall Hlower r Hr.
  destruct (Hall r Hr) as (cap & Hcap & Hle). exists cap. split; [done |].
  specialize (Hlower r Hr). lia.
Qed.

(** X19.  On [uint64] amounts the result of [Validate] does not depend on
    the order of the receive amounts. *)
Theorem Validate_any_order (receiveAmounts receiveAmounts' : list AssetAmount)
    (feeAmounts : gmap AssetID Z) :
  Forall uint64Amount receiveAmounts ->
  receiveAmounts ≡ₚ receiveAmounts' ->
  Validate receiveAmounts feeAmounts = Validate receiveAmounts' feeAmounts.
Proof.
  intros Hrange Hperm.
  assert (forall ras, Forall uint64Amount ras ->
            Validate ras feeAmounts = Ok tt
            \/ Validate ras feeAmounts = Err ErrInvalidAmountOfFee) as Hcases.
  { intros ras Hras.
    destruct (Validate_cases ras feeAmounts) as [[-> _] | [-> _]]; [| by right | by left].
    intros r Hr. rewrite Forall_forall in Hras. apply (Hras r Hr). }
  assert (Forall uint64Amount receiveAmounts') as Hrange' by (by rewrite <- Hperm).
  assert (Validate receiveAmounts feeAmounts = Ok tt
          <-> Validate receiveAmounts' feeAmounts = Ok tt) as Hiff.
  { rewrite !Validate_Ok_iff. split; intros Hall r Hr; apply Hall.
    - by rewrite Hperm.
    - by rewrite <- Hperm. }
  destruct (Hcases _ Hrange) as [H1 | H1], (Hcases _ Hrange') as [H2 | H2];
    rewrite H1, H2; [done | | | done].
  - apply Hiff in H1. congruence.
  - apply Hiff in H2. congruence.
Qed.

(** The fees of the loop of [Allocate] when there is no price differential. *)
Lemma allocateFrom_no_price_diffs (receiveAmounts : list AssetAmount) :
  forall (i : nat) (isMakers : list bool) (receives fees priceDiffs' : list AssetAmount),
    allocateFrom i receiveAmounts [] isMakers = Ok (receives, fees, priceDiffs') ->
    priceDiffs' = []
    /\ Forall2 (fun receiveAmount fee =>
                  AssetId fee = AssetId receiveAmount
                  /\ exists isMaker,
                      calcFeeAmount (Amount receiveAmount) isMaker = Ok (Amount fee))
         receiveAmounts fees.
Proof.
  induction receiveAmounts as [| receiveAmount rest IH];
    intros i isMakers receives fees priceDiffs' Hrun.
  - cbn in Hrun. simplify_eq. split; [done | constructor].
  - cbn [allocateFrom] in Hrun.
    destruct (index isMakers i) as [isMaker | |]; cbn in Hrun; [| done | done].
    destruct (calcFeeAmount (Amount receiveAmount) isMaker) as [fee | |] eqn:Hfee;
      cbn in Hrun; [| done | done].
    destruct isMaker; cbn in Hrun;
      (destruct (allocateFrom (S i) rest [] isMakers) as [[[receives1 fees1] pds2] | |]
         eqn:Hrest; cbn in Hrun; [| done | done];
       simplify_eq; destruct (IH _ _ _ _ _ Hrest) as [-> Hall];
       (split; [done |]); (constructor; [| done]); (split; [done |]);
       eexists; exact Hfee).
Qed.

(** X20.  Without price differentials, the fees that [Allocate] charges
    on [uint64] receive amounts of pairwise different assets are accepted
    by [Validate] for those receive amounts. *)
Theorem Allocate_fees_pass_Validate (receiveAmounts : list AssetAmount)
    (isMakers : list bool) (allocated : AllocatedAssets) (priceDiffs' : list AssetAmount) :
  NoDup (AssetId <$> receiveAmounts) ->
  Forall uint64Amount receiveAmounts ->
  Allocate receiveAmounts [] isMakers = Ok (allocated, priceDiffs') ->
  Validate receiveAmounts (feeMapOf (Fees allocated)) = Ok tt.
Proof.
  unfold Allocate. intros Hnodup Hrange Hrun.
  destruct (allocateFrom 0 receiveAmounts [] isMakers)
    as [[[receives fees] pds] | |] eqn:Hloop; cbn in Hrun; [| done | done].
  simplify_eq. cbn [Fees].
  destruct (allocateFrom_no_price_diffs _ _ _ _ _ _ Hloop) as [_ Hfees].
  apply Validate_Ok_iff. intros r Hr.
  assert (AssetId <$> fees = AssetId <$> receiveAmounts) as Hids.
  { clear -Hfees. induction Hfees as [| x y xs ys [Hid _] _ IH]; [done |].
    by rewrite !fmap_cons, Hid, IH. }
  apply list_elem_of_lookup_1 in Hr as [j Hj].
  destruct (Forall2_lookup_l _ _ _ _ _ Hfees Hj) as (fee & Hfee & Hid & isMaker & Hcalc).
  assert (feeMapOf fees !! AssetId r = Some (Amount fee)) as Hlookup.
  { unfold feeMapOf. apply elem_of_list_to_map.
    - rewrite <- list_fmap_compose.
      replace (fst ∘ (fun fee0 : AssetAmount => (AssetId fee0, Amount fee0))) with AssetId
        by done.
      by rewrite Hids.
    - rewrite <- Hid. apply list_elem_of_fmap. exists fee. split; [done |].
      by eapply list_elem_of_lookup_2. }
  unfold chargedFee. rewrite Hlookup. cbn.
  rewrite Forall_forall in Hrange.
  assert (uint64Amount r) as Hr64 by (apply Hrange; by eapply list_elem_of_lookup_2).
  destruct (calcFeeAmount_le (Amount r) false Hr64) as (cap & Hcap & Hcaprange & _).
  exists cap. split; [done |].
  destruct isMaker.
  - destruct (calcFeeAmount_le (Amount r) true Hr64) as (fee0 & Hfee0 & _ & Hzero).
    rewrite Hcalc in Hfee0. simplify_eq. rewrite Hzero by done. lia.
  - rewrite Hcalc in Hcap. simplify_eq. lia.
Qed.

End MoreFeeStrategy.

(** ** More about the engine *)

Section MoreMatch.
Context `{Collaborators}.

(** *** Rings *)

Lemma validateTradePairsFrom_closed (tradePairs : list TradePair) :
  forall (rest : list TradePair) (i : nat),
    rest = drop i tradePairs ->
    (forall (j : nat) (tp tp' : TradePair),
        (i <= j)%nat ->
        tradePairs !! j = Some tp ->
        tradePairs !! getOppositeIndex (length tradePairs) j = Some tp' ->
        tpToAssetID tp = tpFromAssetID tp') ->
    validateTradePairsFrom tradePairs i rest = Ok tt.
Proof.
  induction rest as [| tradePair rest' IH]; intros i Hrest Hclosed; [done |].
  assert (tradePairs !! i = Some tradePair) as Hi.
  { rewrite <- (Nat.add_0_r i), <- lookup_drop, <- Hrest. done. }
  assert (rest' = drop (S i) tradePairs) as Hrest'.
  { change rest' with (drop 1 (tradePair :: rest')).
    rewrite Hrest, drop_drop. f_equal. lia. }
  pose proof (lookup_lt_Some _ _ _ Hi) as Hlt.
  destruct (index_lt tradePairs (getOppositeIndex (length tradePairs) i))
    as (opp & Hidx & Hlk).
  { apply getOppositeIndex_lt. lia. }
  cbn [validateTradePairsFrom]. rewrite Hidx. cbn.
  destruct (decide (tpToAssetID tradePair ≠ tpFromAssetID opp)) as [Hne | _].
  - destruct Hne. by apply (Hclosed i).
  - apply IH; [done |]. intros j tp tp' Hj. apply Hclosed. lia.
Qed.

(** X1.  [validateTradePairs] accepts a list of trade pairs exactly when
    it has at least two pairs and the [ToAssetID] of every pair is the
    [FromAssetID] of the next one, the first pair coming after the last. *)
Theorem closed_rings_are_the_valid_ones (tradePairs : list TradePair) :
  validateTradePairs tradePairs = Ok tt
  <-> (2 <= length tradePairs)%nat
      /\ forall (i : nat) (tp tp' : TradePair),
          tradePairs !! i = Some tp ->
          tradePairs !! ((i + 1) mod length tradePairs)%nat = Some tp' ->
          tpToAssetID tp = tpFromAssetID tp'.
Proof.
  split.
  - intros Hok. split.
    + destruct (Nat.le_gt_cases 2 (length tradePairs)) as [Hle | Hlt]; [done |].
      destruct (validateTradePairs_invalid tradePairs) as (err & Herr & _); [by left |].
      congruence.
    + intros i tp tp' Hi Hopp.
      destruct (decide (tpToAssetID tp = tpFromAssetID tp')) as [Heq | Hne]; [done |].
      destruct (validateTradePairs_invalid tradePairs) as (err & Herr & _).
      { right. by exists i, tp, tp'. }
      congruence.
  - intros [Hlen Hclosed]. unfold validateTradePairs.
    destruct (Nat.ltb_spec (length tradePairs) 2) as [Hlt | _]; [lia |].
    apply validateTradePairsFrom_closed; [done |].
    intros j tp tp' _ Hj Hopp. apply (Hclosed j); [done |].
    rewrite <- getOppositeIndex_mod; [done |]. by apply lookup_lt_Some in Hj.
Qed.

(** *** The orders at the head of the ring *)

Lemma peekOrdersFrom_all_or_nothing (table : OrderTable) (tradePairs : list TradePair) :
  forall orders : list Order,
    (exists found,
        Forall2 (fun tradePair order => PeekOrder table tradePair = Some order)
          tradePairs found
        /\ peekOrdersFrom table tradePairs orders = orders ++ found)
    \/ ((exists tradePair, tradePair ∈ tradePairs /\ PeekOrder table tradePair = None)
        /\ peekOrdersFrom table tradePairs orders = []).
Proof.
  induction tradePairs as [| tradePair rest IH]; intros orders.
  - left. exists []. split; [constructor | by rewrite app_nil_r].
  - cbn [peekOrdersFrom].
    destruct (PeekOrder table tradePair) as [order |] eqn:Hpeek.
    + destruct (IH (orders ++ [order])) as [(found & Hall & ->) | [(tp & Htp & Hnone) ->]].
      * left. exists (order :: found). split; [by constructor |].
        by rewrite <- app_assoc.
      * right. split; [| done]. exists tp. split; [by right | done].
    + right. split; [| done]. exists tradePair. split; [by left | done].
Qed.

(** X2.  [peekOrders] returns the order that [PeekOrder] gives for every
    trade pair, in the order of the pairs, or no order at all: as soon as
    one trade pair has no order the result is empty. *)
Theorem peekOrders_all_or_nothing (e : Engine) (tradePairs : list TradePair) :
  Forall2 (fun tradePair order => PeekOrder (orderTable e) tradePair = Some order)
    tradePairs (peekOrders e tradePairs)
  \/ ((exists tradePair,
          tradePair ∈ tradePairs /\ PeekOrder (orderTable e) tradePair = None)
      /\ peekOrders e tradePairs = []).
Proof.
  unfold peekOrders.
  destruct (peekOrdersFrom_all_or_nothing (orderTable e) tradePairs [])
    as [(found & Hall & Heq) | Hnone]; [| by right].
  left. by rewrite Heq.
Qed.

(** *** The probe *)

Lemma allCanBeMatchedFrom_spec (orders : list Order) :
  forall (rest : list Order) (i : nat),
    rest = drop i orders ->
    exists b,
      allCanBeMatchedFrom orders i rest = Ok b
      /\ (b = true
          <-> forall (j : nat) (order order' : Order),
                (i <= j)%nat ->
                orders !! j = Some order ->
                orders !! getOppositeIndex (length orders) j = Some order' ->
                canNotBeMatched order order' = false).
Proof.
  induction rest as [| order rest' IH]; intros i Hrest.
  - exists true. split; [done |]. split; [| done].
    intros _ j o o' Hij Hj _. apply lookup_lt_Some in Hj.
    assert (length (drop i orders) = 0%nat) as Hlen by (by rewrite <- Hrest).
    rewrite length_drop in Hlen. lia.
  - assert (orders !! i = Some order) as Hi.
    { rewrite <- (Nat.add_0_r i), <- lookup_drop, <- Hrest. done. }
    assert (rest' = drop (S i) orders) as Hrest'.
    { change rest' with (drop 1 (order :: rest')).
      rewrite Hrest, drop_drop. f_equal. lia. }
    pose proof (lookup_lt_Some _ _ _ Hi) as Hlt.
    destruct (index_lt orders (getOppositeIndex (length orders) i)) as (opp & Hidx & Hlk).
    { apply getOppositeIndex_lt. lia. }
    cbn [allCanBeMatchedFrom]. rewrite Hidx. cbn.
    destruct (canNotBeMatched order opp) eqn:Hcan.
    + exists false. split; [done |]. split; [done |].
      intros Hall. rewrite (Hall i order opp) in Hcan; done.
    + destruct (IH (S i) Hrest') as (b & Hb & Hiff). exists b. split; [done |].
      rewrite Hiff. split.
      * intros Hall j o o' Hij Hj Hopp.
        destruct (decide (j = i)) as [-> | Hne].
        -- rewrite Hi in Hj. rewrite Hlk in Hopp. by simplify_eq.
        -- apply (Hall j); [lia | done | done].
      * intros Hall j o o' Hij. apply Hall. lia.
Qed.

(** X3.  [HasMatchedTx] always returns a boolean (no index of its loop is
    out of range), and the boolean is true exactly when the ring is valid,
    every leg has a resting order and [canNotBeMatched] holds of no order
    and the next one, the first order coming after the last. *)
Theorem HasMatchedTx_answers (e : Engine) (tradePairs : list TradePair) :
  exists b,
    HasMatchedTx e tradePairs = Ok b
    /\ (b = true
        <-> validateTradePairs tradePairs = Ok tt
            /\ peekOrders e tradePairs <> []
            /\ forall (i : nat) (order order' : Order),
                peekOrders e tradePairs !! i = Some order ->
                peekOrders e tradePairs
                  !! ((i + 1) mod length (peekOrders e tradePairs))%nat = Some order' ->
                canNotBeMatched order order' = false).
Proof.
  unfold HasMatchedTx.
  destruct (validateTradePairs_cases tradePairs) as [Hv | (err & Hv & _)]; rewrite Hv.
  - destruct (peekOrders e tradePairs) as [| order orders] eqn:Hpeek.
    + exists false. split; [done |]. split; [done | by intros (_ & ? & _)].
    + cbn [length Nat.eqb].
      destruct (allCanBeMatchedFrom_spec (order :: orders) (order :: orders) 0 eq_refl)
        as (b & Hb & Hiff).
      exists b. split; [done |]. rewrite Hiff. split.
      * intros Hall. split_and!; [done | done |]. intros i o o' Hi Hopp.
        apply (Hall i); [lia | done |].
        rewrite getOppositeIndex_mod; [done |]. by apply lookup_lt_Some in Hi.
      * intros (_ & _ & Hall) j o o' _ Hj Hopp. apply (Hall j); [done |].
        rewrite <- getOppositeIndex_mod; [done |]. by apply lookup_lt_Some in Hj.
  - exists false. split; [done |]. split; [done |]. intros (Hok & _). congruence.
Qed.

(** *** Inputs, witness arguments and positions *)

Lemma addMatchTxOutput_leg (txData txData' : TxData) (order : Order) (oppositeAmount : Z) :
  addMatchTxOutput
    (TxData_setInputs txData
       (Inputs txData
          ++ [NewSpendInput [] (SourceID (Utxo order)) (FromAssetID order)
                (utxoAmount (Utxo order)) (SourcePos (Utxo order))
                (utxoControlProgram (Utxo order))]))
    (length (Inputs txData ++ [NewSpendInput [] (SourceID (Utxo order)) (FromAssetID order)
                (utxoAmount (Utxo order)) (SourcePos (Utxo order))
                (utxoControlProgram (Utxo order))]) - 1)
    order oppositeAmount = Ok txData' ->
  exists contractArgs shouldPayAmount receiveOutput more,
    legOutputsOf order oppositeAmount contractArgs shouldPayAmount (receiveOutput :: more)
    /\ Outputs txData' = Outputs txData ++ receiveOutput :: more
    /\ Inputs txData'
       = Inputs txData
           ++ [legInput order shouldPayAmount (length (Outputs txData))
                 (outAmount receiveOutput)]
    /\ Version txData' = Version txData
    /\ SerializedSize txData' = SerializedSize txData.
Proof.
  unfold addMatchTxOutput. intros Hrun.
  destruct (DecodeP2WMCProgram (utxoControlProgram (Utxo order))) as [contractArgs | |]
    eqn:Hdec; cbn in Hrun; [| done | done].
  destruct (calcRequestAmount (utxoAmount (Utxo order)) contractArgs) as [requestAmount | |]
    eqn:Hreq; cbn in Hrun; [| done | done].
  destruct (CalcShouldPayAmount (MinUint64 requestAmount oppositeAmount) contractArgs)
    as [shouldPayAmount | |] eqn:Hsp; cbn in Hrun; [| done | done].
  simplify_eq.
  cbn [Outputs Inputs Version SerializedSize TxData_setOutputs TxData_setInputs].
  eexists contractArgs, shouldPayAmount, _, _. split_and!; [| | | done | done].
  - exists requestAmount. split_and!; done.
  - destruct (utxoAmount (Utxo order) >? shouldPayAmount); [| done].
    by rewrite <- app_assoc.
  - rewrite length_app. cbn [length].
    replace (length (Inputs txData) + 1 - 1)%nat with (length (Inputs txData) + 0)%nat by lia.
    rewrite alter_app_r. done.
Qed.

Lemma buildMatchTxFrom_legs (orders : list Order) :
  forall (rest : list Order) (i : nat) (txData txData' : TxData),
    buildMatchTxFrom orders i rest txData = Ok txData' ->
    (exists inputs' outputs',
        Inputs txData' = Inputs txData ++ inputs'
        /\ length inputs' = length rest
        /\ Outputs txData' = Outputs txData ++ outputs')
    /\ Version txData' = Version txData
    /\ SerializedSize txData' = SerializedSize txData
    /\ forall (j : nat) (order : Order),
        rest !! j = Some order ->
        exists oppositeOrder contractArgs shouldPayAmount position receiveOutput more,
          orders !! getOppositeIndex (length orders) (i + j) = Some oppositeOrder
          /\ legOutputsOf order (utxoAmount (Utxo oppositeOrder)) contractArgs
               shouldPayAmount (receiveOutput :: more)
          /\ Inputs txData' !! (length (Inputs txData) + j)%nat
             = Some (legInput order shouldPayAmount position (outAmount receiveOutput))
          /\ forall (k : nat) (output : TxOutput),
              (receiveOutput :: more) !! k = Some output ->
              Outputs txData' !! (position + k)%nat = Some output.
Proof.
  induction rest as [| order rest IH]; intros i txData txData' Hrun.
  - cbn in Hrun. simplify_eq. split_and!; [| done | done | done].
    exists [], []. by rewrite !app_nil_r.
  - cbn [buildMatchTxFrom] in Hrun.
    destruct (index orders (getOppositeIndex (length orders) i)) as [oppositeOrder | |]
      eqn:Hopp; cbn in Hrun; [| done | done].
    apply index_Ok in Hopp.
    match type of Hrun with
    | context [addMatchTxOutput ?t ?k order ?a] =>
        destruct (addMatchTxOutput t k order a) as [txData1 | |] eqn:Hadd
    end; cbn in Hrun; [| done | done].
    cbn [Inputs TxData_setInputs] in Hadd.
    destruct (addMatchTxOutput_leg _ _ _ _ Hadd)
      as (contractArgs & shouldPayAmount & receiveOutput & more & Hleg & Houts & Hins
          & Hversion & Hsize).
    destruct (IH _ _ _ Hrun)
      as ((inputs' & outputs' & Hins' & Hlen' & Houts') & Hversion' & Hsize' & Hlegs).
    split_and!.
    + eexists (_ :: inputs'), ((receiveOutput :: more) ++ outputs'). split_and!.
      * rewrite Hins', Hins, <- app_assoc. done.
      * cbn [length]. by rewrite Hlen'.
      * rewrite Houts', Houts, <- app_assoc. done.
    + congruence.
    + congruence.
    + intros [| j] order' Hj.
      * cbn in Hj. simplify_eq. rewrite !Nat.add_0_r.
        exists oppositeOrder, contractArgs, shouldPayAmount, (length (Outputs txData)),
          receiveOutput, more.
        split_and!; [done | done | |].
        -- rewrite Hins', Hins, <- app_assoc, lookup_app_r by lia.
           by rewrite Nat.sub_diag.
        -- intros k output Hk. rewrite Houts', Houts, <- app_assoc.
           rewrite lookup_app_r by lia.
           replace (length (Outputs txData) + k - length (Outputs txData))%nat with k by lia.
           by apply lookup_app_l_Some.
      * cbn in Hj.
        destruct (Hlegs j order' Hj)
          as (opp' & args' & sp' & position' & recv' & more' & ? & ? & Hinput & ?).
        exists opp', args', sp', position', recv', more'.
        replace (i + S j)%nat with (S i + j)%nat by lia.
        split_and!; [done | done | | done].
        rewrite <- Hinput, Hins, length_app. cbn [length]. f_equal. lia.
Qed.

Lemma addFeeOutputsFrom_header (e : Engine) (entries : list (AssetID * feeAmount)) :
  forall txData txData' : TxData,
    addFeeOutputsFrom e entries txData = Ok txData' ->
    Version txData' = Version txData /\ SerializedSize txData' = SerializedSize txData.
Proof.
  induction entries as [| [feeAssetID amount] rest IH]; intros txData txData' Hrun.
  - cbn in Hrun. by simplify_eq.
  - cbn [addFeeOutputsFrom] in Hrun.
    destruct (addFeeOutputsOf e txData feeAssetID amount) as [txData1 | |] eqn:Hone;
      cbn in Hrun; [| done | done].
    destruct (IH _ _ Hrun) as [Hversion Hsize].
    unfold addFeeOutputsOf in Hone.
    match type of Hone with
    | context [div_s64 ?a ?b] => destruct (div_s64 a b) as [average | |]
    end; cbn in Hone; [| done | done].
    match type of Hone with
    | context [refundFrom ?a ?b ?c ?d ?f ?g ?h] =>
        destruct (refundFrom a b c d f g h) as [outputs1 | |]
    end; cbn in Hone; [| done | done].
    simplify_eq. done.
Qed.

(** X4.  In a transaction that [NextMatchedTx] returns, the input at the
    index of a leg spends the output of that leg's order, and its witness
    arguments carry the position of the leg's receive output: the outputs
    of the leg (the payment to the seller, then the continuation of a
    partial fill) are the outputs of the transaction from that position on.
    The fee outputs, which come later, do not move them. *)
Theorem inputs_point_at_their_outputs (e e' : Engine) (tradePairs : list TradePair)
    (tx : Tx) (i : nat) (order : Order) :
  NextMatchedTx e tradePairs = (e', Ok tx) ->
  peekOrders e tradePairs !! i = Some order ->
  exists oppositeOrder contractArgs shouldPayAmount position receiveOutput more,
    peekOrders e tradePairs !! getOppositeIndex (length (peekOrders e tradePairs)) i
    = Some oppositeOrder
    /\ legOutputsOf order (utxoAmount (Utxo oppositeOrder)) contractArgs shouldPayAmount
         (receiveOutput :: more)
    /\ Inputs tx !! i
       = Some (legInput order shouldPayAmount position (outAmount receiveOutput))
    /\ forall (k : nat) (output : TxOutput),
        (receiveOutput :: more) !! k = Some output ->
        Outputs tx !! (position + k)%nat = Some output.
Proof.
  intros Hnext Horder.
  destruct (NextMatchedTx_built _ _ _ _ Hnext) as [Hbuild _].
  destruct (buildMatchTx_stages _ _ _ Hbuild)
    as (legs & txData1 & feeMap & Hlegs & Hfee & Hfees & Hins & Houts).
  destruct (addFeeOutputsFrom_prefix _ _ _ _ Hfees) as (Hins1 & feeOutputs & Houts1).
  destruct (buildMatchTxFrom_legs _ _ _ _ _ Hlegs) as (_ & _ & _ & Hleg).
  destruct (Hleg i order Horder)
    as (opp & args & sp & position & recv & more & Hopp & Hlo & Hinput & Hposition).
  cbn [Inputs length Nat.add] in Hopp, Hinput.
  exists opp, args, sp, position, recv, more. split_and!; [done | done | |].
  - by rewrite Hins, Hins1.
  - intros k output Hk. rewrite Houts, Houts1. apply lookup_app_l_Some. by apply Hposition.
Qed.

(** X5.  A transaction that [buildMatchTx] returns has version 1 and one
    input per order, and its serialized size is the length of the text
    that [MarshalText] gives for the transaction while its size is still
    zero. *)
Theorem built_transaction_header (e : Engine) (orders : list Order) (tx : Tx) :
  buildMatchTx e orders = Ok tx ->
  Version tx = 1
  /\ length (Inputs tx) = length orders
  /\ exists byteData,
      MarshalText (TxData_setSerializedSize tx 0) = Ok byteData
      /\ SerializedSize tx = Z.of_nat (String.length byteData).
Proof.
  unfold buildMatchTx, addMatchTxFeeOutput. intros Hrun.
  destruct (buildMatchTxFrom orders 0 orders (mkTxData 1 0 [] [])) as [txData0 | |]
    eqn:Hlegs; cbn in Hrun; [| done | done].
  destruct (CalcFeeFromMatchedTx txData0) as [feeMap | |] eqn:Hfee;
    cbn in Hrun; [| done | done].
  destruct (addFeeOutputsFrom e (map_to_list feeMap) txData0) as [txData1 | |] eqn:Hfees;
    cbn in Hrun; [| done | done].
  destruct (MarshalText txData1) as [byteData | |] eqn:Hmarshal; cbn in Hrun; [| done | done].
  simplify_eq.
  destruct (buildMatchTxFrom_legs _ _ _ _ _ Hlegs)
    as ((inputs' & outputs' & Hins & Hlen & _) & Hversion & Hsize & _).
  destruct (addFeeOutputsFrom_header _ _ _ _ Hfees) as [Hversion1 Hsize1].
  destruct (addFeeOutputsFrom_prefix _ _ _ _ Hfees) as (Hins1 & _).
  cbn [Version SerializedSize Inputs app] in *.
  unfold TxData_setSerializedSize. cbn [Version SerializedSize Inputs Outputs].
  split_and!.
  - congruence.
  - by rewrite Hins1, Hins.
  - exists byteData. split; [| done].
    replace (mkTxData (Version txData1) 0 (Inputs txData1) (Outputs txData1)) with txData1;
      [done |].
    destruct txData1 as [v s ins outs]. cbn in *. congruence.
Qed.

(** *** The fee map *)

(** X8.  Every entry of the map that [CalcFeeFromMatchedTx] returns is
    for an asset that some input of the transaction spends; its payable fee
    is an [int64] other than zero and its cap is not negative. *)
Theorem fee_map_entries (txData : TxData) (feeMap : gmap AssetID feeAmount)
    (asset : AssetID) (amount : feeAmount) :
  CalcFeeFromMatchedTx txData = Ok feeMap ->
  feeMap !! asset = Some amount ->
  asset ∈ inAssetID <$> Inputs txData
  /\ payableFeeAmount amount <> 0
  /\ - 2 ^ 63 <= payableFeeAmount amount < 2 ^ 63
  /\ 0 <= maxFeeAmount amount.
Proof.
  intros Hcalc Hlookup.
  destruct (CalcFeeFromMatchedTx_spec _ _ Hcalc) as (receiveOutputs & _ & Hsome & _).
  destruct (Hsome _ _ Hlookup) as (Hnz & _ & Hrange & Hcap).
  destruct (CalcFeeFromMatchedTx_cap _ _ _ _ Hcalc Hlookup)
    as (input & _ & _ & _ & Hin & Hasset & _).
  split_and!; [| done | apply Hrange | apply Hrange | done].
  rewrite <- Hasset. by apply list_elem_of_fmap_2.
Qed.

Lemma addPayable_dom (m m' : gmap AssetID feeAmount) (assetID : AssetID) (delta : Z) :
  addPayable m assetID delta = Ok m' -> dom m' = dom m.
Proof.
  unfold addPayable. intros Hadd.
  destruct (m !! assetID) as [amount |] eqn:Hlk; [| done]. simplify_eq.
  rewrite dom_insert_L. apply subseteq_union_1_L, singleton_subseteq_l.
  by apply elem_of_dom.
Qed.

Lemma scanOutputs_foreign (outputs : list TxOutput) :
  forall (m : gmap AssetID feeAmount) (r : gmap string TxOutput) (output : TxOutput),
    output ∈ outputs ->
    IsP2WMCScript (outControlProgram output) = true ->
    outAssetID output ∉ dom m ->
    scanOutputs outputs m r = Fault NilMapEntry.
Proof.
  induction outputs as [| output' rest IH]; intros m r output Hin Hscript Hforeign.
  - by apply elem_of_nil in Hin.
  - cbn [scanOutputs].
    destruct (IsP2WMCScript (outControlProgram output')) eqn:Hscript'.
    + destruct (addPayable m (outAssetID output') (- wrap_s64 (outAmount output')))
        as [m' | |] eqn:Hadd; cbn.
      * apply elem_of_cons in Hin as [-> | Hin].
        -- unfold addPayable in Hadd. apply not_elem_of_dom in Hforeign.
           by rewrite Hforeign in Hadd.
        -- apply (IH m' r output); [done | done |].
           by rewrite (addPayable_dom _ _ _ _ Hadd).
      * unfold addPayable in Hadd. by destruct (m !! outAssetID output').
      * unfold addPayable in Hadd. destruct (m !! outAssetID output'); by simplify_eq.
    + apply elem_of_cons in Hin as [-> | Hin]; [congruence |].
      by apply (IH m _ output).
Qed.

(** X9.  [CalcFeeFromMatchedTx] panics on a transaction with an output
    locked by a P2WMC script whose asset no input spends: the map has no
    entry for the asset, and the nil entry is dereferenced. *)
Theorem foreign_script_output_panics (txData : TxData) (output : TxOutput) :
  output ∈ Outputs txData ->
  IsP2WMCScript (outControlProgram output) = true ->
  outAssetID output ∉ inAssetID <$> Inputs txData ->
  CalcFeeFromMatchedTx txData = Fault NilMapEntry.
Proof.
  intros Hin Hscript Hforeign. unfold CalcFeeFromMatchedTx.
  rewrite (scanOutputs_foreign _ _ _ output); [done | done | done |].
  intros [amount Hlookup]%elem_of_dom.
  rewrite initAssetAmountMap_lookup in Hlookup. by case_decide.
Qed.

(** *** The fee outputs *)

Lemma refundShares_shape (reminder : Z) (participants : nat) :
  0 <= reminder -> (0 < participants)%nat ->
  Forall (fun share => 1 <= share) (refundShares reminder participants)
  /\ (length (refundShares reminder participants) <= participants)%nat
  /\ (reminder = 0 -> refundShares reminder participants = []).
Proof.
  intros Hr Hn. unfold refundShares.
  destruct (Z.ltb_spec reminder (Z.of_nat participants)) as [Hlt | Hge].
  - split_and!.
    + apply Forall_replicate. lia.
    + rewrite length_replicate. lia.
    + by intros ->.
  - assert (1 <= reminder / Z.of_nat participants) as Havg
      by (apply Z.div_le_lower_bound; lia).
    assert (Z.of_nat participants * (reminder / Z.of_nat participants) <= reminder) as Hmul
      by (apply Z.mul_div_le; lia).
    split_and!.
    + apply Forall_app. split; [apply Forall_replicate; lia |].
      constructor; [| done]. rewrite Nat2Z.inj_sub by lia. nia.
    + rewrite length_app, length_replicate. cbn. lia.
    + lia.
Qed.

(** X11.  For an entry of the fee map whose payable fee is not negative,
    the loop body of [addMatchTxFeeOutput] appends one fee output to the
    node, of the asset and of at most the cap, followed by refunds of the
    same asset: at most one per input, each of at least one unit, and none
    when the payable fee does not exceed the cap. *)
Theorem refunds_are_positive_and_few (e : Engine) (txData txData' : TxData)
    (feeAssetID : AssetID) (amount : feeAmount) :
  0 <= payableFeeAmount amount < 2 ^ 63 ->
  0 <= maxFeeAmount amount ->
  addFeeOutputsOf e txData feeAssetID amount = Ok txData' ->
  exists feeOutput refunds,
    Outputs txData' = Outputs txData ++ feeOutput :: refunds
    /\ outControlProgram feeOutput = nodeProgram e
    /\ outAssetID feeOutput = feeAssetID
    /\ 0 <= outAmount feeOutput <= maxFeeAmount amount
    /\ (length refunds <= length (Inputs txData))%nat
    /\ Forall (fun refund => outAssetID refund = feeAssetID /\ 1 <= outAmount refund) refunds
    /\ (payableFeeAmount amount <= maxFeeAmount amount -> refunds = []).
Proof.
  intros Hpay Hcap Hrun.
  assert (0 < length (Inputs txData))%nat as Hinputs.
  { destruct (Inputs txData) as [| input inputs] eqn:Hnil; [| cbn; lia].
    unfold addFeeOutputsOf in Hrun. rewrite Hnil in Hrun. cbn in Hrun. done. }
  destruct (addFeeOutputsOf_spec _ _ _ _ _ Hpay Hcap Hrun)
    as (refunds & _ & Houtputs & Hshares & Hsellers).
  destruct (refundShares_shape
              (payableFeeAmount amount
               - Z.min (payableFeeAmount amount) (maxFeeAmount amount))
              (length (Inputs txData)) ltac:(lia) Hinputs) as (Hpos & Hlen & Hnone).
  rewrite <- Hshares in Hpos, Hlen, Hnone. rewrite length_fmap in Hlen.
  eexists _, refunds. split; [exact Houtputs |].
  cbn [outControlProgram outAssetID outAmount NewIntraChainOutput].
  split_and!; [done | done | lia | lia | done | |].
  - pose proof (refundsTo_asset _ _ _ Hsellers) as Hassets.
    rewrite Forall_fmap in Hpos.
    rewrite Forall_forall in Hassets, Hpos. apply Forall_forall.
    intros refund Hin. split; [by apply Hassets | by apply (Hpos refund)].
  - intros Hle. apply fmap_nil_inv with (f := outAmount). apply Hnone. lia.
Qed.

(** *** The continuation orders *)

Lemma addPartialTradeOrderFrom_no_script (tx : Tx) :
  forall (rest : list TxOutput) (i : nat) (table : OrderTable),
    Forall (fun output => IsP2WMCScript (outControlProgram output) = false) rest ->
    addPartialTradeOrderFrom tx i rest table = (table, Ok tt).
Proof.
  induction rest as [| output rest IH]; intros i table Hnone; [done |].
  apply Forall_cons in Hnone as [Hout Hrest].
  cbn [addPartialTradeOrderFrom]. rewrite Hout. cbn [negb]. by apply IH.
Qed.

(** X12.  When the transaction that [NextMatchedTx] returns has no output
    locked by a P2WMC script, no order is added: the order table is the
    one before the call with the order of every trade pair popped. *)
Theorem full_fills_only_pop (e e' : Engine) (tradePairs : list TradePair) (tx : Tx) :
  NextMatchedTx e tradePairs = (e', Ok tx) ->
  Forall (fun output => IsP2WMCScript (outControlProgram output) = false) (Outputs tx) ->
  orderTable e' = foldl PopOrder (orderTable e) tradePairs
  /\ nodeProgram e' = nodeProgram e.
Proof.
  intros Hnext Hnone.
  destruct (NextMatchedTx_built _ _ _ _ Hnext) as [Hbuild Hadd].
  unfold addPartialTradeOrder in Hadd.
  rewrite addPartialTradeOrderFrom_no_script in Hadd by done.
  split; [congruence |].
  unfold NextMatchedTx in Hnext.
  destruct (validateTradePairs tradePairs) as [[] | |]; [| congruence | congruence].
  destruct (length (peekOrders e tradePairs) =? 0)%nat; [congruence |].
  destruct (buildMatchTx e (peekOrders e tradePairs)) as [tx' | |];
    [| congruence | congruence].
  destruct (addPartialTradeOrder tx' (foldl PopOrder (orderTable e) tradePairs))
    as [table' [[] | |]]; by simplify_eq.
Qed.

(** *** Scripts that cannot be served *)

(** X7.  When the script of one of the orders at the head of the ring
    does not decode, or decodes with a zero denominator (the integer
    division of [calcRequestAmount] panics), [NextMatchedTx] returns no
    transaction and leaves the engine as it was. *)
Theorem unusable_script_stops_the_match (e : Engine) (tradePairs : list TradePair)
    (order : Order) :
  order ∈ peekOrders e tradePairs ->
  (forall contractArgs,
      DecodeP2WMCProgram (utxoControlProgram (Utxo order)) = Ok contractArgs ->
      RatioDenominator contractArgs = 0) ->
  (NextMatchedTx e tradePairs).1 = e
  /\ is_Ok (NextMatchedTx e tradePairs).2 = false.
Proof.
  intros Hin Hbad.
  assert (forall tx, buildMatchTx e (peekOrders e tradePairs) <> Ok tx) as Hnobuild.
  { intros tx Hbuild.
    destruct (buildMatchTx_stages _ _ _ Hbuild) as (legs & _ & _ & Hlegs & _).
    destruct (buildMatchTxFrom_spec _ _ _ _ _ Hlegs)
      as (inputs' & outputs' & _ & _ & _ & Hleg).
    apply list_elem_of_lookup_1 in Hin as [i Hi].
    destruct (Hleg i order Hi) as (opp & args & sp & outs & _ & Hlo & _).
    destruct Hlo as (requestAmount & Hdec & Hrequest & _).
    unfold calcRequestAmount, div_s64 in Hrequest.
    rewrite (Hbad _ Hdec) in Hrequest. done. }
  unfold NextMatchedTx.
  destruct (validateTradePairs tradePairs) as [[] | |]; [| done | done].
  destruct (length (peekOrders e tradePairs) =? 0)%nat; [done |].
  destruct (buildMatchTx e (peekOrders e tradePairs)) as [tx | |] eqn:Hbuild; [| done | done].
  by destruct (Hnobuild tx).
Qed.

(** *** The rates of the orders *)

Lemma addMatchTxOutput_ignores_rate (txData : TxData) (inputIdx : nat)
    (order order' : Order) (oppositeAmount : Z) :
  sameButRate order order' ->
  addMatchTxOutput txData inputIdx order oppositeAmount
  = addMatchTxOutput txData inputIdx order' oppositeAmount.
Proof.
  intros (Hfrom & Hto & Hutxo). unfold addMatchTxOutput.
  rewrite Hfrom, Hto, Hutxo. reflexivity.
Qed.

Lemma buildMatchTxFrom_ignores_rates (orders orders' : list Order) :
  Forall2 sameButRate orders orders' ->
  forall rest rest' : list Order,
    Forall2 sameButRate rest rest' ->
    forall (i : nat) (txData : TxData),
      buildMatchTxFrom orders i rest txData = buildMatchTxFrom orders' i rest' txData.
Proof.
  intros Hall rest rest' Hrest.
  induction Hrest as [| order order' rest rest' Hsame _ IH]; intros i txData; [done |].
  cbn [buildMatchTxFrom].
  pose proof Hsame as (Hfrom & Hto & Hutxo).
  rewrite <- (Forall2_length _ _ _ Hall), Hfrom, Hutxo.
  unfold index.
  destruct (orders !! getOppositeIndex (length orders) i) as [opposite |] eqn:Hopp.
  - destruct (Forall2_lookup_l _ _ _ _ _ Hall Hopp) as (opposite' & -> & _ & _ & Hutxo').
    cbn. rewrite <- Hutxo'.
    rewrite (addMatchTxOutput_ignores_rate _ _ order order') by done.
    destruct (addMatchTxOutput _ _ order' _) as [txData1 | |]; cbn; [apply IH | done | done].
  - assert (orders' !! getOppositeIndex (length orders) i = None) as ->; [| done].
    apply lookup_ge_None. rewrite <- (Forall2_length _ _ _ Hall).
    by apply lookup_ge_None.
Qed.

(** X21.  [buildMatchTx] does not read the rates of the orders: orders
    that differ at most in their rate give the same result, transaction or
    error. *)
Theorem buildMatchTx_ignores_rates (e : Engine) (orders orders' : list Order) :
  Forall2 sameButRate orders orders' ->
  buildMatchTx e orders = buildMatchTx e orders'.
Proof.
  intros Hall. unfold buildMatchTx.
  by rewrite (buildMatchTxFrom_ignores_rates orders orders' Hall orders orders' Hall).
Qed.

End MoreMatch.

(** ** The probe and the match

    [NextMatchedTx] goes through on a valid ring of settleable orders. *)

Section ProbeAndMatch.
Context `{Collaborators}.

(** The cap on the fee is defined for every [uint64]. *)
Lemma CalcMaxFeeAmount_total (shouldPayAmount : Z) :
  0 <= shouldPayAmount < 2 ^ 64 ->
  exists cap, CalcMaxFeeAmount shouldPayAmount = Ok cap.
Proof.
  intros Hsp. unfold CalcMaxFeeAmount.
  destruct (Z.eq_dec shouldPayAmount 0) as [-> | Hne].
  { eexists. vm_compute. reflexivity. }
  assert (0 < shouldPayAmount) as Hpos by lia.
  pose proof (Zdigits2_bounds shouldPayAmount _ Hpos eq_refl) as Hd.
  assert (Zdigits2 shouldPayAmount <= 64) as Hd64.
  { destruct (Z.le_gt_cases (Zdigits2 shouldPayAmount) 64) as [Hle | Hgt]; [done |].
    assert (2 ^ 64 <= 2 ^ (Zdigits2 shouldPayAmount - 1)) by (apply Z.pow_le_mono_r; lia).
    lia. }
  pose proof (Zdigits2_pos shouldPayAmount Hpos) as Hd0.
  destruct (of_Z_normal shouldPayAmount _ Hpos eq_refl ltac:(lia)) as (m & e & -> & Hm & He).
  rewrite c0_05_eq.
  destruct (mul_normal m e 7205759403792794 (-57)) as (m1 & e1 & -> & Hm1 & He1);
    [done | lia | lia | lia |].
  destruct (ceil_normal m1 e1 Hm1) as (z & Hz & Hz0 & Hzle & Hz1).
  assert (z <= 2 ^ 62) as Hz62.
  { destruct (Z.le_gt_cases 0 (53 + e1)) as [Hle | Hgt].
    - specialize (Hzle Hle).
      assert (2 ^ (53 + e1) <= 2 ^ 62) by (apply Z.pow_le_mono_r; lia). lia.
    - rewrite Hz1 by lia. lia. }
  exists z. unfold F64.ceil_int64. rewrite Hz.
  destruct (Z.leb_spec (- 2 ^ 63) z); [| lia].
  destruct (Z.ltb_spec z (2 ^ 63)); [done | lia].
Qed.

Lemma calcRequestAmount_total (fromAmount : Z) (contractArg : MagneticContractArgs) :
  RatioDenominator contractArg <> 0 ->
  exists requestAmount,
    calcRequestAmount fromAmount contractArg = Ok requestAmount
    /\ 0 <= requestAmount < 2 ^ 64.
Proof.
  intros Hden. unfold calcRequestAmount, div_s64.
  destruct (Z.eqb_spec (RatioDenominator contractArg) 0) as [Hz | _]; [done |].
  eexists. split; [reflexivity |]. apply wrap_u64_range.
Qed.

Lemma MinUint64_range (x y : Z) : 0 <= x -> 0 <= y -> 0 <= MinUint64 x y <= y.
Proof. intros Hx Hy. unfold MinUint64. destruct (Z.ltb_spec x y); lia. Qed.

(** What a settleable order pays for an amount within the bound is defined. *)
Lemma CalcShouldPayAmount_total (bound receiveAmount : Z) (contractArg : MagneticContractArgs) :
  0 <= receiveAmount <= bound ->
  0 < RatioNumerator contractArg < 2 ^ 53 ->
  0 < RatioDenominator contractArg < 2 ^ 63 ->
  bound * RatioDenominator contractArg < 2 ^ 53 ->
  exists shouldPayAmount,
    CalcShouldPayAmount receiveAmount contractArg = Ok shouldPayAmount
    /\ 0 <= shouldPayAmount < 2 ^ 53.
Proof.
  intros Hr Hnum Hden Hbound.
  assert (receiveAmount * RatioDenominator contractArg < 2 ^ 53) as Hprod by nia.
  eexists. split; [apply CalcShouldPayAmount_exact; lia |].
  split; [apply ceilDiv_nonneg; nia |].
  assert (ceilDiv (receiveAmount * RatioDenominator contractArg) (RatioNumerator contractArg)
          <= receiveAmount * RatioDenominator contractArg).
  { apply ceilDiv_le; [lia |]. nia. }
  lia.
Qed.

Lemma calcRequestAmount_range (fromAmount : Z) (contractArg : MagneticContractArgs)
    (requestAmount : Z) :
  calcRequestAmount fromAmount contractArg = Ok requestAmount ->
  0 <= requestAmount < 2 ^ 64.
Proof.
  unfold calcRequestAmount. destruct (div_s64 _ _) as [q | |]; cbn; [| done | done].
  intros [= <-]. apply wrap_u64_range.
Qed.

Lemma addMatchTxOutput_total (bound : Z) (txData : TxData) (inputIdx : nat) (order : Order)
    (oppositeAmount : Z) :
  settleable bound order ->
  0 <= oppositeAmount <= bound ->
  exists txData', addMatchTxOutput txData inputIdx order oppositeAmount = Ok txData'.
Proof.
  intros (Hamount & args & Hdec & Hseller & Hnum & Hden & Hbound) Hopp.
  unfold addMatchTxOutput. rewrite Hdec. cbn [mbind outcome_bind].
  destruct (calcRequestAmount_total (utxoAmount (Utxo order)) args)
    as (requestAmount & -> & Hrequest); [lia |].
  cbn [mbind outcome_bind].
  destruct (CalcShouldPayAmount_total bound (MinUint64 requestAmount oppositeAmount) args)
    as (shouldPayAmount & -> & _); [| done | done | done |].
  { pose proof (MinUint64_range requestAmount oppositeAmount). lia. }
  cbn [mbind outcome_bind]. eexists. reflexivity.
Qed.

Lemma drop_cons_lookup {A : Type} (xs rest : list A) (x : A) (i : nat) :
  x :: rest = drop i xs -> xs !! i = Some x /\ rest = drop (S i) xs.
Proof.
  intros Hrest. split.
  - rewrite <- (Nat.add_0_r i), <- lookup_drop, <- Hrest. done.
  - change rest with (drop 1 (x :: rest)). rewrite Hrest, drop_drop. f_equal. lia.
Qed.

(** The first loop of [buildMatchTx] goes through when every order is
    settleable. *)
Lemma buildMatchTxFrom_total (bound : Z) (orders : list Order) :
  Forall (settleable bound) orders ->
  forall (rest : list Order) (i : nat) (txData : TxData),
    rest = drop i orders ->
    exists txData', buildMatchTxFrom orders i rest txData = Ok txData'.
Proof.
  intros Hall. induction rest as [| order rest IH]; intros i txData Hrest.
  - eexists. reflexivity.
  - apply drop_cons_lookup in Hrest as [Hi Hrest].
    pose proof (lookup_lt_Some _ _ _ Hi) as Hlt.
    destruct (index_lt orders (getOppositeIndex (length orders) i)) as (opp & Hidx & Hlk).
    { apply getOppositeIndex_lt. lia. }
    rewrite Forall_forall in Hall.
    pose proof (Hall order (list_elem_of_lookup_2 _ _ _ Hi)) as Horder.
    pose proof (Hall opp (list_elem_of_lookup_2 _ _ _ Hlk)) as [Hopp _].
    cbn [buildMatchTxFrom]. rewrite Hidx. cbn [mbind outcome_bind].
    match goal with
    | |- context [addMatchTxOutput ?t ?k order ?a] =>
        destruct (addMatchTxOutput_total bound t k order a Horder Hopp) as (txData1 & ->)
    end.
    cbn [mbind outcome_bind]. by apply IH.
Qed.

(** The amounts and the assets of the outputs of a leg. *)
Lemma legOutputsOf_bounds (bound : Z) (order : Order) (oppositeAmount : Z)
    (contractArgs : MagneticContractArgs) (shouldPayAmount : Z) (outputs : list TxOutput) :
  settleable bound order ->
  0 <= oppositeAmount <= bound ->
  legOutputsOf order oppositeAmount contractArgs shouldPayAmount outputs ->
  Forall (fun output =>
            0 <= outAmount output <= bound
            /\ (outAssetID output = ToAssetID order \/ outAssetID output = FromAssetID order))
    outputs.
Proof.
  intros (Hamount & args & Hdec & Hseller & Hnum & Hden & Hbound) Hopp
    (requestAmount & Hdec' & Hrequest & Hpay & ->).
  apply calcRequestAmount_range in Hrequest. apply CalcShouldPayAmount_range in Hpay.
  pose proof (MinUint64_range requestAmount oppositeAmount).
  constructor.
  - cbn. split; [lia | by left].
  - destruct (Z.gtb_spec (utxoAmount (Utxo order)) shouldPayAmount) as [Hgt | _];
      [| constructor].
    constructor; [| constructor]. cbn. split; [| by right].
    assert (bound < 2 ^ 53) by nia.
    rewrite wrap_u64_id by lia. lia.
Qed.

(** A property of the outputs of every leg holds of all the outputs of the
    first loop of [buildMatchTx]. *)
Lemma buildMatchTxFrom_outputs (P : TxOutput -> Prop) (orders : list Order) :
  forall (rest : list Order) (i : nat) (txData txData' : TxData),
    buildMatchTxFrom orders i rest txData = Ok txData' ->
    (forall (j : nat) (order oppositeOrder : Order) contractArgs shouldPayAmount outputs,
        rest !! j = Some order ->
        orders !! getOppositeIndex (length orders) (i + j) = Some oppositeOrder ->
        legOutputsOf order (utxoAmount (Utxo oppositeOrder)) contractArgs shouldPayAmount
          outputs ->
        Forall P outputs) ->
    Forall P (Outputs txData) ->
    Forall P (Outputs txData').
Proof.
  induction rest as [| order rest IH]; intros i txData txData' Hrun Hlegs Hsofar.
  - cbn in Hrun. by simplify_eq.
  - cbn [buildMatchTxFrom] in Hrun.
    destruct (index orders (getOppositeIndex (length orders) i)) as [oppositeOrder | |]
      eqn:Hopp; cbn in Hrun; [| done | done].
    apply index_Ok in Hopp.
    match type of Hrun with
    | context [addMatchTxOutput ?t ?k order ?a] =>
        destruct (addMatchTxOutput t k order a) as [txData1 | |] eqn:Hadd
    end; cbn in Hrun; [| done | done].
    destruct (addMatchTxOutput_spec _ _ _ _ _ Hadd)
      as (contractArgs & shouldPayAmount & outputs & arguments & Hleg & Houts & _).
    cbn [Outputs TxData_setInputs] in Houts.
    apply (IH _ _ _ Hrun).
    + intros j order' opp' args' sp' outs' Hj Hopp'. apply (Hlegs (S j)); [done |].
      by replace (i + S j)%nat with (S i + j)%nat by lia.
    + rewrite Houts. apply Forall_app. split; [done |].
      apply (Hlegs 0%nat order oppositeOrder contractArgs shouldPayAmount); [done | | done].
      by rewrite Nat.add_0_r.
Qed.

(** *** The fee computation goes through *)

Lemma addPayable_total (m : gmap AssetID feeAmount) (assetID : AssetID) (delta : Z) :
  assetID ∈ dom m ->
  exists m', addPayable m assetID delta = Ok m' /\ dom m' = dom m.
Proof.
  intros [amount Hlk]%elem_of_dom. unfold addPayable. rewrite Hlk.
  eexists. split; [reflexivity |].
  rewrite dom_insert_L. apply subseteq_union_1_L, singleton_subseteq_l.
  by apply elem_of_dom.
Qed.

Lemma setMaxFee_total (m : gmap AssetID feeAmount) (assetID : AssetID) (v : Z) :
  assetID ∈ dom m ->
  exists m', setMaxFee m assetID v = Ok m' /\ dom m' = dom m.
Proof.
  intros [amount Hlk]%elem_of_dom. unfold setMaxFee. rewrite Hlk.
  eexists. split; [reflexivity |].
  rewrite dom_insert_L. apply subseteq_union_1_L, singleton_subseteq_l.
  by apply elem_of_dom.
Qed.

Lemma initAssetAmountMap_dom (inputs : list TxInput) (asset : AssetID) :
  asset ∈ dom (initAssetAmountMap inputs) <-> asset ∈ inAssetID <$> inputs.
Proof.
  rewrite elem_of_dom, initAssetAmountMap_lookup.
  case_decide as Hin; split; intros Hx; first [done | by destruct Hx | by eexists].
Qed.

Lemma scanOutputs_total (outputs : list TxOutput) :
  forall (m : gmap AssetID feeAmount) (r : gmap string TxOutput),
    Forall (fun output => outAssetID output ∈ dom m) outputs ->
    exists m' r', scanOutputs outputs m r = Ok (m', r') /\ dom m' = dom m.
Proof.
  induction outputs as [| output rest IH]; intros m r Hall.
  - eexists _, _. split; reflexivity.
  - apply Forall_cons in Hall as [Hout Hrest]. cbn [scanOutputs].
    destruct (IsP2WMCScript (outControlProgram output)).
    + destruct (addPayable_total m (outAssetID output) (- wrap_s64 (outAmount output)) Hout)
        as (m1 & -> & Hdom1).
      cbn [mbind outcome_bind].
      destruct (IH m1 r) as (m' & r' & -> & Hdom'); [by rewrite Hdom1 |].
      eexists _, _. split; [reflexivity | congruence].
    + by apply IH.
Qed.

(** The receive output found for a program is an output of the
    transaction. *)
Lemma lastReceiveOutput_elem (outputs : list TxOutput) (program : Program) :
  forall (found : option TxOutput) (receiveOutput : TxOutput),
    lastReceiveOutput outputs program found = Some receiveOutput ->
    receiveOutput ∈ outputs \/ found = Some receiveOutput.
Proof.
  induction outputs as [| output rest IH]; intros found receiveOutput Hlast.
  - by right.
  - cbn [lastReceiveOutput] in Hlast.
    destruct (IH _ _ Hlast) as [Hin | Hfound].
    + left. by right.
    + destruct (negb (IsP2WMCScript (outControlProgram output))
                && bool_decide (outControlProgram output = program)).
      * simplify_eq. left. by left.
      * by right.
Qed.

(** A program that locks an output other than a P2WMC script has a receive
    output. *)
Lemma lastReceiveOutput_is_Some (outputs : list TxOutput) (program : Program) :
  forall found : option TxOutput,
    is_Some found
    \/ (exists output,
           output ∈ outputs
           /\ IsP2WMCScript (outControlProgram output) = false
           /\ outControlProgram output = program) ->
    is_Some (lastReceiveOutput outputs program found).
Proof.
  induction outputs as [| output rest IH]; intros found Hsome.
  - destruct Hsome as [Hfound | (o & Hin & _)]; [done | by apply elem_of_nil in Hin].
  - cbn [lastReceiveOutput]. apply IH.
    destruct Hsome as [Hfound | (o & Hin & Hscript & Hprogram)].
    + left. by destruct (_ && _).
    + apply elem_of_cons in Hin as [-> | Hin].
      * left. rewrite Hscript, bool_decide_true by done. done.
      * right. by exists o.
Qed.

Lemma scanInputs_total (bound : Z) (r : gmap string TxOutput) (inputs : list TxInput) :
  forall m : gmap AssetID feeAmount,
    Forall (fun input =>
              inAssetID input ∈ dom m
              /\ exists contractArgs receiveOutput,
                  DecodeP2WMCProgram (inControlProgram input) = Ok contractArgs
                  /\ r !! SellerProgram contractArgs = Some receiveOutput
                  /\ outAssetID receiveOutput ∈ dom m
                  /\ 0 <= outAmount receiveOutput <= bound
                  /\ 0 < RatioNumerator contractArgs < 2 ^ 53
                  /\ 0 < RatioDenominator contractArgs < 2 ^ 63
                  /\ bound * RatioDenominator contractArgs < 2 ^ 53)
      inputs ->
    exists m', scanInputs inputs m r = Ok m'.
Proof.
  induction inputs as [| input rest IH]; intros m Hall.
  - eexists. reflexivity.
  - apply Forall_cons in Hall
      as [(Hasset & args & recv & Hdec & Hrecv & Hin & Hamount & Hnum & Hden & Hbound) Hrest].
    cbn [scanInputs]. rewrite Hdec. cbn [mbind outcome_bind].
    destruct (addPayable_total m (inAssetID input) (wrap_s64 (inAmount input)) Hasset)
      as (m1 & -> & Hdom1).
    cbn [mbind outcome_bind]. rewrite Hrecv.
    destruct (addPayable_total m1 (outAssetID recv) (- wrap_s64 (outAmount recv)))
      as (m2 & -> & Hdom2); [by rewrite Hdom1 |].
    cbn [mbind outcome_bind].
    destruct (CalcShouldPayAmount_total bound (outAmount recv) args)
      as (shouldPayAmount & -> & Hpay); [done | done | done | done |].
    cbn [mbind outcome_bind].
    destruct (CalcMaxFeeAmount_total shouldPayAmount) as (cap & ->); [lia |].
    cbn [mbind outcome_bind].
    destruct (setMaxFee_total m2 (inAssetID input) cap) as (m3 & -> & Hdom3);
      [by rewrite Hdom2, Hdom1 |].
    cbn [mbind outcome_bind]. apply IH.
    eapply Forall_impl; [apply Hrest |]. cbn beta.
    intros input' (Hasset' & args' & recv' & Hrecv'). rewrite Hdom3, Hdom2, Hdom1.
    split; [done |]. by exists args', recv'.
Qed.

Lemma spends_assets (orders : list Order) (inputs : list TxInput) :
  Forall2 spends orders inputs -> inAssetID <$> inputs = FromAssetID <$> orders.
Proof.
  induction 1 as [| order input orders inputs (Hasset & _) _ IH]; [done |].
  rewrite !fmap_cons. by f_equal.
Qed.

(** The outputs of the legs of settleable orders that chain into a ring
    hold assets that the orders offer, in amounts within the bound. *)
Lemma legs_outputs_bounds (bound : Z) (orders : list Order) (legs : TxData) :
  Forall (settleable bound) orders ->
  chained orders ->
  buildMatchTxFrom orders 0 orders (mkTxData 1 0 [] []) = Ok legs ->
  Forall (fun output =>
            0 <= outAmount output <= bound
            /\ outAssetID output ∈ FromAssetID <$> orders)
    (Outputs legs).
Proof.
  intros Hall Hchain Hlegs. rewrite Forall_forall in Hall.
  apply (buildMatchTxFrom_outputs _ _ _ _ _ _ Hlegs); [| constructor].
  intros j order opp args sp outs Hj Hopp Hleg. cbn [Nat.add] in Hopp.
  pose proof (list_elem_of_lookup_2 _ _ _ Hj) as Hin.
  pose proof (list_elem_of_lookup_2 _ _ _ Hopp) as Hin'.
  destruct (Hall opp Hin') as [Hamount _].
  destruct (Hchain j order Hj) as (order' & Hopp' & Hasset).
  rewrite Hopp in Hopp'. simplify_eq.
  eapply Forall_impl; [apply (legOutputsOf_bounds bound _ _ _ _ _ (Hall order Hin) Hamount Hleg) |].
  cbn beta. intros output [Hrange [Hto | Hfrom]]; (split; [done |]).
  - rewrite Hto, Hasset. by apply list_elem_of_fmap_2.
  - rewrite Hfrom. by apply list_elem_of_fmap_2.
Qed.

(** [CalcFeeFromMatchedTx] goes through on the legs of settleable orders
    that chain into a ring. *)
Lemma CalcFeeFromMatchedTx_total (bound : Z) (orders : list Order) (legs : TxData) :
  Forall (settleable bound) orders ->
  chained orders ->
  buildMatchTxFrom orders 0 orders (mkTxData 1 0 [] []) = Ok legs ->
  exists feeMap, CalcFeeFromMatchedTx legs = Ok feeMap.
Proof.
  intros Hall Hchain Hlegs.
  pose proof (legs_outputs_bounds _ _ _ Hall Hchain Hlegs) as Houtputs.
  destruct (buildMatchTxFrom_spec _ _ _ _ _ Hlegs)
    as (inputs' & outputs' & Hinputs' & Houtputs' & Hspends & Hleg).
  cbn [Inputs Outputs app] in Hinputs', Houtputs'.
  pose proof (spends_assets _ _ Hspends) as Hassets.
  assert (forall asset,
            asset ∈ dom (initAssetAmountMap (Inputs legs))
            <-> asset ∈ FromAssetID <$> orders) as Hdom0.
  { intros asset. by rewrite initAssetAmountMap_dom, Hinputs', Hassets. }
  unfold CalcFeeFromMatchedTx.
  destruct (scanOutputs_total (Outputs legs) (initAssetAmountMap (Inputs legs)) ∅)
    as (m1 & r1 & Hscan & Hdom1).
  { eapply Forall_impl; [apply Houtputs |]. cbn beta. intros output [_ Hin]. by apply Hdom0. }
  rewrite Hscan. cbn [mbind outcome_bind].
  pose proof (scanOutputs_receive _ _ _ _ _ Hscan) as Hr1.
  destruct (scanInputs_total bound r1 (Inputs legs) m1) as (m2 & ->);
    [| eexists; reflexivity].
  rewrite Forall_forall in Hall. rewrite Forall_forall in Houtputs. apply Forall_forall.
  intros input Hin. rewrite Hinputs' in Hin.
  apply list_elem_of_lookup_1 in Hin as [k Hk].
  destruct (Forall2_lookup_r _ _ _ _ _ Hspends Hk) as (order & Horder & Hasset & _ & Hprog).
  pose proof (list_elem_of_lookup_2 _ _ _ Horder) as Hmem.
  destruct (Hall order Hmem) as (_ & args & Hdec & Hseller & Hnum & Hden & Hbound).
  destruct (Hleg k order Horder) as (opp & args' & sp & outs & _ & Hlo & Hsub).
  destruct Hlo as (requestAmount & Hdec' & _ & _ & ->).
  rewrite Hdec in Hdec'. simplify_eq.
  destruct (lastReceiveOutput_is_Some (Outputs legs) (SellerProgram args') None)
    as [recv Hrecv].
  { right. eexists. split; [apply Hsub; by left |]. done. }
  destruct (lastReceiveOutput_elem _ _ _ _ Hrecv) as [Hrecvin | ?]; [| done].
  destruct (Houtputs recv Hrecvin) as [Hamount Hrecvasset].
  split.
  - rewrite Hdom1. apply Hdom0. rewrite Hasset. by apply list_elem_of_fmap_2.
  - exists args', recv. rewrite Hprog, Hr1, lookup_empty, Hdom1.
    split_and!; first [done | lia | by apply Hdom0].
Qed.

(** *** The fee outputs go through *)

Lemma refundFrom_total (inputsLen : nat) (feeAssetID : AssetID) (averageAmount : Z)
    (rest : list TxInput) :
  Forall (fun input => is_Ok (DecodeP2WMCProgram (inControlProgram input)) = true) rest ->
  forall (i : nat) (reminder : Z) (outputs : list TxOutput),
    exists refunds,
      refundFrom inputsLen feeAssetID averageAmount i rest reminder outputs
      = Ok (outputs ++ refunds)
      /\ Forall (fun refund => exists input, input ∈ rest /\ paysSellerOf input refund)
           refunds.
Proof.
  induction 1 as [| input rest Hdec _ IH]; intros i reminder outputs.
  - exists []. rewrite app_nil_r. split; [done | constructor].
  - cbn [refundFrom]. destruct (reminder >? 0).
    + destruct (DecodeP2WMCProgram (inControlProgram input)) as [args | |] eqn:Hargs;
        [| done | done].
      cbn [mbind outcome_bind].
      match goal with
      | |- context [refundFrom _ _ _ ?j rest ?rem ?outs] =>
          destruct (IH j rem outs) as (refunds & -> & Hall)
      end.
      eexists (_ :: refunds). rewrite <- app_assoc. split; [done |].
      constructor.
      * exists input. split; [by left |]. by exists args.
      * eapply Forall_impl; [apply Hall |]. cbn beta.
        intros refund (input' & Hin & Hpays). exists input'. split; [by right | done].
    + exists []. rewrite app_nil_r. split; [done | constructor].
Qed.

(** The fee outputs are paid to the node or to the seller of an input. *)
Lemma addFeeOutputsFrom_total (e : Engine) (entries : list (AssetID * feeAmount)) :
  forall txData : TxData,
    Inputs txData <> [] ->
    Forall (fun input => is_Ok (DecodeP2WMCProgram (inControlProgram input)) = true)
      (Inputs txData) ->
    exists feeOutputs,
      addFeeOutputsFrom e entries txData
      = Ok (TxData_setOutputs txData (Outputs txData ++ feeOutputs))
      /\ Forall (fun output =>
                   outControlProgram output = nodeProgram e
                   \/ exists input, input ∈ Inputs txData /\ paysSellerOf input output)
           feeOutputs.
Proof.
  induction entries as [| [feeAssetID amount] rest IH]; intros txData Hne Hdec.
  - exists []. rewrite app_nil_r. split; [by destruct txData | constructor].
  - cbn [addFeeOutputsFrom]. unfold addFeeOutputsOf, div_s64.
    destruct (Z.eqb_spec (Z.of_nat (length (Inputs txData))) 0) as [Hz | _].
    { destruct (Inputs txData); [done | cbn in Hz; lia]. }
    cbn [mbind outcome_bind].
    match goal with
    | |- context [refundFrom ?n ?a ?avg ?j (Inputs txData) ?rem ?outs] =>
        destruct (refundFrom_total n a avg (Inputs txData) Hdec j rem outs)
          as (refunds & -> & Hrefunds)
    end.
    cbn [mbind outcome_bind].
    match goal with
    | |- context [addFeeOutputsFrom e rest ?t] =>
        destruct (IH t) as (feeOutputs & -> & Hall); [done | done |]
    end.
    cbn [Inputs Outputs TxData_setOutputs] in *.
    eexists (_ :: refunds ++ feeOutputs). split.
    + unfold TxData_setOutputs. cbn [Version SerializedSize Inputs Outputs].
      by rewrite <- !app_assoc.
    + constructor; [by left |]. apply Forall_app. split; [| done].
      eapply Forall_impl; [apply Hrefunds |]. cbn beta. intros refund Hrefund. by right.
Qed.

(** *** The transaction is built and the continuation orders are inserted *)

Lemma spends_decodes (bound : Z) (orders : list Order) (inputs : list TxInput) :
  Forall (settleable bound) orders ->
  Forall2 spends orders inputs ->
  Forall (fun input =>
            exists contractArgs,
              DecodeP2WMCProgram (inControlProgram input) = Ok contractArgs
              /\ IsP2WMCScript (SellerProgram contractArgs) = false)
    inputs.
Proof.
  intros Hall Hspends. revert Hall.
  induction Hspends as [| order input orders inputs (_ & _ & Hprog) _ IH]; intros Hall;
    [constructor |].
  apply Forall_cons in Hall as [(_ & args & Hdec & Hseller & _) Hall].
  constructor; [| by apply IH]. exists args. by rewrite Hprog.
Qed.

(** [buildMatchTx] goes through on settleable orders that chain into a
    ring; the outputs locked by P2WMC scripts are continuations of orders,
    whose scripts decode. *)
Lemma buildMatchTx_total (bound : Z) (e : Engine) (orders : list Order) :
  orders <> [] ->
  Forall (settleable bound) orders ->
  chained orders ->
  (forall txData, is_Ok (MarshalText txData) = true) ->
  IsP2WMCScript (nodeProgram e) = false ->
  exists tx,
    buildMatchTx e orders = Ok tx
    /\ Forall (fun output =>
                 IsP2WMCScript (outControlProgram output) = true ->
                 is_Ok (DecodeP2WMCProgram (outControlProgram output)) = true)
         (Outputs tx).
Proof.
  intros Hne Hall Hchain Hmarshal Hnode.
  destruct (buildMatchTxFrom_total bound orders Hall orders 0 (mkTxData 1 0 [] []) eq_refl)
    as (legs & Hlegs).
  destruct (CalcFeeFromMatchedTx_total _ _ _ Hall Hchain Hlegs) as (feeMap & Hfee).
  destruct (buildMatchTxFrom_spec _ _ _ _ _ Hlegs)
    as (inputs' & outputs' & Hinputs' & _ & Hspends & _).
  cbn [Inputs app] in Hinputs'.
  pose proof (spends_decodes _ _ _ Hall Hspends) as Hdecodes.
  destruct (addFeeOutputsFrom_total e (map_to_list feeMap) legs)
    as (feeOutputs & Hfees & Hpaid).
  { rewrite Hinputs'. intros ->. apply Forall2_nil_inv_r in Hspends. done. }
  { rewrite Hinputs'. eapply Forall_impl; [apply Hdecodes |]. cbn beta.
    intros input (args & -> & _). done. }
  unfold buildMatchTx, addMatchTxFeeOutput.
  rewrite Hlegs. cbn [mbind outcome_bind]. rewrite Hfee. cbn [mbind outcome_bind].
  rewrite Hfees. cbn [mbind outcome_bind].
  specialize (Hmarshal (TxData_setOutputs legs (Outputs legs ++ feeOutputs))).
  destruct (MarshalText _) as [byteData | |]; [| done | done].
  cbn [mbind outcome_bind]. eexists. split; [reflexivity |].
  cbn [Outputs TxData_setSerializedSize TxData_setOutputs]. apply Forall_app. split.
  - apply (buildMatchTxFrom_outputs _ _ _ _ _ _ Hlegs); [| constructor].
    intros j order opp args sp outs Hj _ (requestAmount & Hdec & _ & _ & ->).
    rewrite Forall_forall in Hall.
    destruct (Hall order (list_elem_of_lookup_2 _ _ _ Hj)) as (_ & args' & Hdec' & Hseller & _).
    rewrite Hdec in Hdec'. simplify_eq.
    constructor.
    + cbn. congruence.
    + destruct (utxoAmount (Utxo order) >? sp); constructor; [| constructor].
      cbn. intros _. by rewrite Hdec.
  - eapply Forall_impl; [apply Hpaid |]. cbn beta.
    intros output [Hprogram | (input & Hin & args & Hdec & Hprogram)] Hscript.
    + congruence.
    + rewrite Hinputs' in Hin. rewrite Forall_forall in Hdecodes.
      destruct (Hdecodes input Hin) as (args' & Hdec' & Hseller). congruence.
Qed.

Lemma addPartialTradeOrderFrom_total (tx : Tx) :
  (forall table order contractArgs,
      DecodeP2WMCProgram (utxoControlProgram (Utxo order)) = Ok contractArgs ->
      (AddOrder table order).2 = None) ->
  forall (rest : list TxOutput) (i : nat) (table : OrderTable),
    rest = drop i (Outputs tx) ->
    Forall (fun output =>
              IsP2WMCScript (outControlProgram output) = true ->
              is_Ok (DecodeP2WMCProgram (outControlProgram output)) = true)
      rest ->
    exists table', addPartialTradeOrderFrom tx i rest table = (table', Ok tt).
Proof.
  intros Haccepts. induction rest as [| output rest IH]; intros i table Hrest Hall.
  - eexists. reflexivity.
  - apply drop_cons_lookup in Hrest as [Hi Hrest].
    apply Forall_cons in Hall as [Hout Hall].
    cbn [addPartialTradeOrderFrom].
    destruct (IsP2WMCScript (outControlProgram output)); cbn [negb]; [| by apply IH].
    unfold NewOrderFromOutput, index. rewrite Hi. cbn [mbind outcome_bind].
    destruct (DecodeP2WMCProgram (outControlProgram output)) as [args | |] eqn:Hdec;
      [| by specialize (Hout eq_refl) ..].
    cbn [mbind outcome_bind].
    match goal with
    | |- context [AddOrder table ?o] =>
        pose proof (Haccepts table o args Hdec) as Hadd;
        destruct (AddOrder table o) as [table1 [err |]]; [done |]
    end.
    by apply IH.
Qed.

(** The orders that a valid ring finds in a table that answers a trade
    pair with an order of that pair chain into a ring. *)
Lemma peekOrders_chained (e : Engine) (tradePairs : list TradePair) :
  (forall tradePair order,
      PeekOrder (orderTable e) tradePair = Some order ->
      FromAssetID order = tpFromAssetID tradePair
      /\ ToAssetID order = tpToAssetID tradePair) ->
  validateTradePairs tradePairs = Ok tt ->
  chained (peekOrders e tradePairs).
Proof.
  intros Hpairs Hvalid i order Horder. unfold peekOrders in *.
  destruct (peekOrdersFrom_all_or_nothing (orderTable e) tradePairs [])
    as [(found & Hall & Heq) | [_ Hempty]]; [| by rewrite Hempty in Horder].
  rewrite Heq in *. cbn [app] in *.
  pose proof (Forall2_length _ _ _ Hall) as Hlen.
  pose proof (lookup_lt_Some _ _ _ Horder) as Hlt.
  destruct (Forall2_lookup_r _ _ _ _ _ Hall Horder) as (tp & Htp & Hpeek).
  destruct (index_lt found (getOppositeIndex (length found) i)) as (order' & _ & Horder').
  { apply getOppositeIndex_lt. lia. }
  destruct (Forall2_lookup_r _ _ _ _ _ Hall Horder') as (tp' & Htp' & Hpeek').
  exists order'. split; [done |].
  destruct (Hpairs _ _ Hpeek) as [_ ->]. destruct (Hpairs _ _ Hpeek') as [-> _].
  destruct (decide (tpToAssetID tp = tpFromAssetID tp')) as [Heq' | Hne]; [done |].
  destruct (validateTradePairs_invalid tradePairs) as (err & Herr & _); [| congruence].
  right. exists i, tp, tp'. split_and!; [done | | done].
  rewrite <- getOppositeIndex_mod by lia. by rewrite Hlen.
Qed.

(** [NextMatchedTx] returns a transaction for a valid ring whose legs all
    have a settleable order, when the collaborators do their part. *)
Lemma NextMatchedTx_total (bound : Z) (e : Engine) (tradePairs : list TradePair) :
  cooperative e ->
  Forall (settleable bound) (peekOrders e tradePairs) ->
  validateTradePairs tradePairs = Ok tt ->
  peekOrders e tradePairs <> [] ->
  exists e' tx, NextMatchedTx e tradePairs = (e', Ok tx).
Proof.
  intros (Hpairs & Haccepts & Hmarshal & Hnode) Hall Hvalid Hne.
  pose proof (peekOrders_chained _ _ Hpairs Hvalid) as Hchain.
  destruct (buildMatchTx_total bound e _ Hne Hall Hchain Hmarshal Hnode)
    as (tx & Hbuild & Hscripts).
  unfold NextMatchedTx. rewrite Hvalid.
  destruct (peekOrders e tradePairs) as [| order orders] eqn:Hpeek; [done |].
  cbn [length Nat.eqb]. rewrite Hbuild.
  destruct (addPartialTradeOrderFrom_total tx Haccepts (Outputs tx) 0
              (foldl PopOrder (orderTable e) tradePairs) eq_refl Hscripts)
    as (table' & Hadd).
  unfold addPartialTradeOrder. rewrite Hadd. eexists _, _. reflexivity.
Qed.

(** When the probe answers no for the rates, some order cannot be matched
    with the next one. *)
Lemma allCanBeMatchedFrom_false (orders : list Order) :
  forall (rest : list Order) (i : nat),
    rest = drop i orders ->
    allCanBeMatchedFrom orders i rest = Ok false ->
    exists (j : nat) (order order' : Order),
      orders !! j = Some order
      /\ orders !! getOppositeIndex (length orders) j = Some order'
      /\ canNotBeMatched order order' = true.
Proof.
  induction rest as [| order rest IH]; intros i Hrest Hrun; [done |].
  apply drop_cons_lookup in Hrest as [Hi Hrest].
  cbn [allCanBeMatchedFrom] in Hrun.
  destruct (index orders (getOppositeIndex (length orders) i)) as [opp | |] eqn:Hopp;
    cbn in Hrun; [| done | done].
  apply index_Ok in Hopp.
  destruct (canNotBeMatched order opp) eqn:Hcan.
  - by exists i, order, opp.
  - by apply (IH (S i)).
Qed.


End ProbeAndMatch.

(** ** Concrete runs

    The engine on the small order book: the runs on which the statements
    above are exercised, and the runs on which the specification and the
    code part. *)

Section Runs.
Import Book.







(** C4 does not hold on all of [uint64]: the product of
    [calcRequestAmount] wraps in [int64], and [CalcShouldPayAmount] rounds
    to float64. *)
Lemma leg_amounts_wrap_and_round :
  calcRequestAmount (2 ^ 62) (script assetY 4 4 "seller") = Ok 0
  /\ 2 ^ 62 * 4 / 4 = 2 ^ 62
  /\ CalcShouldPayAmount (2 ^ 53 + 1) (script assetY 1 1 "seller") = Ok (2 ^ 53)
  /\ ceilDiv ((2 ^ 53 + 1) * 1) 1 = 2 ^ 53 + 1.
Proof. split_and!; vm_compute; reflexivity. Qed.

Lemma leg_amounts_exact_in_range_witness :
  calcRequestAmount 100 partialA = Ok 200
  /\ CalcShouldPayAmount 50 partialA = Ok 25.
Proof.
  destruct (leg_amounts_exact_in_range 100 50 partialA) as [Hrequest Hpay]. split.
  - apply Hrequest; cbn; lia.
  - apply Hpay; cbn; lia.
Defined.



(** C6 does not hold for a leg that pays nothing: an order of one unit at
    one half requests nothing, pays nothing, counts as partial, and its
    continuation order has the whole unit again. *)
Lemma dust_continuation_not_smaller :
  exists e' tx original continuation,
    NextMatchedTx (engine dustScripts add dustBook) ring = (e', Ok tx)
    /\ peekOrders (engine dustScripts add dustBook) ring !! 0%nat = Some original
    /\ calcRequestAmount (utxoAmount (Utxo original)) dustA = Ok 0
    /\ CalcShouldPayAmount 0 dustA = Ok 0
    /\ orderTable e' !! 0%nat = Some continuation
    /\ utxoControlProgram (Utxo continuation) = utxoControlProgram (Utxo original)
    /\ utxoAmount (Utxo continuation) = utxoAmount (Utxo original)
    /\ ~ utxoAmount (Utxo continuation) < utxoAmount (Utxo original).
Proof.
  eexists _, _, _, _. split; [vm_compute; reflexivity |].
  split; [vm_compute; reflexivity |].
  split_and!; [vm_compute; reflexivity .. | vm_compute; discriminate].
Qed.

Lemma continuation_order_of_partial_fill_witness :
  exists e' tx continuation,
    NextMatchedTx (engine partialScripts add partialBook) ring = (e', Ok tx)
    /\ continuation ∈ @continuationOrders (collaborators partialScripts add) tx
    /\ utxoControlProgram (Utxo continuation) = "scriptA"
    /\ utxoAmount (Utxo continuation) < 100.
Proof.
  destruct (NextMatchedTx (engine partialScripts add partialBook) ring)
    as [e' [tx | err | f]] eqn:Hnext;
    [| vm_compute in Hnext; discriminate | vm_compute in Hnext; discriminate].
  destruct (continuation_order_of_partial_fill _ _ _ _ 0
              (order assetX assetY 100 "scriptA" partialA) Hnext)
    as (opp & args & sp & legOutputs & Hopp & Hleg & _ & Hpartial).
  - reflexivity.
  - reflexivity.
  - cbn. lia.
  - vm_compute in Hopp. injection Hopp as <-.
    destruct Hleg as (requestAmount & Hdec & Hrequest & Hpay & _).
    vm_compute in Hdec. injection Hdec as <-.
    vm_compute in Hrequest. injection Hrequest as <-.
    vm_compute in Hpay. injection Hpay as <-.
    destruct Hpartial as (position & continuation & _ & Hin & _ & _ & Hprogram & Hamount & _).
    { reflexivity. }
    exists e', tx, continuation. split; [reflexivity |].
    split; [exact Hin |]. split; [exact Hprogram |]. rewrite Hamount. cbn. lia.
Defined.

Lemma invalid_ring_rejected_witness :
  HasMatchedTx (engine generousScripts add generousBook) [pairXY; pairXY] = Ok false
  /\ exists err,
      NextMatchedTx (engine generousScripts add generousBook) [pairXY; pairXY]
      = (engine generousScripts add generousBook, Err err)
      /\ invalidRing err.
Proof.
  apply invalid_ring_rejected. right. exists 0%nat, pairXY, pairXY.
  split_and!; [reflexivity | reflexivity | vm_compute; discriminate].
Defined.

(** C8 does not hold for [Validate]: receive amounts are accepted against
    an empty map of charged fees. *)
Lemma Validate_accepts_missing_entry :
  Validate [mkAssetAmount assetX 10000] ∅ = Ok tt.
Proof. vm_compute. reflexivity. Qed.

Lemma missing_receive_output_and_missing_fee_entry_witness :
  is_Ok (@CalcFeeFromMatchedTx (collaborators generousScripts add)
           (mkTxData 1 0 [NewSpendInput [] 7%N assetX 100 0 "scriptA"] [])) = false
  /\ Validate [mkAssetAmount assetX 10000] ∅ = Ok tt.
Proof.
  destruct (@missing_receive_output_and_missing_fee_entry (collaborators generousScripts add)
              (mkTxData 1 0 [NewSpendInput [] 7%N assetX 100 0 "scriptA"] [])
              (NewSpendInput [] 7%N assetX 100 0 "scriptA") generousA
              [mkAssetAmount assetX 10000] ∅) as (Hfee & _ & Hvalidate).
  split.
  - apply Hfee.
    + by left.
    + reflexivity.
    + intros output Hin%elem_of_nil. destruct Hin.
  - apply Hvalidate.
    + repeat constructor; cbn; lia.
    + intros receiveAmount _. reflexivity.
Defined.

(** C9 does not hold on all of [uint64]: the cap is computed in float64.
    For this amount the charged fee equals the ceiling of three
    ten-thousandths of the amount, and [Validate] rejects it: the product
    by three is rounded down to a multiple of ten thousand. *)
Lemma float_cap_below_exact_ceiling :
  ceilDiv (3 * 3825064267326667) 10000 = 1147519280199
  /\ Validate [mkAssetAmount assetX 3825064267326667] {[assetX := 1147519280199]}
     = Err ErrInvalidAmountOfFee.
Proof. split; vm_compute; reflexivity. Qed.

Lemma Validate_rejects_exactly_overcharge_witness :
  Validate [mkAssetAmount assetX 10000] {[assetX := 4]} = Err ErrInvalidAmountOfFee
  /\ Validate [mkAssetAmount assetX 10000] {[assetX := 3]} = Ok tt.
Proof.
  assert (forall receiveAmount,
            receiveAmount ∈ [mkAssetAmount assetX 10000] ->
            0 <= Amount receiveAmount /\ 3 * Amount receiveAmount < 2 ^ 53) as Hrange.
  { intros receiveAmount ->%list_elem_of_singleton. cbn. lia. }
  split.
  - apply (proj1 (Validate_rejects_exactly_overcharge _ {[assetX := 4]} Hrange)).
    exists (mkAssetAmount assetX 10000). split; [by left | vm_compute; reflexivity].
  - apply (proj2 (Validate_rejects_exactly_overcharge _ {[assetX := 3]} Hrange)).
    intros receiveAmount ->%list_elem_of_singleton. vm_compute. discriminate.
Defined.

(** C10 does not hold on all of [uint64]: the fees charged on the price
    differentials are added up in [uint64], and the sum of 3400 charges on
    the largest amount wraps. *)
Lemma Allocate_fee_wraps :
  exists allocated priceDiffs',
    Allocate [mkAssetAmount assetX 1] (replicate 3400 (mkAssetAmount assetX (2 ^ 64 - 1)))
      [false] = Ok (allocated, priceDiffs')
    /\ totalOf assetX (amountEntries (Receives allocated))
       + totalOf assetX (amountEntries (Fees allocated))
       + totalOf assetX (amountEntries priceDiffs')
       <> totalOf assetX (amountEntries [mkAssetAmount assetX 1])
          + totalOf assetX
              (amountEntries (replicate 3400 (mkAssetAmount assetX (2 ^ 64 - 1)))).
Proof.
  eexists _, _. split; [vm_compute; reflexivity | vm_compute; discriminate].
Qed.

Lemma Allocate_conserves_witness :
  exists allocated priceDiffs',
    Allocate [mkAssetAmount assetX 10000; mkAssetAmount assetY 20000]
      [mkAssetAmount assetX 500] [false; true] = Ok (allocated, priceDiffs')
    /\ forall asset,
        totalOf asset (amountEntries (Receives allocated))
        + totalOf asset (amountEntries (Fees allocated))
        + totalOf asset (amountEntries priceDiffs')
        = totalOf asset
            (amountEntries [mkAssetAmount assetX 10000; mkAssetAmount assetY 20000])
          + totalOf asset (amountEntries [mkAssetAmount assetX 500]).
Proof.
  destruct (Allocate_conserves [mkAssetAmount assetX 10000; mkAssetAmount assetY 20000]
              [mkAssetAmount assetX 500] [false; true])
    as (allocated & priceDiffs' & Hrun & _ & Htotal).
  - reflexivity.
  - repeat constructor; cbn; lia.
  - repeat constructor; cbn; lia.
  - intros asset. unfold amountEntries. cbn. repeat case_decide; lia.
  - exists allocated, priceDiffs'. split; [exact Hrun | exact Htotal].
Defined.

End Runs.

(** ** More concrete runs *)

Section MoreRuns.
Import Book.

Lemma inputs_point_at_their_outputs_witness :
  exists e' tx position output,
    NextMatchedTx (engine partialScripts add partialBook) ring = (e', Ok tx)
    /\ Outputs tx !! position = Some output
    /\ outControlProgram output = "sellerA"
    /\ exists input, Inputs tx !! 0%nat = Some input /\ inAmount input = 100.
Proof.
  destruct (NextMatchedTx (engine partialScripts add partialBook) ring)
    as [e' [tx | err | f]] eqn:Hnext;
    [| vm_compute in Hnext; discriminate | vm_compute in Hnext; discriminate].
  destruct (inputs_point_at_their_outputs _ _ _ _ 0
              (order assetX assetY 100 "scriptA" partialA) Hnext)
    as (opp & args & sp & position & receiveOutput & more & _ & Hleg & Hinput & Hposition).
  - reflexivity.
  - destruct Hleg as (requestAmount & Hdec & _ & _ & Houtputs).
    vm_compute in Hdec. injection Hdec as <-.
    injection Houtputs as -> _.
    exists e', tx, position, (NewIntraChainOutput assetY
                                (MinUint64 requestAmount (utxoAmount (Utxo opp))) "sellerA").
    split; [reflexivity |]. split.
    + rewrite <- (Nat.add_0_r position). by apply Hposition.
    + split; [reflexivity |]. eexists. split; [exact Hinput | reflexivity].
Defined.

Lemma built_transaction_header_witness :
  exists tx,
    buildMatchTx (engine generousScripts add generousBook) generousBook = Ok tx
    /\ Version tx = 1
    /\ length (Inputs tx) = 2%nat.
Proof.
  destruct (buildMatchTx (engine generousScripts add generousBook) generousBook)
    as [tx | err | f] eqn:Hbuild;
    [| vm_compute in Hbuild; discriminate | vm_compute in Hbuild; discriminate].
  destruct (built_transaction_header _ _ _ Hbuild) as (Hversion & Hinputs & _).
  exists tx. split; [reflexivity |]. split; [exact Hversion | exact Hinputs].
Defined.

Lemma leg_pays_at_most_the_offer_witness :
  exists requestAmount shouldPayAmount,
    calcRequestAmount 100 partialA = Ok requestAmount
    /\ CalcShouldPayAmount (MinUint64 requestAmount 50) partialA = Ok shouldPayAmount
    /\ shouldPayAmount <= 100.
Proof.
  destruct (leg_pays_at_most_the_offer 100 50 partialA)
    as (requestAmount & shouldPayAmount & Hrequest & Hpay & Hle & _);
    [lia | lia | cbn; lia | cbn; lia | cbn; lia |].
  exists requestAmount, shouldPayAmount. split; [exact Hrequest |].
  split; [exact Hpay | lia].
Defined.

Lemma unusable_script_stops_the_match_witness :
  (NextMatchedTx
     (engine [("scriptA", script assetY 1 0 "sellerA"); ("scriptB", generousB)] add
        generousBook) ring).1
  = engine [("scriptA", script assetY 1 0 "sellerA"); ("scriptB", generousB)] add generousBook.
Proof.
  apply (unusable_script_stops_the_match
           (engine [("scriptA", script assetY 1 0 "sellerA"); ("scriptB", generousB)] add
              generousBook)
           ring (order assetX assetY 100 "scriptA" generousA)).
  - apply (list_elem_of_lookup_2 _ 0%nat). reflexivity.
  - intros contractArgs Hdec. vm_compute in Hdec. injection Hdec as <-. reflexivity.
Defined.

Lemma fee_map_entries_witness :
  exists feeMap amount,
    @CalcFeeFromMatchedTx (collaborators generousScripts add)
      (mkTxData 1 0
         [NewSpendInput [] 7%N assetX 100 0 "scriptA";
          NewSpendInput [] 7%N assetY 100 0 "scriptB"]
         [NewIntraChainOutput assetY 50 "sellerA"; NewIntraChainOutput assetX 50 "sellerB"])
    = Ok feeMap
    /\ feeMap !! assetX = Some amount
    /\ payableFeeAmount amount <> 0
    /\ 0 <= maxFeeAmount amount.
Proof.
  destruct (@CalcFeeFromMatchedTx (collaborators generousScripts add)
              (mkTxData 1 0
                 [NewSpendInput [] 7%N assetX 100 0 "scriptA";
                  NewSpendInput [] 7%N assetY 100 0 "scriptB"]
                 [NewIntraChainOutput assetY 50 "sellerA";
                  NewIntraChainOutput assetX 50 "sellerB"]))
    as [feeMap | err | f] eqn:Hfee;
    [| vm_compute in Hfee; discriminate | vm_compute in Hfee; discriminate].
  assert (feeMap !! assetX = Some (mkFeeAmount 5 50)) as Hlookup.
  { vm_compute in Hfee. injection Hfee as <-. vm_compute. reflexivity. }
  destruct (fee_map_entries _ _ _ _ Hfee Hlookup) as (_ & Hnz & _ & Hcap).
  exists feeMap, (mkFeeAmount 5 50). split; [reflexivity |].
  split; [exact Hlookup |]. split; [exact Hnz | exact Hcap].
Defined.

Lemma foreign_script_output_panics_witness :
  @CalcFeeFromMatchedTx (collaborators generousScripts add)
    (mkTxData 1 0 [NewSpendInput [] 7%N assetX 100 0 "scriptA"]
       [NewIntraChainOutput assetY 10 "scriptB"])
  = Fault NilMapEntry.
Proof.
  apply (@foreign_script_output_panics (collaborators generousScripts add) _
           (NewIntraChainOutput assetY 10 "scriptB")).
  - by left.
  - reflexivity.
  - cbn. intros Hin%list_elem_of_singleton. discriminate.
Defined.

Lemma CalcMaxFeeAmount_exact_witness : CalcMaxFeeAmount 50 = Ok 3.
Proof. apply (CalcMaxFeeAmount_exact 50). lia. Defined.

Lemma refunds_are_positive_and_few_witness :
  exists txData' feeOutput refunds,
    addFeeOutputsOf (engine generousScripts add generousBook)
      (mkTxData 1 0
         [NewSpendInput [] 7%N assetX 100 0 "scriptA";
          NewSpendInput [] 7%N assetY 100 0 "scriptB"]
         [NewIntraChainOutput assetY 50 "sellerA"; NewIntraChainOutput assetX 50 "sellerB"])
      assetX (mkFeeAmount 5 50) = Ok txData'
    /\ Outputs txData'
       = [NewIntraChainOutput assetY 50 "sellerA"; NewIntraChainOutput assetX 50 "sellerB"]
           ++ feeOutput :: refunds
    /\ outAmount feeOutput <= 5
    /\ (length refunds <= 2)%nat.
Proof.
  destruct (addFeeOutputsOf (engine generousScripts add generousBook)
              (mkTxData 1 0
                 [NewSpendInput [] 7%N assetX 100 0 "scriptA";
                  NewSpendInput [] 7%N assetY 100 0 "scriptB"]
                 [NewIntraChainOutput assetY 50 "sellerA";
                  NewIntraChainOutput assetX 50 "sellerB"])
              assetX (mkFeeAmount 5 50)) as [txData' | err | f] eqn:Hrun;
    [| vm_compute in Hrun; discriminate | vm_compute in Hrun; discriminate].
  assert (0 <= payableFeeAmount (mkFeeAmount 5 50) < 2 ^ 63) as Hpay by (cbn; lia).
  assert (0 <= maxFeeAmount (mkFeeAmount 5 50)) as Hcap by (cbn; lia).
  destruct (refunds_are_positive_and_few _ _ _ _ _ Hpay Hcap Hrun)
    as (feeOutput & refunds & Houtputs & _ & _ & Hfee & Hlen & _).
  exists txData', feeOutput, refunds. split; [reflexivity |].
  split; [exact Houtputs |]. split; [apply Hfee | exact Hlen].
Defined.

Lemma full_fills_only_pop_witness :
  exists e' tx,
    NextMatchedTx (engine generousScripts add generousBook) ring = (e', Ok tx)
    /\ orderTable e' = [].
Proof.
  destruct (NextMatchedTx (engine generousScripts add generousBook) ring)
    as [e' [tx | err | f]] eqn:Hnext;
    [| vm_compute in Hnext; discriminate | vm_compute in Hnext; discriminate].
  destruct (full_fills_only_pop _ _ _ _ Hnext) as [Htable _].
  - vm_compute in Hnext. injection Hnext as _ <-. repeat constructor.
  - exists e', tx. split; [reflexivity |]. rewrite Htable. reflexivity.
Defined.

Lemma fee_of_an_amount_witness :
  calcFeeAmount 10000 true = Ok 0
  /\ exists fee, calcFeeAmount 10000 false = Ok fee /\ 0 <= fee <= 10000.
Proof.
  destruct (fee_of_an_amount 10000 ltac:(lia)) as (Hmaker & fee & Htaker & Hrange & _).
  split; [exact Hmaker |]. exists fee. split; [exact Htaker | exact Hrange].
Defined.

Lemma Allocate_pays_every_leg_witness :
  exists allocated priceDiffs',
    Allocate [mkAssetAmount assetX 10000; mkAssetAmount assetY 20000]
      [mkAssetAmount assetX (2 ^ 64 - 1)] [false; true] = Ok (allocated, priceDiffs')
    /\ exists receive,
        Receives allocated !! 0%nat = Some receive /\ Amount receive <= 10000.
Proof.
  destruct (Allocate_pays_every_leg [mkAssetAmount assetX 10000; mkAssetAmount assetY 20000]
              [mkAssetAmount assetX (2 ^ 64 - 1)] [false; true])
    as (allocated & priceDiffs' & Hrun & Hlegs).
  - repeat constructor; cbn; lia.
  - repeat constructor; cbn; lia.
  - cbn. lia.
  - exists allocated, priceDiffs'. split; [exact Hrun |].
    destruct (Hlegs 0%nat (mkAssetAmount assetX 10000) eq_refl)
      as (isMaker & fee & receive & _ & _ & Hreceive & _ & Hamount & Hfee).
    exists receive. split; [exact Hreceive |]. rewrite Hamount. cbn. lia.
Defined.

Lemma Allocate_keeps_legs_and_assets_witness :
  exists allocated priceDiffs',
    Allocate [mkAssetAmount assetX 10000; mkAssetAmount assetY 20000]
      [mkAssetAmount assetX 500; mkAssetAmount assetY 700] [false; true]
    = Ok (allocated, priceDiffs')
    /\ length (Receives allocated) = 2%nat
    /\ AssetId <$> Fees allocated = [assetX; assetY].
Proof.
  destruct (Allocate [mkAssetAmount assetX 10000; mkAssetAmount assetY 20000]
              [mkAssetAmount assetX 500; mkAssetAmount assetY 700] [false; true])
    as [[allocated priceDiffs'] | err | f] eqn:Hrun;
    [| vm_compute in Hrun; discriminate | vm_compute in Hrun; discriminate].
  assert (Forall uint64Amount [mkAssetAmount assetX 500; mkAssetAmount assetY 700])
    as Hrange by (repeat constructor; cbn; lia).
  destruct (Allocate_keeps_legs_and_assets _ _ _ _ _ Hrange Hrun)
    as (Hlen & _ & _ & Hfees & _).
  exists allocated, priceDiffs'. split; [reflexivity |].
  split; [exact Hlen | exact Hfees].
Defined.

Lemma Allocate_only_lowers_taker_price_diffs_witness :
  exists allocated priceDiffs',
    Allocate [mkAssetAmount assetX 10000; mkAssetAmount assetY 20000]
      [mkAssetAmount assetX 500; mkAssetAmount assetY 700] [false; true]
    = Ok (allocated, priceDiffs')
    /\ priceDiffs' !! 1%nat = Some (mkAssetAmount assetY 700).
Proof.
  destruct (Allocate [mkAssetAmount assetX 10000; mkAssetAmount assetY 20000]
              [mkAssetAmount assetX 500; mkAssetAmount assetY 700] [false; true])
    as [[allocated priceDiffs'] | err | f] eqn:Hrun;
    [| vm_compute in Hrun; discriminate | vm_compute in Hrun; discriminate].
  assert (Forall uint64Amount [mkAssetAmount assetX 500; mkAssetAmount assetY 700])
    as Hrange by (repeat constructor; cbn; lia).
  pose proof (Allocate_only_lowers_taker_price_diffs _ _ _ _ _ Hrange Hrun) as Hcharged.
  exists allocated, priceDiffs'. split; [reflexivity |].
  destruct (Forall2_lookup_l _ _ _ 1%nat _ Hcharged eq_refl)
    as (priceDiff' & Hlookup & _ & _ & Hsame).
  rewrite Hlookup, Hsame; [reflexivity |].
  clear Hrun Hcharged Hlookup Hsame.
  intros (j & receiveAmount & Hj & Hmaker & Hasset).
  destruct j as [| [| j]]; cbn in Hj, Hmaker;
    [injection Hj as <-; discriminate Hasset | discriminate Hmaker | discriminate Hj].
Defined.

Lemma Allocate_short_makers_panics_witness :
  Allocate [mkAssetAmount assetX 10000; mkAssetAmount assetY 20000] [] [false]
  = Fault IndexOutOfRange.
Proof.
  apply Allocate_short_makers_panics.
  - repeat constructor; cbn; lia.
  - constructor.
  - cbn. lia.
Defined.

Lemma Validate_accepts_lower_fees_witness :
  Validate [mkAssetAmount assetX 10000] {[assetX := 1]} = Ok tt.
Proof.
  apply (Validate_accepts_lower_fees _ {[assetX := 3]}).
  - vm_compute. reflexivity.
  - intros receiveAmount ->%list_elem_of_singleton. vm_compute. discriminate.
Defined.

Lemma Validate_any_order_witness :
  Validate [mkAssetAmount assetX 10000; mkAssetAmount assetY 20000] {[assetX := 3]}
  = Validate [mkAssetAmount assetY 20000; mkAssetAmount assetX 10000] {[assetX := 3]}.
Proof.
  apply Validate_any_order.
  - repeat constructor; cbn; lia.
  - apply perm_swap.
Defined.

Lemma Allocate_fees_pass_Validate_witness :
  exists allocated priceDiffs',
    Allocate [mkAssetAmount assetX 10000; mkAssetAmount assetY 20000] [] [false; true]
    = Ok (allocated, priceDiffs')
    /\ Validate [mkAssetAmount assetX 10000; mkAssetAmount assetY 20000]
         (feeMapOf (Fees allocated)) = Ok tt.
Proof.
  destruct (Allocate [mkAssetAmount assetX 10000; mkAssetAmount assetY 20000] []
              [false; true])
    as [[allocated priceDiffs'] | err | f] eqn:Hrun;
    [| vm_compute in Hrun; discriminate | vm_compute in Hrun; discriminate].
  exists allocated, priceDiffs'. split; [reflexivity |].
  apply (Allocate_fees_pass_Validate _ [false; true] _ priceDiffs').
  - apply (bool_decide_unpack _). vm_compute. reflexivity.
  - repeat constructor; cbn; lia.
  - exact Hrun.
Defined.

Lemma buildMatchTx_ignores_rates_witness :
  buildMatchTx (engine generousScripts add generousBook) generousBook
  = buildMatchTx (engine generousScripts add generousBook)
      [mkOrder assetX assetY (mkMovUtxo 7%N 0 100 "scriptA") F64.one;
       mkOrder assetY assetX (mkMovUtxo 7%N 0 100 "scriptB") F64.one].
Proof.
  apply buildMatchTx_ignores_rates. repeat constructor.
Defined.

End MoreRuns.
